(** * PlantSeg: nuclei-guided correction of a cell segmentation

    A shallow embedding of
    [plantseg/dataprocessing/functional/advanced_dataprocessing.py]
    and the properties its specification states about it.

    Conventions of the embedding.
    - A 3D [np.array] is a nested list in C order ([vol A]); masks are
      [vol bool], label volumes are [vol nat] (labels are non-negative,
      0 is background).  The cell segmentation is an array of unsigned
      integers of [bits] bits: a value assigned into it is reduced modulo
      [2^bits] ([as_dtype]).  The labels a split writes are the ones
      that can exceed the type; the array the flood returns has an integer
      type of its own, taken to be wide enough for them, and the seed
      numbers of a split, one per nucleus of a cell, are taken to fit the
      type.
    - The counters of [numba_find_overlaps] are [uint16]: they are kept in
      [Z] and every increment is reduced modulo [2^16].  The loop runs
      under [numba.prange]: [numba_find_overlaps] is the loop with its
      iterations one after the other, [numba_find_overlaps_run] is the
      loop with the iterations on threads that share the counters.
    - Python exceptions are values of [exn]; a function that may raise
      returns a [result].
    - A NumPy float is a [fval]: an exact rational or one of the IEEE
      specials that a division by zero produces.  Rounding is not
      modelled: a property that depends on the value of an interpolated
      quantile is stated for whatever mask [get_quantile_mask] returns, or
      on the bounds between which the quantile lies before and after
      rounding.
    - [np.quantile], [skimage.filters.gaussian] and
      [skimage.segmentation.watershed] are library code: the first is
      written out (linear interpolation), the other two are parameters. *)

From Stdlib Require Import ZArith QArith Qround.
From stdpp Require Import base numbers list sorting relations gmap.

Local Close Scope Q_scope.

Local Open Scope nat_scope.

(** ** Exceptions and results *)

Inductive exn : Set :=
| ValueError_empty_min      (* zero-size array to reduction operation minimum *)
| ValueError_empty_max      (* zero-size array to reduction operation maximum *)
| ValueError_quantile       (* Quantiles must be in the range [0, 1] *)
| IndexError_empty_quantile (* [np.quantile] of an array without entry *)
| IndexError_list           (* list index out of range *)
| IndexError_bool_shape     (* boolean index did not match indexed array *)
| UnboundReference.         (* a reference that names no array of the store *)

Inductive result (A : Type) : Type :=
| Ok (a : A)
| Raise (e : exn).
Arguments Ok {A} a.
Arguments Raise {A} e.

Definition bind {A B} (m : result A) (k : A → result B) : result B :=
  match m with
  | Ok a => k a
  | Raise e => Raise e
  end.

Notation "x <- m ;; k" := (bind m (fun x => k))
  (at level 100, m at next level, right associativity).

(** The name the specification gives to the failure of [min()] on the empty
    coordinate array of an all-false mask. *)
Definition EmptyMaskError : exn := ValueError_empty_min.

(** ** Three-dimensional arrays *)

Abbreviation vol A := (list (list (list A))).

Definition index3 : Type := nat * nat * nat.

Definition ravel {A} (v : vol A) : list A := mjoin (mjoin v).

Definition vget {A} (v : vol A) (p : index3) : option A :=
  let '(i, j, k) := p in
  plane ← v !! i; row ← plane !! j; row !! k.

Definition vmap {A B} (f : A → B) (v : vol A) : vol B :=
  fmap (M:=list) (fmap (M:=list) (fmap (M:=list) f)) v.

Definition vzip_with {A B C} (f : A → B → C) (a : vol A) (b : vol B) : vol C :=
  zip_with (zip_with (zip_with f)) a b.

Definition vimap {A B} (f : index3 → A → B) (v : vol A) : vol B :=
  imap (λ i, imap (λ j, imap (λ k, f (i, j, k)))) v.

(** [a.shape] *)
Definition shape {A} (v : vol A) : nat * nat * nat :=
  (length v,
   length (default [] (head v)),
   length (default [] (head v ≫= head))).

(** Two arrays with the same extent along every axis, entry by entry. *)
Definition same_shape {A B} (a : vol A) (b : vol B) : Prop :=
  Forall2 (Forall2 (λ r s, length r = length s)) a b.

Global Instance same_shape_dec {A B} (a : vol A) (b : vol B) :
  Decision (same_shape a b).
Proof. unfold same_shape. apply _. Defined.

(** ** Slices *)

Record slice : Set := Slice { start : Z; stop : Z }.

(** Python's normalisation of a slice bound against a length [n]. *)
Definition norm_bound (i : Z) (n : nat) : nat :=
  Z.to_nat (if decide (i < 0)%Z then Z.max (i + Z.of_nat n) 0
            else Z.min i (Z.of_nat n)).

Definition slice_lo (s : slice) (n : nat) : nat := norm_bound (start s) n.
Definition slice_hi (s : slice) (n : nat) : nat := norm_bound (stop s) n.

(** [l[s]] *)
Definition apply_slice {A} (s : slice) (l : list A) : list A :=
  let n := length l in
  take (slice_hi s n - slice_lo s n) (drop (slice_lo s n) l).

(** Position inside the slice of index [i] of a list of length [n]. *)
Definition in_slice (s : slice) (n i : nat) : option nat :=
  if decide (slice_lo s n ≤ i < slice_hi s n) then Some (i - slice_lo s n) else None.

Definition bbox : Set := (slice * slice * slice)%type.

(** [v[bbox]] *)
Definition crop {A} (b : bbox) (v : vol A) : vol A :=
  let '(sz, sx, sy) := b in
  fmap (M:=list) (fmap (M:=list) (apply_slice sy))
    (fmap (M:=list) (apply_slice sx) (apply_slice sz v)).

(** Extent of a slice applied to an axis of length [n]. *)
Definition slice_extent (s : slice) (n : nat) : nat :=
  slice_hi s n - slice_lo s n.

(** ** Reductions *)

Definition np_min (l : list Z) : result Z :=
  match l with
  | [] => Raise ValueError_empty_min
  | x :: l' => Ok (foldl Z.min x l')
  end.

Definition np_max (l : list Z) : result Z :=
  match l with
  | [] => Raise ValueError_empty_max
  | x :: l' => Ok (foldl Z.max x l')
  end.

(** [a.max()] on a label array *)
Definition label_max (l : list nat) : result nat :=
  match l with
  | [] => Raise ValueError_empty_max
  | x :: l' => Ok (foldl Nat.max x l')
  end.

(** ** [np.nonzero] *)

(** Every entry of the array with its index, in C order. *)
Definition indexed {A} (v : vol A) : list (index3 * A) :=
  mjoin (mjoin (vimap (λ p a, (p, a)) v)).

(** [np.nonzero(mask)], as the list of index triples. *)
Definition nonzero (mask : vol bool) : list index3 :=
  fst <$> filter (λ e, e.2 = true) (indexed mask).

Definition axis0 (p : index3) : Z := Z.of_nat p.1.1.
Definition axis1 (p : index3) : Z := Z.of_nat p.1.2.
Definition axis2 (p : index3) : Z := Z.of_nat p.2.

(** ** [get_bbox] *)

Definition get_bbox (mask : vol bool) (pixel_toll : Z)
  : result (bbox * Z * Z * Z) :=
  let max_shape := shape mask in
  let coords := nonzero mask in
  c0min <- np_min (axis0 <$> coords);;
  c0max <- np_max (axis0 <$> coords);;
  let z_min := Z.max (c0min - pixel_toll) 0 in
  let z_max := Z.min (c0max + pixel_toll) (Z.of_nat max_shape.1.1) in
  let z_max := if decide (z_max - z_min > 0)%Z then z_max else 1%Z in
  c1min <- np_min (axis1 <$> coords);;
  c1max <- np_max (axis1 <$> coords);;
  let x_min := Z.max (c1min - pixel_toll) 0 in
  let x_max := Z.min (c1max + pixel_toll) (Z.of_nat max_shape.1.2) in
  c2min <- np_min (axis2 <$> coords);;
  c2max <- np_max (axis2 <$> coords);;
  let y_min := Z.max (c2min - pixel_toll) 0 in
  let y_max := Z.min (c2max + pixel_toll) (Z.of_nat max_shape.2) in
  Ok ((Slice z_min z_max, Slice x_min x_max, Slice y_min y_max),
      z_min, x_min, y_min).

(** Extents of the box that [get_bbox] returns, on an array of shape
    [max_shape]. *)
Definition bbox_extents (b : bbox) (max_shape : nat * nat * nat)
  : nat * nat * nat :=
  let '(sz, sx, sy) := b in
  (slice_extent sz max_shape.1.1,
   slice_extent sx max_shape.1.2,
   slice_extent sy max_shape.2).

(** ** NumPy floats *)

Inductive fval : Set :=
| Fin (q : Q)
| PosInf
| NegInf
| NaN.

Definition Qltb (x y : Q) : bool :=
  (Qnum x * Z.pos (Qden y) <? Qnum y * Z.pos (Qden x))%Z.

(** [a / b] on two integer scalars: a division by zero gives [inf] or [nan]
    (and a warning), it does not raise. *)
Definition true_divide (a b : Z) : fval :=
  if decide (b = 0)%Z then
    if decide (a = 0)%Z then NaN
    else if decide (0 < a)%Z then PosInf else NegInf
  else Fin (inject_Z a / inject_Z b)%Q.

(** [x < y] on floats; every comparison with [nan] is false. *)
Definition fval_ltb (x y : fval) : bool :=
  match x, y with
  | NaN, _ | _, NaN => false
  | _, NegInf => false
  | NegInf, _ => true
  | PosInf, _ => false
  | Fin _, PosInf => true
  | Fin a, Fin b => Qltb a b
  end.

(** [x > y] *)
Definition fval_gtb (x y : fval) : bool := fval_ltb y x.

Definition of_count (c : Z) : fval := Fin (inject_Z c).

(** ** [np.quantile], default method (linear interpolation)

    The fractions are checked first.  On an array without entry the lookup
    of the two neighbours of the quantile then fails with [IndexError].
    The interpolation is written on exact rationals; NumPy computes it in
    [float64]. *)

Definition clip_index (i : Z) (n : nat) : nat :=
  Z.to_nat (Z.min (Z.max i 0) (Z.of_nat n - 1)).

Definition np_quantile (a : list Z) (q : Q) : result fval :=
  if Qle_bool 0 q && Qle_bool q 1 then
    match a with
    | [] => Raise IndexError_empty_quantile
    | _ =>
        let arr := merge_sort Z.le a in
        let n := length a in
        let virtual_index := (inject_Z (Z.of_nat n - 1) * q)%Q in
        let previous := Qfloor virtual_index in
        let gamma := (virtual_index - inject_Z previous)%Q in
        let lo := inject_Z (arr !!! clip_index previous n) in
        let hi := inject_Z (arr !!! clip_index (previous + 1) n) in
        Ok (Fin (Qred (lo + (hi - lo) * gamma)))
    end
  else Raise ValueError_quantile.

(** ** [get_quantile_mask] *)

Definition get_quantile_mask (counts : list Z) (quantile : Q * Q)
  : result (list bool) :=
  q_low <- np_quantile counts quantile.1;;
  let mask_low := (λ c, fval_ltb q_low (of_count c)) <$> counts in
  q_up <- np_quantile counts quantile.2;;
  let mask_up := (λ c, fval_gtb q_up (of_count c)) <$> counts in
  let mask := zip_with andb mask_low mask_up in
  Ok mask.

(** ** [numba_find_overlaps]

    The outer loop is a [prange].  The function below visits the voxels
    one at a time, in C order, and each visit adds one to up to three
    counters: it is the loop without [parallel=True].  The loop with its
    threads, where two of them can update a counter at once, is
    [numba_find_overlaps_run] further down. *)

(** [c += 1] on a [uint16] array entry. *)
Definition uint16_incr (c : Z) : Z := ((c + 1) mod 65536)%Z.

Definition statistics : Type := list Z * list Z * list (list Z).

(** The body of the loop, at one voxel. *)
Definition count_voxel (acc : statistics) (v : nat * nat) : statistics :=
  let '(cell_counts, n_counts, overlap_counts) := acc in
  let seg_id := v.1 in
  let cell_counts :=
    if decide (0 < seg_id) then alter uint16_incr seg_id cell_counts
    else cell_counts in
  let n_id := v.2 in
  let n_counts :=
    if decide (0 < n_id) then alter uint16_incr n_id n_counts
    else n_counts in
  let overlap_counts :=
    if decide (0 < n_id ∧ 0 < seg_id)
    then alter (alter uint16_incr n_id) seg_id overlap_counts
    else overlap_counts in
  (cell_counts, n_counts, overlap_counts).

(** The voxels the three nested loops visit: every index of
    [cell_seg.shape], read in both arrays (which have the same shape). *)
Definition voxel_pairs (cell_seg n_seg : vol nat) : list (nat * nat) :=
  zip (ravel cell_seg) (ravel n_seg).

Definition numba_find_overlaps (cell_seg n_seg : vol nat) : result statistics :=
  cmax <- label_max (ravel cell_seg);;
  nmax <- label_max (ravel n_seg);;
  let cell_counts := replicate (cmax + 1) 0%Z in
  let n_counts := replicate (nmax + 1) 0%Z in
  let overlap_counts := replicate (cmax + 1) (replicate (nmax + 1) 0%Z) in
  Ok (foldl count_voxel (cell_counts, n_counts, overlap_counts)
        (voxel_pairs cell_seg n_seg)).

(** ** The analysis passes

    The statistics are a count per cell id, a count per nucleus id and a
    matrix with a row per cell id and a column per nucleus id.  On such
    arrays every index below is in range; where an index is out of range
    NumPy raises [IndexError] and the total lookups used here return a
    default value, so the definitions follow the program on well-shaped
    statistics only. *)

(** [np.nonzero(a)[0]] on a one-dimensional array. *)
Definition nonzero1 (a : list Z) : list nat :=
  (imap (λ i x, (i, x)) a) ≫= (λ e, if decide (e.2 = 0)%Z then [] else [e.1]).

(** [m[:, j]] *)
Definition column (m : list (list Z)) (j : nat) : list Z :=
  (λ row : list Z, row !!! j) <$> m.

(** [m[i, j]] *)
Definition entry (m : list (list Z)) (i j : nat) : Z :=
  (m !!! i) !!! j.

Record UnderSeg : Set := {
  n_idx : list nat;
  under_seg_idx : list nat;
  is_under_seg : bool;
  r_intersection_u : list fval
}.

Record OverSeg : Set := {
  c_idx : list nat;
  over_seg_idx : list nat;
  is_over_seg : bool;
  r_intersection_o : list fval
}.

(** What [find_potential_under_seg] computes for the cell [idx]. *)
Definition under_seg_profile (nuclei_counts : list Z)
    (intersection_counts : list (list Z)) (threshold : Q)
    (nuclei_counts_mask : list bool) (idx : nat) : UnderSeg :=
  let n_idx := nonzero1 (intersection_counts !!! idx) in
  let r_intersection :=
    (λ _n_idx, true_divide (entry intersection_counts idx _n_idx)
                           (nuclei_counts !!! _n_idx)) <$> n_idx in
  let under_seg_n_idx :=
    (zip n_idx r_intersection) ≫=
      (λ e, if fval_gtb e.2 (Fin threshold) && (nuclei_counts_mask !!! e.1)
            then [e.1] else []) in
  let is_under_seg := bool_decide (1 < length under_seg_n_idx) in
  {| n_idx := n_idx;
     under_seg_idx := under_seg_n_idx;
     is_under_seg := is_under_seg;
     r_intersection_u := r_intersection |}.

Definition find_potential_under_seg (nuclei_counts cell_counts : list Z)
    (intersection_counts : list (list Z)) (threshold : Q)
    (quantiles_clip : Q * Q) : result (list (nat * UnderSeg)) :=
  nuclei_counts_mask <- get_quantile_mask nuclei_counts quantiles_clip;;
  Ok (foldl
        (λ cell_assigment idx,
           let r := under_seg_profile nuclei_counts intersection_counts
                      threshold nuclei_counts_mask idx in
           if is_under_seg r then cell_assigment ++ [(idx, r)]
           else cell_assigment)
        [] (seq 0 (length cell_counts))).

(** What [find_potential_over_seg] computes for the nucleus [idx]. *)
Definition over_seg_profile (nuclei_counts : list Z)
    (intersection_counts : list (list Z)) (threshold : Q) (idx : nat)
  : OverSeg :=
  let c_idx := nonzero1 (column intersection_counts idx) in
  let r_intersection :=
    (λ _c_idx, true_divide (entry intersection_counts _c_idx idx)
                           (nuclei_counts !!! idx)) <$> c_idx in
  let over_seg_c_idx :=
    (zip c_idx r_intersection) ≫=
      (λ e, if fval_gtb e.2 (Fin threshold) then [e.1] else []) in
  let is_over_seg := bool_decide (1 < length over_seg_c_idx) in
  {| c_idx := c_idx;
     over_seg_idx := over_seg_c_idx;
     is_over_seg := is_over_seg;
     r_intersection_o := r_intersection |}.

Definition find_potential_over_seg (nuclei_counts : list Z)
    (intersection_counts : list (list Z)) (threshold : Q)
  : list (nat * OverSeg) :=
  foldl
    (λ nuclei_assigment idx,
       let r := over_seg_profile nuclei_counts intersection_counts
                  threshold idx in
       if is_over_seg r then nuclei_assigment ++ [(idx, r)]
       else nuclei_assigment)
    [] (seq 0 (length nuclei_counts)).

(** ** Array assignments *)

Fixpoint foldM {A B} (f : A → B → result A) (a : A) (l : list B) : result A :=
  match l with
  | [] => Ok a
  | x :: l' => a' <- f a x;; foldM f a' l'
  end.

(** [a == x] *)
Definition np_eq (a : vol nat) (x : nat) : vol bool :=
  vmap (λ l, bool_decide (l = x)) a.

(** [np.logical_or.reduce(masks)]: the identity of the reduction, which has
    no true entry, when [masks] is empty. *)
Definition logical_or_reduce (masks : list (vol bool)) : vol bool :=
  match masks with
  | [] => []
  | m :: ms => foldl (vzip_with orb) m ms
  end.

(** [a[mask] = value], the array after the assignment. *)
Definition setitem_mask {A} (a : vol A) (mask : vol bool) (value : A)
  : result (vol A) :=
  if decide (same_shape mask a)
  then Ok (vzip_with (λ (m : bool) x, if m then value else x) mask a)
  else Raise IndexError_bool_shape.

(** Position of the index [p] inside the view [a[b]], if it lies in it. *)
Definition in_bbox {A} (b : bbox) (a : vol A) (p : index3) : option index3 :=
  let '(sz, sx, sy) := b in
  let '(i, j, k) := p in
  plane ← a !! i;
  row ← plane !! j;
  i' ← in_slice sz (length a) i;
  j' ← in_slice sx (length plane) j;
  k' ← in_slice sy (length row) k;
  Some (i', j', k').

(** [a[b][mask] = values[mask].ravel()], the array [a] after the assignment
    through the view [a[b]]. *)
Definition setitem_bbox_mask {A} (a : vol A) (b : bbox) (mask : vol bool)
    (values : vol A) : result (vol A) :=
  if decide (same_shape mask values) then
    if decide (same_shape mask (crop b a)) then
      Ok (vimap (λ p old,
                   match in_bbox b a p with
                   | Some q =>
                       match vget mask q, vget values q with
                       | Some true, Some new => new
                       | _, _ => old
                       end
                   | None => old
                   end) a)
    else Raise IndexError_bool_shape
  else Raise IndexError_bool_shape.

(** ** The correction passes *)

(** A value as an array of unsigned integers of [bits] bits stores it. *)
Definition as_dtype (bits : nat) (l : nat) : nat := l mod 2 ^ bits.

Section Correction.

(** The width of the integer type of the cell segmentation. *)
Context (bits : nat).

(** The element type of the boundary map, and the library primitives the
    split uses on it. *)
Context {PVal : Type}.
Context (pval_one : PVal).                       (* an entry of [np.ones_like] *)
Context (pval_max : list PVal → PVal).           (* [max()] of a non-empty array *)
Context (pval_div : PVal → PVal → PVal).         (* [/] *)
Context (gaussian : vol PVal → vol PVal).        (* [gaussian(_, 2.0)] *)
Context (watershed : vol PVal → vol nat → vol nat).
                                 (* [watershed(_, markers=_, compactness=0.001)] *)

(** [a.max()] on the boundary map *)
Definition boundary_max (l : list PVal) : result PVal :=
  match l with
  | [] => Raise ValueError_empty_max
  | _ => Ok (pval_max l)
  end.

(** [local_seg += max_id + 1] is computed in the integer type of the
    flood; the assignment into [c_segmentation] converts the labels to the
    type of the segmentation.  Whether [max_id + 1] is itself computed in
    the type of the segmentation or in a wider one, the label stored is the
    same: the sum reduced modulo [2^bits]. *)
Definition split_from_seeds (segmentation : vol nat)
    (boundary_pmap : vol PVal) (seeds : vol nat) (all_idx : list nat)
  : result (vol nat) :=
  let c_segmentation := segmentation in
  let mask := logical_or_reduce (np_eq c_segmentation <$> all_idx) in
  r <- get_bbox mask 0;;
  let bbox := r.1.1.1 in
  let _boundary_pmap := crop bbox boundary_pmap in
  let _seeds := crop bbox seeds in
  let _mask := logical_or_reduce (np_eq (crop bbox c_segmentation) <$> all_idx) in
  m <- boundary_max (ravel _boundary_pmap);;
  let _boundary_pmap := gaussian (vmap (λ x, pval_div x m) _boundary_pmap) in
  let local_seg := watershed _boundary_pmap _seeds in
  max_id <- label_max (ravel c_segmentation);;
  let local_seg := vmap (λ l, l + (max_id + 1)) local_seg in
  setitem_bbox_mask c_segmentation bbox _mask (vmap (as_dtype bits) local_seg).

(** Whether a key passes the optional restriction of a pass. *)
Definition selected (idx : option (list nat)) (k : nat) : bool :=
  match idx with
  | None => true
  | Some l => bool_decide (k ∈ l)
  end.

(** The seed array of one cell: nucleus number [i] of [under_seg_idx]
    is marked [i + 1]. *)
Definition nuclei_seeds (_segmentation nuclei_segmentation : vol nat)
    (under_seg_idx : list nat) : result (vol nat) :=
  foldM (λ _nuclei_seeds e,
           setitem_mask _nuclei_seeds (np_eq nuclei_segmentation e.2) (e.1 + 1))
        (vmap (λ _, 0) _segmentation)
        (imap (λ i n_idx, (i, n_idx)) under_seg_idx).

Definition fix_under_segmentation (segmentation nuclei_segmentation : vol nat)
    (boundary_pmap : vol PVal) (cell_assignments : list (nat * UnderSeg))
    (cell_idx : option (list nat)) : result (vol nat) :=
  let _segmentation := segmentation in
  foldM (λ _segmentation e,
           let c_idx := e.1 in
           let value := e.2 in
           if selected cell_idx c_idx then
             _nuclei_seeds <- nuclei_seeds _segmentation nuclei_segmentation
                                (under_seg_idx value);;
             split_from_seeds _segmentation boundary_pmap _nuclei_seeds [c_idx]
           else Ok _segmentation)
        _segmentation cell_assignments.

(** [l[0]] *)
Definition first_item (l : list nat) : result nat :=
  match l with
  | [] => Raise IndexError_list
  | x :: _ => Ok x
  end.

Definition fix_over_segmentation (segmentation : vol nat)
    (nuclei_assignments : list (nat * OverSeg))
    (nuclei_idx : option (list nat)) : result (vol nat) :=
  let _segmentation := segmentation in
  foldM (λ _segmentation e,
           let n_idx := e.1 in
           let value := e.2 in
           if selected nuclei_idx n_idx then
             new_value <- first_item (over_seg_idx value);;
             foldM (λ _segmentation c_idx,
                      setitem_mask _segmentation (np_eq segmentation c_idx)
                        new_value)
                   _segmentation (over_seg_idx value)
           else Ok _segmentation)
        _segmentation nuclei_assignments.

Definition fix_over_under_segmentation_from_nuclei
    (cell_seg nuclei_seg : vol nat) (threshold_merge threshold_split : Q)
    (quantiles_nuclei : Q * Q) (boundary : option (vol PVal))
  : result (vol nat) :=
  s <- numba_find_overlaps cell_seg nuclei_seg;;
  let nuclei_counts := s.1.2 in
  let cell_nuclei_counts := s.2 in
  let nuclei_assignments :=
    find_potential_over_seg nuclei_counts cell_nuclei_counts threshold_merge in
  _cell_seg <- fix_over_segmentation cell_seg nuclei_assignments None;;
  s <- numba_find_overlaps _cell_seg nuclei_seg;;
  let cell_counts := s.1.1 in
  let nuclei_counts := s.1.2 in
  let cell_nuclei_counts := s.2 in
  cell_assignments <-
    find_potential_under_seg nuclei_counts cell_counts cell_nuclei_counts
      threshold_split quantiles_nuclei;;
  let boundary_pmap :=
    match boundary with
    | None => vmap (λ _, pval_one) cell_seg
    | Some b => b
    end in
  fix_under_segmentation _cell_seg nuclei_seg boundary_pmap cell_assignments None.

End Correction.

(** The merge pass does not use the boundary map. *)
Arguments fix_over_segmentation segmentation nuclei_assignments nuclei_idx : assert.

(** ** Voxel counts

    The number of voxels of a label, and of the voxels two labels share,
    counted without a bound: what [numba_find_overlaps] is documented to
    return. *)

Definition cell_size (cell_seg : vol nat) (i : nat) : nat :=
  length (filter (λ l, l = i) (ravel cell_seg)).

Definition nucleus_size (n_seg : vol nat) (j : nat) : nat :=
  length (filter (λ l, l = j) (ravel n_seg)).

Definition overlap_size (cell_seg n_seg : vol nat) (i j : nat) : nat :=
  length (filter (λ v, v.1 = i ∧ v.2 = j) (voxel_pairs cell_seg n_seg)).

(** A count as a [uint16] holds it. *)
Definition as_uint16 (n : nat) : Z := (Z.of_nat n mod 65536)%Z.

(** [sum(a)] *)
Definition sum_list_Z (a : list Z) : Z := foldr Z.add 0%Z a.

(** [m[i, j]], when the two indices are in range. *)
Definition oget (m : list (list Z)) (i j : nat) : option Z :=
  row ← m !! i; row !! j.

(** The value of a [uint16] counter after the voxels [vs], of which it
    counts those that satisfy [P]; a background counter stays at zero. *)
Definition counted (P : nat * nat → Prop) `{∀ v, Decision (P v)}
    (positive : bool) (vs : list (nat * nat)) : Z :=
  if positive then as_uint16 (length (filter P vs)) else 0%Z.

(** ** Statistics that respect the overlap invariant

    The overlaps of an id are counts, and add up to no more than the count
    of the id. *)

Definition nucleus_consistent (nuclei_counts : list Z)
    (intersection_counts : list (list Z)) (n : nat) : Prop :=
  Forall (λ x, 0 ≤ x)%Z (column intersection_counts n)
  ∧ (sum_list_Z (column intersection_counts n) ≤ nuclei_counts !!! n)%Z.

Definition cell_consistent (cell_counts : list Z)
    (intersection_counts : list (list Z)) (i : nat) : Prop :=
  Forall (λ x, 0 ≤ x)%Z (intersection_counts !!! i)
  ∧ (sum_list_Z (intersection_counts !!! i) ≤ cell_counts !!! i)%Z.

Global Instance nucleus_consistent_dec nc ic n :
  Decision (nucleus_consistent nc ic n).
Proof. unfold nucleus_consistent. apply _. Defined.

Global Instance cell_consistent_dec cc ic i :
  Decision (cell_consistent cc ic i).
Proof. unfold cell_consistent. apply _. Defined.

(** ** The relabelling of the merge pass

    The label a voxel of pre-merge label [l] carries once the record [e] has
    been applied, when it carried [cur] before: the test is on [l]. *)

Definition merge_label (nuclei_idx : option (list nat)) (l cur : nat)
    (e : nat * OverSeg) : nat :=
  if selected nuclei_idx e.1 then
    match over_seg_idx e.2 with
    | new_value :: _ =>
        if bool_decide (l ∈ over_seg_idx e.2) then new_value else cur
    | [] => cur
    end
  else cur.

Definition merged_label (nuclei_assignments : list (nat * OverSeg))
    (nuclei_idx : option (list nat)) (l : nat) : nat :=
  foldl (merge_label nuclei_idx l) l nuclei_assignments.

(** The records the pass applies, and whether one has [l] in its
    qualifying set. *)
Definition merges (nuclei_idx : option (list nat)) (l : nat)
    (e : nat * OverSeg) : Prop :=
  selected nuclei_idx e.1 = true ∧ l ∈ over_seg_idx e.2.

Global Instance merges_dec nuclei_idx l e : Decision (merges nuclei_idx l e).
Proof. unfold merges. apply _. Defined.

(** ** A segmentation consistent with the nuclei

    No nucleus has two qualifying cells and no cell has two qualifying
    nuclei, on the statistics of the two volumes. *)

Definition consistent (cell_seg nuclei_seg : vol nat)
    (threshold_merge threshold_split : Q) (quantiles_nuclei : Q * Q) : Prop :=
  match numba_find_overlaps cell_seg nuclei_seg with
  | Ok s =>
      match get_quantile_mask s.1.2 quantiles_nuclei with
      | Ok mask =>
          Forall (λ n, length (over_seg_idx
                                 (over_seg_profile s.1.2 s.2 threshold_merge n))
                       ≤ 1)
            (seq 0 (length s.1.2))
          ∧ Forall (λ i, length (under_seg_idx
                                   (under_seg_profile s.1.2 s.2 threshold_split
                                      mask i))
                         ≤ 1)
              (seq 0 (length s.1.1))
      | Raise _ => False
      end
  | Raise _ => False
  end.

Global Instance consistent_dec cell_seg nuclei_seg tm ts q :
  Decision (consistent cell_seg nuclei_seg tm ts q).
Proof.
  unfold consistent.
  destruct (numba_find_overlaps cell_seg nuclei_seg) as [s|]; [|apply _].
  destruct (get_quantile_mask s.1.2 q); apply _.
Defined.

(** ** [numba_find_overlaps] under [prange]

    [numba.njit(parallel=True)] gives the iterations of the outer loop, one
    per plane, to several threads.  The three counter arrays are shared,
    and [c += 1] on an entry is a load followed by a store with nothing to
    keep two threads apart: an increment is lost when another thread stores
    to the entry between the load and the store.

    The embedding gives every plane a thread of its own and lets the
    threads take their loads and stores in any order.  Planes that a
    scheduler runs one after the other on the same thread are one of these
    orders, so every run of the program is a run of the embedding;
    [numba_find_overlaps] is the run that takes the planes one after the
    other. *)

Inductive counter : Set :=
| cell_counter (seg_id : nat)               (* [cell_counts[seg_id]] *)
| n_counter (n_id : nat)                    (* [n_counts[n_id]] *)
| overlap_counter (seg_id n_id : nat).      (* [overlap_counts[seg_id, n_id]] *)

Global Instance counter_eq_dec : EqDecision counter.
Proof. solve_decision. Defined.

(** The increments of the loop body at one voxel, in program order. *)
Definition voxel_increments (v : nat * nat) : list counter :=
  let seg_id := v.1 in
  let n_id := v.2 in
  (if decide (0 < seg_id) then [cell_counter seg_id] else [])
  ++ (if decide (0 < n_id) then [n_counter n_id] else [])
  ++ (if decide (0 < n_id ∧ 0 < seg_id) then [overlap_counter seg_id n_id]
      else []).

(** The increments of one iteration of the outer loop. *)
Definition plane_increments (cell_plane n_plane : list (list nat))
  : list counter :=
  zip (mjoin cell_plane) (mjoin n_plane) ≫= voxel_increments.

(** The entry of a counter; the loop never reads outside the arrays. *)
Definition load_counter (s : statistics) (c : counter) : Z :=
  match c with
  | cell_counter i => default 0%Z (s.1.1 !! i)
  | n_counter j => default 0%Z (s.1.2 !! j)
  | overlap_counter i j => default 0%Z (oget s.2 i j)
  end.

Definition store_counter (s : statistics) (c : counter) (x : Z) : statistics :=
  match c with
  | cell_counter i => (<[i := x]> s.1.1, s.1.2, s.2)
  | n_counter j => (s.1.1, <[j := x]> s.1.2, s.2)
  | overlap_counter i j =>
      (s.1.1, s.1.2, alter (λ row : list Z, <[j := x]> row) i s.2)
  end.

(** A thread: the value it has loaded and not yet stored back, and the
    increments it has still to do. *)
Record thread : Set := Thread {
  loaded : option (counter * Z);
  todo : list counter
}.

(** The shared counters and the threads. *)
Definition prange_state : Type := statistics * list thread.

Inductive prange_step : prange_state → prange_state → Prop :=
| step_load (s : statistics) (ts : list thread) (t : nat) (c : counter)
    (rest : list counter) :
    ts !! t = Some (Thread None (c :: rest)) →
    prange_step (s, ts)
      (s, <[t := Thread (Some (c, load_counter s c)) rest]> ts)
| step_store (s : statistics) (ts : list thread) (t : nat) (c : counter)
    (x : Z) (rest : list counter) :
    ts !! t = Some (Thread (Some (c, x)) rest) →
    prange_step (s, ts)
      (store_counter s c (uint16_incr x), <[t := Thread None rest]> ts).

Definition finished (ts : list thread) : Prop :=
  Forall (λ t, t = Thread None []) ts.

(** The state the loop starts from. *)
Definition prange_start (cell_seg n_seg : vol nat) (cmax nmax : nat)
  : prange_state :=
  ((replicate (cmax + 1) 0%Z, replicate (nmax + 1) 0%Z,
    replicate (cmax + 1) (replicate (nmax + 1) 0%Z)),
   zip_with (λ cell_plane n_plane,
               Thread None (plane_increments cell_plane n_plane))
     cell_seg n_seg).

(** The results [numba_find_overlaps] can end with. *)
Definition numba_find_overlaps_run (cell_seg n_seg : vol nat)
    (r : result statistics) : Prop :=
  match label_max (ravel cell_seg) with
  | Raise e => r = Raise e
  | Ok cmax =>
      match label_max (ravel n_seg) with
      | Raise e => r = Raise e
      | Ok nmax =>
          ∃ s ts, r = Ok s
                  ∧ rtc prange_step (prange_start cell_seg n_seg cmax nmax)
                      (s, ts)
                  ∧ finished ts
      end
  end.

(** One step of the thread [t], if it has one to take; and the steps of a
    schedule, which names the thread of each step. *)
Definition prange_next (m : prange_state) (t : nat) : option prange_state :=
  match m.2 !! t with
  | Some (Thread None (c :: rest)) =>
      Some (m.1, <[t := Thread (Some (c, load_counter m.1 c)) rest]> m.2)
  | Some (Thread (Some (c, x)) rest) =>
      Some (store_counter m.1 c (uint16_incr x),
            <[t := Thread None rest]> m.2)
  | _ => None
  end.

Fixpoint prange_schedule (schedule : list nat) (m : prange_state)
  : option prange_state :=
  match schedule with
  | [] => Some m
  | t :: schedule' =>
      match prange_next m t with
      | Some m' => prange_schedule schedule' m'
      | None => None
      end
  end.

(** An increment without another thread in between. *)
Definition increment (s : statistics) (c : counter) : statistics :=
  store_counter s c (uint16_incr (load_counter s c)).



Global Instance thread_eq_dec : EqDecision thread.
Proof. solve_decision. Defined.

Global Instance finished_dec ts : Decision (finished ts).
Proof. unfold finished. apply _. Defined.



(** What a thread that runs alone leaves in the counters. *)
Definition thread_result (s : statistics) (t : thread) : statistics :=
  foldl increment
    match loaded t with
    | Some (c, x) => store_counter s c (uint16_incr x)
    | None => s
    end
    (todo t).

(** The schedule that runs the threads one after the other: two steps, a
    load and a store, for each increment. *)
Definition sequential_schedule (ts : list thread) : list nat :=
  mjoin (imap (λ t th, replicate (2 * length (todo th)) t) ts).

(** The schedule in which the threads advance in lockstep: all of them
    load, then all of them store, [n] times. *)
Definition lockstep_schedule (threads n : nat) : list nat :=
  mjoin (replicate (2 * n) (seq 0 threads)).

(** ** The correction with the counters under [prange]

    A step of the program that can end in several ways is the set of the
    results it can end with. *)

Definition runs (A : Type) : Type := result A → Prop.

Definition run_lift {A} (x : result A) : runs A := λ r, r = x.

Definition run_bind {A B} (m : runs A) (k : A → runs B) : runs B :=
  λ r, (∃ a, m (Ok a) ∧ k a r) ∨ (∃ e, m (Raise e) ∧ r = Raise e).

Section CorrectionRun.

Context (bits : nat).
Context {PVal : Type}.
Context (pval_one : PVal).
Context (pval_max : list PVal → PVal).
Context (pval_div : PVal → PVal → PVal).
Context (gaussian : vol PVal → vol PVal).
Context (watershed : vol PVal → vol nat → vol nat).

(** [fix_over_under_segmentation_from_nuclei], with the two calls of
    [numba_find_overlaps] under [prange]. *)
Definition fix_over_under_segmentation_from_nuclei_run
    (cell_seg nuclei_seg : vol nat) (threshold_merge threshold_split : Q)
    (quantiles_nuclei : Q * Q) (boundary : option (vol PVal))
  : runs (vol nat) :=
  run_bind (numba_find_overlaps_run cell_seg nuclei_seg) (λ s,
  let nuclei_counts := s.1.2 in
  let cell_nuclei_counts := s.2 in
  let nuclei_assignments :=
    find_potential_over_seg nuclei_counts cell_nuclei_counts threshold_merge in
  run_bind (run_lift (fix_over_segmentation cell_seg nuclei_assignments None))
    (λ _cell_seg,
  run_bind (numba_find_overlaps_run _cell_seg nuclei_seg) (λ s,
  let cell_counts := s.1.1 in
  let nuclei_counts := s.1.2 in
  let cell_nuclei_counts := s.2 in
  run_bind (run_lift (find_potential_under_seg nuclei_counts cell_counts
                        cell_nuclei_counts threshold_split quantiles_nuclei))
    (λ cell_assignments,
  let boundary_pmap :=
    match boundary with
    | None => vmap (λ _, pval_one) cell_seg
    | Some b => b
    end in
  run_lift (fix_under_segmentation bits pval_max pval_div gaussian watershed
              _cell_seg nuclei_seg boundary_pmap cell_assignments None))))).

End CorrectionRun.

(** ** The passes over a store of arrays

    The passes above return the array a call produces.  In the program the
    arrays are objects: a call receives references, [copy.deepcopy] and the
    NumPy constructors allocate, and an assignment through an index writes
    into the array a reference names, for every holder of that reference.
    The module below states the three passes and the correction on a store
    of label arrays, one step of the program per step of the store. *)

Module Store.

Abbreviation ref := nat.

Abbreviation store := (gmap nat (list (list (list nat)))).

(** A computation on the store; an exception leaves the store as it was
    when it was raised. *)
Definition M (A : Type) : Type := store → store * result A.

Definition ret {A} (a : A) : M A := λ h, (h, Ok a).

Definition bindS {A B} (m : M A) (k : A → M B) : M B :=
  λ h, match m h with
       | (h', Ok a) => k a h'
       | (h', Raise e) => (h', Raise e)
       end.

Notation "x <~ m ;; k" := (bindS m (fun x => k))
  (at level 100, m at next level, right associativity).

(** A step that does not touch the store. *)
Definition lift {A} (r : result A) : M A := λ h, (h, r).

(** The array a reference names. *)
Definition read (r : ref) : M (vol nat) :=
  λ h, match h !! r with
       | Some v => (h, Ok v)
       | None => (h, Raise UnboundReference)
       end.

(** An assignment into the array a reference names. *)
Definition write (r : ref) (v : vol nat) : M unit :=
  λ h, (<[r := v]> h, Ok tt).

(** A new array. *)
Definition new (v : vol nat) : M ref :=
  λ h, let r := fresh (dom h) in (<[r := v]> h, Ok r).

(** [copy.deepcopy(a)] *)
Definition deepcopy (a : ref) : M ref :=
  v <~ read a;; new v.

(** [np.zeros_like(a)] *)
Definition zeros_like (a : ref) : M ref :=
  v <~ read a;; new (vmap (λ _, 0) v).

(** A [for] loop whose body rebinds a local variable. *)
Fixpoint foldS {A B} (f : A → B → M A) (a : A) (l : list B) : M A :=
  match l with
  | [] => ret a
  | x :: l' => a' <~ f a x;; foldS f a' l'
  end.

(** A [for] loop. *)
Definition forS {B} (l : list B) (f : B → M unit) : M unit :=
  foldS (λ _ x, f x) tt l.

Section Correction.

Context (bits : nat).
Context {PVal : Type}.
Context (pval_one : PVal).
Context (pval_max : list PVal → PVal).
Context (pval_div : PVal → PVal → PVal).
Context (gaussian : vol PVal → vol PVal).
Context (watershed : vol PVal → vol nat → vol nat).

Definition split_from_seeds (segmentation : ref) (boundary_pmap : vol PVal)
    (seeds : ref) (all_idx : list nat) : M ref :=
  c_segmentation <~ deepcopy segmentation;;
  c <~ read c_segmentation;;
  let mask := logical_or_reduce (np_eq c <$> all_idx) in
  r <~ lift (get_bbox mask 0);;
  let bbox := r.1.1.1 in
  let _boundary_pmap := crop bbox boundary_pmap in
  s <~ read seeds;;
  let _seeds := crop bbox s in
  c <~ read c_segmentation;;
  let _mask := logical_or_reduce (np_eq (crop bbox c) <$> all_idx) in
  m <~ lift (boundary_max pval_max (ravel _boundary_pmap));;
  let _boundary_pmap := gaussian (vmap (λ x, pval_div x m) _boundary_pmap) in
  local_seg <~ new (watershed _boundary_pmap _seeds);;
  c <~ read c_segmentation;;
  max_id <~ lift (label_max (ravel c));;
  l <~ read local_seg;;
  _ <~ write local_seg (vmap (λ x, x + (max_id + 1)) l);;
  l <~ read local_seg;;
  c <~ read c_segmentation;;
  c' <~ lift (setitem_bbox_mask c bbox _mask (vmap (as_dtype bits) l));;
  _ <~ write c_segmentation c';;
  ret c_segmentation.

Definition fix_under_segmentation (segmentation nuclei_segmentation : ref)
    (boundary_pmap : vol PVal) (cell_assignments : list (nat * UnderSeg))
    (cell_idx : option (list nat)) : M ref :=
  _segmentation <~ deepcopy segmentation;;
  foldS (λ _segmentation e,
           let c_idx := e.1 in
           let value := e.2 in
           if selected cell_idx c_idx then
             _nuclei_seeds <~ zeros_like _segmentation;;
             _ <~ forS (imap (λ i n_idx, (i, n_idx)) (under_seg_idx value))
                    (λ e,
                       n <~ read nuclei_segmentation;;
                       s <~ read _nuclei_seeds;;
                       s' <~ lift (setitem_mask s (np_eq n e.2) (e.1 + 1));;
                       write _nuclei_seeds s');;
             split_from_seeds _segmentation boundary_pmap _nuclei_seeds [c_idx]
           else ret _segmentation)
        _segmentation cell_assignments.

Definition fix_over_segmentation (segmentation : ref)
    (nuclei_assignments : list (nat * OverSeg))
    (nuclei_idx : option (list nat)) : M ref :=
  _segmentation <~ deepcopy segmentation;;
  _ <~ forS nuclei_assignments
         (λ e,
            let n_idx := e.1 in
            let value := e.2 in
            if selected nuclei_idx n_idx then
              new_value <~ lift (first_item (over_seg_idx value));;
              forS (over_seg_idx value)
                (λ c_idx,
                   a <~ read segmentation;;
                   b <~ read _segmentation;;
                   b' <~ lift (setitem_mask b (np_eq a c_idx) new_value);;
                   write _segmentation b')
            else ret tt);;
  ret _segmentation.

Definition fix_over_under_segmentation_from_nuclei (cell_seg nuclei_seg : ref)
    (threshold_merge threshold_split : Q) (quantiles_nuclei : Q * Q)
    (boundary : option (vol PVal)) : M ref :=
  c <~ read cell_seg;;
  n <~ read nuclei_seg;;
  s <~ lift (numba_find_overlaps c n);;
  let nuclei_counts := s.1.2 in
  let cell_nuclei_counts := s.2 in
  let nuclei_assignments :=
    find_potential_over_seg nuclei_counts cell_nuclei_counts threshold_merge in
  _cell_seg <~ fix_over_segmentation cell_seg nuclei_assignments None;;
  c' <~ read _cell_seg;;
  n <~ read nuclei_seg;;
  s <~ lift (numba_find_overlaps c' n);;
  let cell_counts := s.1.1 in
  let nuclei_counts := s.1.2 in
  let cell_nuclei_counts := s.2 in
  cell_assignments <~
    lift (find_potential_under_seg nuclei_counts cell_counts cell_nuclei_counts
            threshold_split quantiles_nuclei);;
  c <~ read cell_seg;;
  let boundary_pmap :=
    match boundary with
    | None => vmap (λ _, pval_one) c
    | Some b => b
    end in
  fix_under_segmentation _cell_seg nuclei_seg boundary_pmap cell_assignments None.

End Correction.

(** The store keeps every array it holds: a computation that only allocates
    and writes into its own allocations leaves [h0] inside the final
    store, and its result satisfies [Q]. *)
Definition keeps {A} (h0 : store) (m : M A) (Q : A → Prop) : Prop :=
  ∀ h, h0 ⊆ h →
       h0 ⊆ (m h).1 ∧ ∀ a, (m h).2 = Ok a → Q a.

(** A run on the store agrees with a result on arrays: it raises the same
    exception, or returns a reference to an array equal to the result. *)
Definition agrees (run : store * result ref) (pure : result (vol nat)) : Prop :=
  match pure with
  | Ok v => ∃ out, run.2 = Ok out ∧ run.1 !! out = Some v
  | Raise e => run.2 = Raise e
  end.

(** A loop on the store agrees with a loop on arrays: it raises the same
    exception, or leaves in [tgt] an array equal to the result and the
    rest of the store [h] as it was. *)
Definition loop_agrees (run : store * result unit) (h : store) (tgt : ref)
    (pure : result (vol nat)) : Prop :=
  match pure with
  | Ok b => run = (<[tgt := b]> h, Ok tt)
  | Raise e => run.2 = Raise e
  end.

End Store.

From Stdlib Require Import Lqa.

(** ** Rectangular arrays

    A NumPy array has one extent per axis: every plane has [shape[1]] rows
    and every row [shape[2]] entries. *)

Definition rectangular {A} (v : vol A) : Prop :=
  Forall (λ plane,
            length plane = (shape v).1.2
            ∧ Forall (λ row : list A, length row = (shape v).2) plane) v.

Global Instance rectangular_dec {A} (v : vol A) : Decision (rectangular v).
Proof. unfold rectangular. apply _. Defined.

(** The least and the greatest coordinate of a selection along an axis. *)
Definition axis_range (axis : index3 → Z) (coords : list index3)
    (lo hi : Z) : Prop :=
  (∀ p, p ∈ coords → lo ≤ axis p ≤ hi)%Z
  ∧ (∃ p, p ∈ coords ∧ axis p = lo)
  ∧ (∃ p, p ∈ coords ∧ axis p = hi).



(** * The cropping widget

    [widget_cropping] of [plantseg/napari/widget/dataprocessing.py] builds
    three slices from the vertices of the rectangle drawn on the image and
    from the number of planes [crop_z].  The vertices are [int64] values and
    [crop_z / 2] is a float: the embedding computes on integers, which is
    what the program does as long as no [int64] operation overflows and
    [crop_z] is below 2^53 in absolute value. *)

(** [rectangle[i, j]] *)
Definition vertex (rectangle : list (list Z)) (i j : nat) : result Z :=
  match rectangle !! i with
  | Some row =>
      match row !! j with
      | Some x => Ok x
      | None => Raise IndexError_list
      end
  | None => Raise IndexError_list
  end.

(** [crop_z // 2] *)
Definition floor_half (crop_z : Z) : Z := (crop_z / 2)%Z.

(** [math.ceil(crop_z / 2)] *)
Definition ceil_half (crop_z : Z) : Z := (- (- crop_z / 2))%Z.

(** [crop_slices] of [widget_cropping] *)
Definition crop_slices (rectangle : list (list Z)) (crop_z : Z) : result bbox :=
  z0 <- vertex rectangle 0 0;;
  z1 <- vertex rectangle 0 0;;
  x0 <- vertex rectangle 0 1;;
  x1 <- vertex rectangle 2 1;;
  y0 <- vertex rectangle 0 2;;
  y1 <- vertex rectangle 2 2;;
  Ok (Slice (z0 - floor_half crop_z) (z1 + ceil_half crop_z),
      Slice x0 x1, Slice y0 y1).
(** ** Concrete inputs *)

Definition single_voxel_222 : vol bool :=
  [ [ [false; false]; [false; false] ];
    [ [false; false]; [false; true ] ] ].

Definition single_voxel_111 : vol bool := [ [ [true] ] ].

Definition all_false_112 : vol bool := [ [ [false; false] ] ].

Definition labels_112 : vol nat := [ [ [1; 2] ] ].

(** A boundary map of integers, with no smoothing and a flood that gives
    every unmarked voxel the first marker of the array. *)
Definition toy_gaussian (a : vol nat) : vol nat := a.

Definition toy_watershed (cost : vol nat) (markers : vol nat) : vol nat :=
  let first := default 0 (head (filter (λ m, m ≠ 0) (ravel markers))) in
  vmap (λ m, if decide (m = 0) then first else m) markers.

Definition toy_split_from_seeds :=
  split_from_seeds 16 max_list Nat.div toy_gaussian toy_watershed.

(** One cell (label 5) next to another (label 7), over two nuclei. *)
Definition cells_134 : vol nat :=
  [ [ [5; 5; 5; 7]; [5; 5; 5; 7]; [5; 5; 5; 7] ] ].

Definition seeds_134 : vol nat :=
  [ [ [1; 0; 2; 0]; [1; 0; 2; 0]; [0; 0; 0; 0] ] ].

Definition ones_134 : vol nat :=
  [ [ [1; 1; 1; 1]; [1; 1; 1; 1]; [1; 1; 1; 1] ] ].


(** A cell of 65536 voxels, and a nucleus of one voxel inside it. *)
Definition big_cell : vol nat := [ [ replicate (Z.to_nat 65536) 1 ] ].

Definition small_nucleus : vol nat :=
  [ [ 1 :: replicate (Z.to_nat 65535) 0 ] ].

(** The statistics of the under-segmentation scenario: two nuclei of 100
    voxels, and a cell that holds 90 voxels of the first and 10 of the
    second. *)
Definition scenario_nuclei_counts : list Z := [0; 100; 100]%Z.

Definition scenario_cell_counts : list Z := [0; 100]%Z.

Definition scenario_intersection_counts : list (list Z) :=
  [ [0; 0; 0]; [0; 90; 10] ]%Z.

(** Statistics in which nucleus 1 has no voxel and yet overlaps two cells. *)
Definition vacated_nuclei_counts : list Z := [0; 0]%Z.

Definition vacated_intersection_counts : list (list Z) :=
  [ [0; 0]; [0; 5]; [0; 7] ]%Z.

(** Statistics in which nucleus 1 has no voxel and no overlap. *)
Definition absent_nuclei_counts : list Z := [0; 0; 4]%Z.

Definition absent_cell_counts : list Z := [0; 4; 0]%Z.

Definition absent_intersection_counts : list (list Z) :=
  [ [0; 0; 0]; [0; 0; 4]; [0; 0; 0] ]%Z.

(** A nucleus of 65536 voxels, half of it in each of two cells. *)
Definition two_half_cells : vol nat :=
  [ [ replicate (Z.to_nat 32768) 1 ++ replicate (Z.to_nat 32768) 2 ] ].

Definition big_nucleus : vol nat := [ [ replicate (Z.to_nat 65536) 1 ] ].

(** Three cells in a row over two nuclei: nucleus 1 lies half in cell 1 and
    half in cell 2, nucleus 2 half in cell 2 and half in cell 3. *)
Definition cells_118 : vol nat := [ [ [1; 1; 2; 2; 2; 2; 3; 3] ] ].

Definition nuclei_118 : vol nat := [ [ [1; 1; 1; 1; 2; 2; 2; 2] ] ].

Definition merged_118 : vol nat := [ [ [1; 1; 2; 2; 2; 2; 2; 2] ] ].

(** Two cells over one nucleus, and a third cell. *)
Definition cells_115 : vol nat := [ [ [1; 1; 2; 2; 3] ] ].

Definition nuclei_115 : vol nat := [ [ [0; 1; 1; 0; 0] ] ].

Definition merged_115 : vol nat := [ [ [1; 1; 1; 1; 3] ] ].

Definition toy_pipeline :=
  fix_over_under_segmentation_from_nuclei 16 1 max_list Nat.div toy_gaussian
    toy_watershed.

(** A store that holds a cell segmentation and a nuclei segmentation. *)
Definition store_115 : Store.store := {[ 0 := cells_115; 1 := nuclei_115 ]}.

Definition toy_store_pipeline :=
  Store.fix_over_under_segmentation_from_nuclei 16 1 max_list Nat.div
    toy_gaussian toy_watershed.

(** A cell of a single voxel. *)
Definition cell_222 : vol nat :=
  [ [ [0; 0]; [0; 0] ];
    [ [0; 0]; [0; 3] ] ].

Definition ones_222 : vol nat :=
  [ [ [1; 1]; [1; 1] ];
    [ [1; 1]; [1; 1] ] ].


(** A [uint16] segmentation that holds the greatest label of its type: cell
    65535 next to cell 1, a seed in the corner of cell 65535, and the array
    after the split of cell 65535. *)
Definition max_uint16 : nat := Z.to_nat 65535.

Definition cells_wrap_123 : vol nat :=
  [ [ [max_uint16; max_uint16; 1]; [max_uint16; max_uint16; 1] ] ].

Definition seeds_wrap_123 : vol nat :=
  [ [ [1; 0; 0]; [0; 0; 0] ] ].

Definition ones_123 : vol nat :=
  [ [ [1; 1; 1]; [1; 1; 1] ] ].

Definition split_wrap_123 : vol nat :=
  [ [ [1; max_uint16; 1]; [max_uint16; max_uint16; 1] ] ].

(** Two planes of two voxels: cell 1 with three voxels and cell 2 with one,
    all four in nucleus 1.  The counters after the two threads have gone
    through their planes in lockstep, and the volume in which cell 2 has
    been merged into cell 1. *)
Definition cells_race : vol nat := [ [ [1; 1] ]; [ [1; 2] ] ].

Definition nuclei_race : vol nat := [ [ [1; 1] ]; [ [1; 1] ] ].

Definition stats_race : statistics :=
  ([0; 2; 1], [0; 2], [ [0; 0]; [0; 2]; [0; 1] ])%Z.

Definition merged_race : vol nat := [ [ [1; 1] ]; [ [1; 1] ] ].




Definition toy_pipeline_run :=
  fix_over_under_segmentation_from_nuclei_run 16 1 max_list Nat.div
    toy_gaussian toy_watershed.
(** A mask of two voxels, in the middle of a 3x3x3 array. *)
Definition mask_333 : vol bool :=
  [ [ [false; false; false]; [false; false; false]; [false; false; false] ];
    [ [false; false; false]; [false; true;  true ]; [false; false; false] ];
    [ [false; false; false]; [false; false; false]; [false; false; false] ] ].


(** Statistics of one cell over two nuclei, among four nuclei. *)
Definition nuclei_counts_5 : list Z := [0; 10; 20; 30; 40]%Z.
Definition cell_counts_2 : list Z := [0; 100]%Z.
Definition intersection_counts_25 : list (list Z) :=
  [ [0; 0; 0; 0; 0]; [0; 0; 20; 30; 0] ]%Z.

(** A cell (label 5) that lies in one row, above another cell. *)
Definition row_cell_134 : vol nat :=
  [ [ [5; 5; 5; 0]; [7; 7; 7; 7]; [7; 7; 7; 7] ] ].

(** Seeds of two nuclei that cover the whole cell of [cells_134]. *)
Definition seeds_full_134 : vol nat :=
  [ [ [1; 1; 2; 0]; [1; 1; 2; 0]; [1; 1; 2; 0] ] ].

(** Three cells and one nucleus, with background in both volumes. *)
Definition cells_bg_118 : vol nat := [ [ [0; 1; 1; 2; 2; 0; 0; 3] ] ].
Definition nuclei_bg_118 : vol nat := [ [ [0; 1; 1; 1; 1; 0; 0; 0] ] ].

(** A rectangle drawn on plane 0 of a stack, from (10, 20) to (30, 60). *)
Definition rectangle_top : list (list Z) :=
  [ [0; 10; 20]; [0; 10; 60]; [0; 30; 60]; [0; 30; 20] ]%Z.

(** A [uint16] segmentation whose greatest label is 65534. *)
Definition cells_below_max_123 : vol nat :=
  [ [ [Z.to_nat 65534; Z.to_nat 65534; 1];
      [Z.to_nat 65534; Z.to_nat 65534; 1] ] ].
(** * Properties *)

(** Closes a decidable proposition about concrete data by evaluation. *)
Ltac by_compute := apply (bool_decide_unpack _); vm_compute; exact I.

(** ** Arrays *)

Section Arrays.
Context {A B C : Type}.
Implicit Types (v : vol A) (p : index3).

Lemma vget_vmap (f : A → B) v p : vget (vmap f v) p = f <$> vget v p.
Proof.
  destruct p as [[i j] k]. unfold vget, vmap.
  rewrite list_lookup_fmap. destruct (v !! i) as [plane|]; simpl; [|done].
  rewrite list_lookup_fmap. destruct (plane !! j) as [row|]; simpl; [|done].
  by rewrite list_lookup_fmap.
Qed.

Lemma vget_vimap (f : index3 → A → B) v p :
  vget (vimap f v) p = f p <$> vget v p.
Proof.
  destruct p as [[i j] k]. unfold vget, vimap.
  rewrite list_lookup_imap. destruct (v !! i) as [plane|]; simpl; [|done].
  rewrite list_lookup_imap. destruct (plane !! j) as [row|]; simpl; [|done].
  by rewrite list_lookup_imap.
Qed.

Lemma vget_vzip_with (f : A → B → C) (a : vol A) (b : vol B) p :
  vget (vzip_with f a b) p =
    match vget a p, vget b p with
    | Some x, Some y => Some (f x y)
    | _, _ => None
    end.
Proof.
  destruct p as [[i j] k]. unfold vget, vzip_with.
  rewrite lookup_zip_with.
  destruct (a !! i) as [pa|]; simpl; [|done].
  destruct (b !! i) as [pb|]; simpl; [|by destruct (pa !! j ≫= _)].
  rewrite lookup_zip_with.
  destruct (pa !! j) as [ra|]; simpl; [|done].
  destruct (pb !! j) as [rb|]; simpl; [|by destruct (ra !! k)].
  rewrite lookup_zip_with.
  destruct (ra !! k); simpl; [|done]. by destruct (rb !! k).
Qed.

Lemma elem_of_ravel (x : A) v : x ∈ ravel v ↔ ∃ p, vget v p = Some x.
Proof.
  unfold ravel. rewrite list_elem_of_join. split.
  - intros (row & Hx & Hrow). apply list_elem_of_join in Hrow as (plane & Hrow & Hplane).
    apply list_elem_of_lookup in Hplane as [i Hi].
    apply list_elem_of_lookup in Hrow as [j Hj].
    apply list_elem_of_lookup in Hx as [k Hk].
    exists (i, j, k). unfold vget. rewrite Hi. simpl. rewrite Hj. done.
  - intros ([[i j] k] & Hp). unfold vget in Hp.
    destruct (v !! i) as [plane|] eqn:Hi; simpl in Hp; [|done].
    destruct (plane !! j) as [row|] eqn:Hj; simpl in Hp; [|done].
    exists row. split; [by eapply list_elem_of_lookup_2|].
    apply list_elem_of_join. exists plane.
    split; by eapply list_elem_of_lookup_2.
Qed.

End Arrays.

Lemma elem_of_indexed {A} (x : A) (v : vol A) (p : index3) : (p, x) ∈ indexed v ↔ vget v p = Some x.
Proof.
  change (indexed v) with (ravel (vimap (λ p a, (p, a)) v)).
  rewrite elem_of_ravel. split.
  - intros (q & Hq). rewrite vget_vimap in Hq.
    destruct (vget v q) as [y|] eqn:Hy; simpl in Hq; [|done]. congruence.
  - intros Hp. exists p. rewrite vget_vimap, Hp. done.
Qed.

Lemma elem_of_nonzero (mask : vol bool) p :
  p ∈ nonzero mask ↔ vget mask p = Some true.
Proof.
  unfold nonzero. rewrite list_elem_of_fmap. split.
  - intros ([q b] & -> & Hq). apply list_elem_of_filter in Hq as [Hb Hq].
    simpl in Hb. subst b. by apply elem_of_indexed.
  - intros Hp. exists (p, true). split; [done|].
    apply list_elem_of_filter. split; [done|]. by apply elem_of_indexed.
Qed.

Lemma nonzero_nil (mask : vol bool) :
  nonzero mask = [] ↔ ∀ p, vget mask p ≠ Some true.
Proof.
  split.
  - intros Hnil p Hp. apply elem_of_nonzero in Hp. rewrite Hnil in Hp.
    by apply not_elem_of_nil in Hp.
  - intros Hno. destruct (nonzero mask) as [|p l] eqn:Hnz; [done|].
    exfalso. apply (Hno p), elem_of_nonzero. rewrite Hnz. by left.
Qed.

(** ** [get_bbox] *)

Lemma get_bbox_empty (mask : vol bool) (pixel_toll : Z) :
  nonzero mask = [] → get_bbox mask pixel_toll = Raise EmptyMaskError.
Proof. intros Hnil. unfold get_bbox. rewrite Hnil. reflexivity. Qed.

Lemma get_bbox_raises_only_empty (mask : vol bool) (pixel_toll : Z) e :
  get_bbox mask pixel_toll = Raise e → nonzero mask = [] ∧ e = EmptyMaskError.
Proof.
  unfold get_bbox. destruct (nonzero mask) as [|p l]; simpl.
  - intros [= <-]. done.
  - discriminate.
Qed.

(** C5. On a mask with a single true voxel at index (1, 1, 1) of a 2x2x2
    array and tolerance 0, [get_bbox] returns the slices 1:1 on every axis:
    the upper bound is [max(coord) + tolerance], which the slice excludes,
    and the only floor, on axis 0, sets the upper bound to the constant 1.
    The box has extent 0 on every axis.  On a 1x1x1 array the box has
    extent 1 on axis 0 and extent 0 on axes 1 and 2. *)
Theorem get_bbox_single_voxel_extent :
  get_bbox single_voxel_222 0
    = Ok ((Slice 1 1, Slice 1 1, Slice 1 1), 1, 1, 1)%Z
  ∧ bbox_extents (Slice 1 1, Slice 1 1, Slice 1 1) (shape single_voxel_222)
    = (0, 0, 0)
  ∧ get_bbox single_voxel_111 0
    = Ok ((Slice 0 1, Slice 0 0, Slice 0 0), 0, 0, 0)%Z
  ∧ bbox_extents (Slice 0 1, Slice 0 0, Slice 0 0) (shape single_voxel_111)
    = (1, 0, 0).
Proof. repeat split; vm_compute; reflexivity. Qed.

(** The empty box of a single-voxel cell stops the split: the crop of the
    boundary map is empty and its [max()] raises. *)
Lemma split_single_voxel_cell_raises :
  toy_split_from_seeds cell_222 ones_222 cell_222 [3]
  = Raise ValueError_empty_max.
Proof. vm_compute. reflexivity. Qed.

(** ** Masks of a set of labels *)

Lemma vget_foldl_or (ms : list (vol bool)) (m : vol bool) p :
  vget (foldl (vzip_with orb) m ms) p = Some true →
  ∃ m', m' ∈ m :: ms ∧ vget m' p = Some true.
Proof.
  revert m. induction ms as [|m1 ms IH]; intros m Hp; simpl in Hp.
  - exists m. split; [by left|done].
  - apply IH in Hp as (m' & Hin & Hm').
    apply elem_of_cons in Hin as [->|Hin].
    + rewrite vget_vzip_with in Hm'.
      destruct (vget m p) as [[]|] eqn:Hm; destruct (vget m1 p) as [[]|] eqn:Hm1;
        simpl in Hm'; try done.
      * exists m. split; [by left|done].
      * exists m. split; [by left|done].
      * exists m1. split; [by right; left|done].
    + exists m'. split; [by do 2 right|done].
Qed.

Lemma vget_logical_or_reduce (ms : list (vol bool)) p :
  vget (logical_or_reduce ms) p = Some true →
  ∃ m, m ∈ ms ∧ vget m p = Some true.
Proof.
  destruct ms as [|m ms]; simpl.
  - destruct p as [[i j] k]. done.
  - apply vget_foldl_or.
Qed.

Lemma label_mask_true (a : vol nat) (all_idx : list nat) p :
  vget (logical_or_reduce (np_eq a <$> all_idx)) p = Some true →
  ∃ l, vget a p = Some l ∧ l ∈ all_idx.
Proof.
  intros Hp. apply vget_logical_or_reduce in Hp as (m & Hm & Hp).
  apply list_elem_of_fmap in Hm as (idx & -> & Hidx).
  unfold np_eq in Hp. rewrite vget_vmap in Hp.
  destruct (vget a p) as [l|]; simpl in Hp; [|done].
  exists l. split; [done|].
  injection Hp as Hp. apply bool_decide_eq_true in Hp. by subst.
Qed.

Lemma label_mask_vanished (a : vol nat) (all_idx : list nat) :
  Forall (λ l, l ∉ all_idx) (ravel a) →
  nonzero (logical_or_reduce (np_eq a <$> all_idx)) = [].
Proof.
  intros Hall. apply nonzero_nil. intros p Hp.
  apply label_mask_true in Hp as (l & Hl & Hin).
  rewrite Forall_forall in Hall. apply (Hall l); [|done].
  apply elem_of_ravel. by exists p.
Qed.

(** C8. [get_bbox] raises on a mask with no true voxel: [min()] of the empty
    coordinate array raises the error the specification calls
    [EmptyMaskError].  [split_from_seeds] on a set of labels none of which
    occurs in the array builds such a mask, so the call of [get_bbox] in
    it raises, and the same error leaves [split_from_seeds]. *)
Theorem empty_mask_error :
  (∀ (mask : vol bool) (pixel_toll : Z),
     true ∉ ravel mask → get_bbox mask pixel_toll = Raise EmptyMaskError)
  ∧
  (∀ (bits : nat) (PVal : Type) (pval_max : list PVal → PVal) pval_div
     gaussian watershed
     (segmentation : vol nat) (boundary_pmap : vol PVal) (seeds : vol nat)
     (all_idx : list nat),
     Forall (λ l, l ∉ all_idx) (ravel segmentation) →
     get_bbox (logical_or_reduce (np_eq segmentation <$> all_idx)) 0
       = Raise EmptyMaskError
     ∧ split_from_seeds bits pval_max pval_div gaussian watershed
         segmentation boundary_pmap seeds all_idx
       = Raise EmptyMaskError).
Proof.
  split.
  - intros mask pixel_toll Hno. apply get_bbox_empty, nonzero_nil.
    intros p Hp. apply Hno, elem_of_ravel. by exists p.
  - intros bits PVal pval_max pval_div gaussian watershed
      segmentation boundary_pmap seeds all_idx Hvanished.
    pose proof (get_bbox_empty _ 0%Z (label_mask_vanished _ _ Hvanished)) as Hbox.
    split; [done|]. unfold split_from_seeds. by rewrite Hbox.
Qed.

Lemma empty_mask_error_witness :
  get_bbox all_false_112 3 = Raise EmptyMaskError
  ∧ toy_split_from_seeds labels_112 labels_112 labels_112 [3]
    = Raise EmptyMaskError.
Proof.
  split.
  - apply (proj1 empty_mask_error).
    by_compute.
  - apply (proj2 empty_mask_error).
    by_compute.
Defined.

(** ** Views *)

Lemma lookup_apply_slice {A} (s : slice) (l : list A) (i i' : nat) :
  in_slice s (length l) i = Some i' → apply_slice s l !! i' = l !! i.
Proof.
  unfold in_slice, apply_slice. case_decide as Hi; [|done]. intros [= <-].
  rewrite lookup_take, lookup_drop. case_decide as Hlt; [|lia].
  f_equal. lia.
Qed.

Lemma vget_crop {A} (b : bbox) (a : vol A) (p q : index3) :
  in_bbox b a p = Some q → vget (crop b a) q = vget a p.
Proof.
  destruct b as [[sz sx] sy], p as [[i j] k]. unfold in_bbox, crop, vget.
  destruct (a !! i) as [plane|] eqn:Hi; simpl; [|done].
  destruct (plane !! j) as [row|] eqn:Hj; simpl; [|done].
  destruct (in_slice sz (length a) i) as [i'|] eqn:Hi'; simpl; [|done].
  destruct (in_slice sx (length plane) j) as [j'|] eqn:Hj'; simpl; [|done].
  destruct (in_slice sy (length row) k) as [k'|] eqn:Hk'; simpl; [|done].
  intros [= <-].
  rewrite !list_lookup_fmap, (lookup_apply_slice _ _ _ _ Hi'), Hi. simpl.
  rewrite !list_lookup_fmap, (lookup_apply_slice _ _ _ _ Hj'), Hj. simpl.
  by rewrite (lookup_apply_slice _ _ _ _ Hk').
Qed.

Lemma vget_setitem_bbox_mask {A} (a : vol A) (b : bbox) (mask : vol bool)
    (values a' : vol A) (p : index3) :
  setitem_bbox_mask a b mask values = Ok a' →
  vget a' p =
    (λ old, match in_bbox b a p with
            | Some q =>
                match vget mask q, vget values q with
                | Some true, Some new => new
                | _, _ => old
                end
            | None => old
            end) <$> vget a p.
Proof.
  unfold setitem_bbox_mask. repeat case_decide; try done.
  intros [= <-]. by rewrite vget_vimap.
Qed.


(** ** [split_from_seeds] *)

Section Split.
Context (bits : nat).
Context {PVal : Type}.
Context (pval_max : list PVal → PVal) (pval_div : PVal → PVal → PVal).
Context (gaussian : vol PVal → vol PVal).
Context (watershed : vol PVal → vol nat → vol nat).

Local Abbreviation split :=
  (split_from_seeds bits pval_max pval_div gaussian watershed).


End Split.


(** C2. The offset [max_id + 1] is meant to give the split labels that the
    array does not hold yet, but the assignment stores them in the integer
    type of the segmentation.  On a [uint16] segmentation whose greatest
    label is 65535, the voxel of cell 65535 that the split overwrites with
    the flood label 1 holds [1 + 65536] reduced modulo [2^16], that is 1:
    a label that is not greater than the greatest label before the split
    and that another cell of the array carries. *)
Theorem split_from_seeds_label_wraps :
  max_uint16 = 2 ^ 16 - 1
  ∧ label_max (ravel cells_wrap_123) = Ok max_uint16
  ∧ toy_split_from_seeds cells_wrap_123 ones_123 seeds_wrap_123 [max_uint16]
    = Ok split_wrap_123
  ∧ vget cells_wrap_123 (0, 0, 0) = Some max_uint16
  ∧ vget split_wrap_123 (0, 0, 0) = Some 1
  ∧ vget cells_wrap_123 (0, 0, 2) = Some 1
  ∧ vget split_wrap_123 (0, 0, 2) = Some 1
  ∧ ¬ max_uint16 < 1.
Proof.
  split_and!; [| | |reflexivity..|].
  - vm_cast_no_check (eq_refl max_uint16).
  - vm_cast_no_check (eq_refl (Ok max_uint16)).
  - vm_cast_no_check (eq_refl (Ok split_wrap_123)).
  - unfold max_uint16. lia.
Qed.

(** ** [numba_find_overlaps] *)

Lemma oget_alter (f : Z → Z) (m : list (list Z)) (i j i' j' : nat) :
  oget (alter (alter f j) i m) i' j' =
    if decide (i = i' ∧ j = j') then f <$> oget m i' j' else oget m i' j'.
Proof.
  unfold oget. rewrite list_lookup_alter.
  destruct (decide (i = i')) as [->|Hi].
  - destruct (m !! i') as [row|]; simpl.
    + rewrite list_lookup_alter.
      destruct (decide (j = j')) as [->|Hj].
      * by rewrite decide_True.
      * by rewrite decide_False by tauto.
    + by case_decide.
  - by rewrite decide_False by tauto.
Qed.

Lemma as_uint16_S (n : nat) : uint16_incr (as_uint16 n) = as_uint16 (S n).
Proof.
  unfold uint16_incr, as_uint16. rewrite Nat2Z.inj_succ.
  rewrite Zplus_mod_idemp_l. f_equal; lia.
Qed.

Lemma as_uint16_small (n : nat) : (Z.of_nat n < 65536)%Z → as_uint16 n = Z.of_nat n.
Proof. intros Hn. unfold as_uint16. apply Z.mod_small. lia. Qed.

Lemma as_uint16_wraps (n : nat) : (65536 ≤ Z.of_nat n)%Z → as_uint16 n ≠ Z.of_nat n.
Proof.
  intros Hn Heq. unfold as_uint16 in Heq.
  pose proof (Z.mod_pos_bound (Z.of_nat n) 65536 eq_refl). lia.
Qed.

Lemma counted_snoc_hit P `{∀ v, Decision (P v)} vs v :
  P v → uint16_incr (counted P true vs) = counted P true (vs ++ [v]).
Proof.
  intros Hv. unfold counted. rewrite as_uint16_S. f_equal.
  rewrite filter_app, length_app, filter_cons_True by done. simpl. lia.
Qed.

Lemma counted_snoc_miss P `{∀ v, Decision (P v)} b vs v :
  ¬ P v → counted P b (vs ++ [v]) = counted P b vs.
Proof.
  intros Hv. unfold counted. destruct b; [|done]. f_equal.
  rewrite filter_app, length_app, filter_cons_False by done. simpl. lia.
Qed.

(** The state of the three counter arrays after the loop has visited the
    voxels [vs], from arrays of zeros of lengths [nc] and [nn]. *)
Lemma foldl_count_voxel (nc nn : nat) (vs : list (nat * nat)) :
  let '(cc, cn, oc) :=
    foldl count_voxel
      (replicate nc 0%Z, replicate nn 0%Z, replicate nc (replicate nn 0%Z)) vs in
  (∀ i, cc !! i =
        if decide (i < nc)
        then Some (counted (λ v, v.1 = i) (bool_decide (0 < i)) vs) else None)
  ∧ (∀ j, cn !! j =
          if decide (j < nn)
          then Some (counted (λ v, v.2 = j) (bool_decide (0 < j)) vs) else None)
  ∧ (∀ i j, oget oc i j =
            if decide (i < nc ∧ j < nn)
            then Some (counted (λ v, v.1 = i ∧ v.2 = j)
                         (bool_decide (0 < i ∧ 0 < j)) vs)
            else None).
Proof.
  induction vs as [|v vs IH] using rev_ind.
  - simpl. split_and!.
    + intros i. case_decide.
      * rewrite lookup_replicate_2 by done. by destruct (bool_decide _).
      * apply lookup_replicate_None. lia.
    + intros j. case_decide.
      * rewrite lookup_replicate_2 by done. by destruct (bool_decide _).
      * apply lookup_replicate_None. lia.
    + intros i j. unfold oget. case_decide as Hij.
      * rewrite lookup_replicate_2 by tauto. simpl.
        rewrite lookup_replicate_2 by tauto. by destruct (bool_decide _).
      * destruct (decide (i < nc)).
        -- rewrite lookup_replicate_2 by done. simpl.
           apply lookup_replicate_None. lia.
        -- assert (replicate nc (replicate nn 0%Z) !! i = None) as ->
             by (apply lookup_replicate_None; lia).
           done.
  - rewrite foldl_snoc.
    destruct (foldl count_voxel _ vs) as [[cc cn] oc].
    destruct IH as (Hcc & Hcn & Hoc). destruct v as [seg_id n_id].
    unfold count_voxel. simpl. split_and!.
    + intros i. case_decide as Hseg.
      * rewrite list_lookup_alter, !Hcc.
        destruct (decide (seg_id = i)) as [->|Hne].
        -- case_decide; [|done]. simpl. f_equal.
           rewrite !bool_decide_eq_true_2 by done.
           by apply (counted_snoc_hit (λ v, v.1 = i)).
        -- case_decide; [|done]. f_equal. symmetry.
           by apply (counted_snoc_miss (λ v, v.1 = i)).
      * rewrite Hcc. case_decide; [|done]. f_equal.
        destruct (decide (seg_id = i)) as [->|Hne].
        -- by rewrite bool_decide_eq_false_2.
        -- symmetry. by apply (counted_snoc_miss (λ v, v.1 = i)).
    + intros j. case_decide as Hn.
      * rewrite list_lookup_alter, !Hcn.
        destruct (decide (n_id = j)) as [->|Hne].
        -- case_decide; [|done]. simpl. f_equal.
           rewrite !bool_decide_eq_true_2 by done.
           by apply (counted_snoc_hit (λ v, v.2 = j)).
        -- case_decide; [|done]. f_equal. symmetry.
           by apply (counted_snoc_miss (λ v, v.2 = j)).
      * rewrite Hcn. case_decide; [|done]. f_equal.
        destruct (decide (n_id = j)) as [->|Hne].
        -- by rewrite bool_decide_eq_false_2.
        -- symmetry. by apply (counted_snoc_miss (λ v, v.2 = j)).
    + intros i j. case_decide as Hpos.
      * rewrite oget_alter, !Hoc.
        destruct (decide (seg_id = i ∧ n_id = j)) as [[-> ->]|Hne].
        -- case_decide; [|done]. simpl. f_equal.
           rewrite !bool_decide_eq_true_2 by tauto.
           by apply (counted_snoc_hit (λ v, v.1 = i ∧ v.2 = j)).
        -- case_decide; [|done]. f_equal. symmetry.
           by apply (counted_snoc_miss (λ v, v.1 = i ∧ v.2 = j)).
      * rewrite Hoc. case_decide; [|done]. f_equal.
        destruct (decide (seg_id = i ∧ n_id = j)) as [[-> ->]|Hne].
        -- rewrite bool_decide_eq_false_2; [done|]. tauto.
        -- symmetry. by apply (counted_snoc_miss (λ v, v.1 = i ∧ v.2 = j)).
Qed.

Lemma same_shape_length_ravel {A B} (a : vol A) (b : vol B) :
  same_shape a b → length (ravel a) = length (ravel b).
Proof.
  unfold same_shape, ravel. intros Hab.
  assert (Hrows : Forall2 (λ (r : list A) (s : list B), length r = length s)
                    (mjoin a) (mjoin b)).
  { induction Hab as [|pa pb a b Hp _ IH]; simpl; [constructor|].
    by apply Forall2_app. }
  induction Hrows as [|r s l k Hrs _ IH]; simpl; [done|].
  rewrite !length_app. lia.
Qed.

Lemma length_filter_fmap {A B} (f : A → B) (P : B → Prop) (Q : A → Prop)
    `{∀ y, Decision (P y)} `{∀ x, Decision (Q x)} (l : list A) :
  (∀ x, P (f x) ↔ Q x) →
  length (filter P (f <$> l)) = length (filter Q l).
Proof.
  intros HPQ. induction l as [|x l IH]; [done|].
  rewrite fmap_cons, !filter_cons.
  destruct (decide (P (f x))) as [HP|HP], (decide (Q x)) as [HQ|HQ];
    try (by apply HPQ in HP); try (by apply HPQ in HQ).
  - cbn [length]. by f_equal.
  - exact IH.
Qed.

Lemma cell_size_voxel_pairs (cell_seg n_seg : vol nat) (i : nat) :
  same_shape cell_seg n_seg →
  cell_size cell_seg i
    = length (filter (λ v, v.1 = i) (voxel_pairs cell_seg n_seg)).
Proof.
  intros Hshape. unfold cell_size, voxel_pairs.
  transitivity
    (length (filter (λ l, l = i) ((zip (ravel cell_seg) (ravel n_seg)).*1))).
  - rewrite fst_zip; [done|]. by rewrite (same_shape_length_ravel _ _ Hshape).
  - by apply length_filter_fmap.
Qed.

Lemma nucleus_size_voxel_pairs (cell_seg n_seg : vol nat) (j : nat) :
  same_shape cell_seg n_seg →
  nucleus_size n_seg j
    = length (filter (λ v, v.2 = j) (voxel_pairs cell_seg n_seg)).
Proof.
  intros Hshape. unfold nucleus_size, voxel_pairs.
  transitivity
    (length (filter (λ l, l = j) ((zip (ravel cell_seg) (ravel n_seg)).*2))).
  - rewrite snd_zip; [done|]. by rewrite (same_shape_length_ravel _ _ Hshape).
  - by apply length_filter_fmap.
Qed.

(** What [numba_find_overlaps] returns: arrays of [max() + 1] counters, each
    holding its voxel count reduced modulo [2^16], the background aside. *)
Lemma numba_find_overlaps_counts (cell_seg n_seg : vol nat)
    (cell_counts n_counts : list Z) (overlap_counts : list (list Z)) :
  same_shape cell_seg n_seg →
  numba_find_overlaps cell_seg n_seg = Ok (cell_counts, n_counts, overlap_counts) →
  ∃ cmax nmax,
    label_max (ravel cell_seg) = Ok cmax ∧ label_max (ravel n_seg) = Ok nmax
    ∧ length cell_counts = S cmax ∧ length n_counts = S nmax
    ∧ (∀ i, 0 < i ≤ cmax →
         cell_counts !! i = Some (as_uint16 (cell_size cell_seg i)))
    ∧ (∀ j, 0 < j ≤ nmax →
         n_counts !! j = Some (as_uint16 (nucleus_size n_seg j)))
    ∧ (∀ i j, 0 < i ≤ cmax → 0 < j ≤ nmax →
         oget overlap_counts i j
           = Some (as_uint16 (overlap_size cell_seg n_seg i j)))
    ∧ cell_counts !! 0 = Some 0%Z ∧ n_counts !! 0 = Some 0%Z
    ∧ (∀ i j, i ≤ cmax → j ≤ nmax → i = 0 ∨ j = 0 →
         oget overlap_counts i j = Some 0%Z).
Proof.
  intros Hshape. unfold numba_find_overlaps.
  destruct (label_max (ravel cell_seg)) as [cmax|] eqn:Hcmax; simpl; [|done].
  destruct (label_max (ravel n_seg)) as [nmax|] eqn:Hnmax; simpl; [|done].
  pose proof (foldl_count_voxel (cmax + 1) (nmax + 1)
                (voxel_pairs cell_seg n_seg)) as Hfold.
  destruct (foldl count_voxel _ _) as [[cc cn] oc].
  destruct Hfold as (Hcc & Hcn & Hoc). intros [= -> -> ->].
  exists cmax, nmax. split_and!; try done.
  - apply Nat.le_antisymm.
    + apply Nat.nlt_ge. intros Hlt.
      apply lookup_lt_is_Some_2 in Hlt as [x Hx].
      rewrite Hcc, decide_False in Hx by lia. done.
    + apply lookup_lt_is_Some_1. rewrite Hcc, decide_True by lia. done.
  - apply Nat.le_antisymm.
    + apply Nat.nlt_ge. intros Hlt.
      apply lookup_lt_is_Some_2 in Hlt as [x Hx].
      rewrite Hcn, decide_False in Hx by lia. done.
    + apply lookup_lt_is_Some_1. rewrite Hcn, decide_True by lia. done.
  - intros i Hi. rewrite Hcc, decide_True by lia.
    rewrite bool_decide_eq_true_2 by lia. unfold counted.
    by rewrite (cell_size_voxel_pairs _ _ _ Hshape).
  - intros j Hj. rewrite Hcn, decide_True by lia.
    rewrite bool_decide_eq_true_2 by lia. unfold counted.
    by rewrite (nucleus_size_voxel_pairs _ _ _ Hshape).
  - intros i j Hi Hj. rewrite Hoc, decide_True by lia.
    rewrite bool_decide_eq_true_2 by lia. done.
  - rewrite Hcc, decide_True by lia. done.
  - rewrite Hcn, decide_True by lia. done.
  - intros i j Hi Hj Hzero. rewrite Hoc, decide_True by lia.
    rewrite bool_decide_eq_false_2 by lia. done.
Qed.

(** ** [numba_find_overlaps] under [prange] *)

Lemma prange_next_step (m m' : prange_state) (t : nat) :
  prange_next m t = Some m' → prange_step m m'.
Proof.
  destruct m as [s ts]. unfold prange_next. simpl.
  destruct (ts !! t) as [[[[c x]|] rest]|] eqn:Ht; [| |done].
  - intros [= <-]. by eapply step_store.
  - destruct rest as [|c rest]; [done|]. intros [= <-]. by eapply step_load.
Qed.

Lemma prange_schedule_rtc (schedule : list nat) (m m' : prange_state) :
  prange_schedule schedule m = Some m' → rtc prange_step m m'.
Proof.
  revert m. induction schedule as [|t schedule IH]; intros m; simpl.
  - intros [= ->]. apply rtc_refl.
  - destruct (prange_next m t) as [m1|] eqn:Hnext; [|done].
    intros Hrest. eapply rtc_l; [by eapply prange_next_step|by apply IH].
Qed.

(** A schedule that ends with every thread through its plane is a run. *)
Lemma numba_find_overlaps_run_schedule (cell_seg n_seg : vol nat)
    (cmax nmax : nat) (schedule : list nat) (s : statistics)
    (ts : list thread) :
  label_max (ravel cell_seg) = Ok cmax →
  label_max (ravel n_seg) = Ok nmax →
  prange_schedule schedule (prange_start cell_seg n_seg cmax nmax)
    = Some (s, ts) →
  finished ts →
  numba_find_overlaps_run cell_seg n_seg (Ok s).
Proof.
  intros Hc Hn Hsched Hfin. unfold numba_find_overlaps_run.
  rewrite Hc, Hn. exists s, ts. split; [done|].
  split; [by eapply prange_schedule_rtc|done].
Qed.

(** *** The loop body as three increments *)

Lemma insert_incr_alter (l : list Z) (i : nat) :
  <[i := uint16_incr (default 0%Z (l !! i))]> l = alter uint16_incr i l.
Proof.
  destruct (l !! i) as [x|] eqn:Hi; simpl.
  - apply list_eq. intros k. rewrite list_lookup_alter.
    destruct (decide (i = k)) as [<-|Hne].
    + rewrite list_lookup_insert_eq, Hi; [done|]. by eapply lookup_lt_Some.
    + by rewrite list_lookup_insert_ne.
  - apply lookup_ge_None in Hi.
    rewrite list_insert_ge by done. symmetry. apply list_eq. intros k.
    rewrite list_lookup_alter. destruct (decide (i = k)) as [<-|Hne]; [|done].
    rewrite (proj2 (lookup_ge_None l i)); done.
Qed.

Lemma count_voxel_increments (acc : statistics) (v : nat * nat) :
  count_voxel acc v = foldl increment acc (voxel_increments v).
Proof.
  destruct acc as [[cc cn] oc], v as [seg_id n_id].
  unfold count_voxel, voxel_increments. cbn [fst snd].
  assert (Hrow : alter (alter uint16_incr n_id) seg_id oc
                 = alter (λ row : list Z,
                            <[n_id := uint16_incr
                                        (default 0%Z (oget oc seg_id n_id))]> row)
                     seg_id oc).
  { apply list_eq. intros k. rewrite !list_lookup_alter.
    destruct (decide (seg_id = k)) as [<-|Hne]; [|done].
    unfold oget. destruct (oc !! seg_id) as [row|]; simpl; [|done].
    by rewrite insert_incr_alter. }
  repeat case_decide; simpl; unfold increment, store_counter, load_counter;
    cbn [fst snd]; rewrite ?insert_incr_alter, ?Hrow; try done; tauto.
Qed.

Lemma foldl_count_voxel_increments (acc : statistics)
    (vs : list (nat * nat)) :
  foldl count_voxel acc vs = foldl increment acc (vs ≫= voxel_increments).
Proof.
  revert acc. induction vs as [|v vs IH]; intros acc; [done|].
  rewrite bind_cons, foldl_app. simpl.
  by rewrite IH, count_voxel_increments.
Qed.

(** *** One plane: a thread on its own *)

Lemma single_thread_step (s : statistics) (t : thread) (m : prange_state) :
  prange_step (s, [t]) m →
  ∃ s' t', m = (s', [t']) ∧ thread_result s' t' = thread_result s t.
Proof.
  inversion 1 as [s0 ts i c rest Hi|s0 ts i c x rest Hi]; subst.
  - destruct i as [|i]; [|done]. injection Hi as ->.
    eexists _, _. split; [done|]. done.
  - destruct i as [|i]; [|done]. injection Hi as ->.
    eexists _, _. split; [done|]. done.
Qed.

Lemma single_thread_run (m m' : prange_state) :
  rtc prange_step m m' →
  ∀ s t, m = (s, [t]) →
  ∃ s' t', m' = (s', [t']) ∧ thread_result s' t' = thread_result s t.
Proof.
  induction 1 as [m|m m1 m' Hstep _ IH]; intros s t ->.
  - by eexists _, _.
  - apply single_thread_step in Hstep as (s1 & t1 & -> & Heq).
    destruct (IH s1 t1 eq_refl) as (s' & t' & -> & Heq').
    eexists _, _. split; [done|]. by rewrite Heq'.
Qed.

Lemma voxel_pairs_single_plane (cell_plane n_plane : list (list nat)) :
  voxel_pairs [cell_plane] [n_plane] = zip (mjoin cell_plane) (mjoin n_plane).
Proof. unfold voxel_pairs, ravel. simpl. by rewrite !app_nil_r. Qed.

(** With one plane there is one thread, and the loop has one result: that
    of [numba_find_overlaps]. *)
Lemma numba_find_overlaps_run_single_plane (cell_seg n_seg : vol nat)
    (r : result statistics) :
  length cell_seg ≤ 1 →
  same_shape cell_seg n_seg →
  numba_find_overlaps_run cell_seg n_seg r →
  r = numba_find_overlaps cell_seg n_seg.
Proof.
  intros Hlen Hshape. unfold numba_find_overlaps_run, numba_find_overlaps.
  destruct (label_max (ravel cell_seg)) as [cmax|e] eqn:Hc; cbn [bind];
    [|done].
  destruct (label_max (ravel n_seg)) as [nmax|e] eqn:Hn; cbn [bind]; [|done].
  intros (s & ts & -> & Hrun & Hfin). f_equal.
  destruct cell_seg as [|cell_plane [|? ?]]; [done| |simpl in Hlen; lia].
  destruct n_seg as [|n_plane [|? ?]];
    [by apply Forall2_length in Hshape| |by apply Forall2_length in Hshape].
  unfold prange_start in Hrun. cbn [zip_with] in Hrun.
  destruct (single_thread_run _ _ Hrun _ _ eq_refl) as (s' & t' & [= <- ->] & Heq).
  apply Forall_cons in Hfin as [-> _].
  rewrite voxel_pairs_single_plane, foldl_count_voxel_increments.
  unfold thread_result in Heq. simpl in Heq. done.
Qed.

(** *** Every run: no counter exceeds its number of increments *)













Lemma same_shape_plane_lengths {A B} (a : list (list A)) (b : list (list B)) :
  Forall2 (λ r s, length r = length s) a b →
  length (mjoin a) = length (mjoin b).
Proof.
  induction 1 as [|r s a b Hrs _ IH]; [done|]. simpl.
  rewrite !length_app. lia.
Qed.

Lemma voxel_pairs_planes (cell_seg n_seg : vol nat) :
  same_shape cell_seg n_seg →
  voxel_pairs cell_seg n_seg
  = mjoin (zip_with (λ cell_plane n_plane,
                       zip (mjoin cell_plane) (mjoin n_plane))
             cell_seg n_seg).
Proof.
  unfold same_shape, voxel_pairs, ravel.
  induction 1 as [|cp np c n Hp _ IH]; [done|].
  change (zip (mjoin (cp ++ mjoin c)) (mjoin (np ++ mjoin n))
          = zip (mjoin cp) (mjoin np)
            ++ mjoin (zip_with (λ cell_plane n_plane : list (list nat),
                                  zip (mjoin cell_plane) (mjoin n_plane)) c n)).
  rewrite <-IH, !join_app. apply (zip_with_app pair).
  by apply same_shape_plane_lengths.
Qed.








(** *** The planes one after the other *)

Lemma thread_runs (incs : list counter) (s : statistics) (ts : list thread)
    (t : nat) :
  ts !! t = Some (Thread None incs) →
  rtc prange_step (s, ts)
    (foldl increment s incs, <[t := Thread None []]> ts).
Proof.
  revert s ts. induction incs as [|c rest IH]; intros s ts Ht.
  - rewrite list_insert_id by done. apply rtc_refl.
  - pose proof (lookup_lt_Some _ _ _ Ht) as Hlt.
    eapply rtc_l; [by apply (step_load s ts t c rest)|].
    eapply rtc_l.
    { eapply (step_store s _ t c (load_counter s c) rest).
      by apply list_lookup_insert_eq. }
    rewrite list_insert_insert_eq.
    specialize (IH (increment s c) (<[t := Thread None rest]> ts)).
    rewrite list_insert_insert_eq in IH. apply IH.
    by apply list_lookup_insert_eq.
Qed.

Lemma threads_run (ts pre : list thread) (s : statistics) :
  Forall (λ t, loaded t = None) ts →
  rtc prange_step (s, pre ++ ts)
    (foldl increment s (ts ≫= todo),
     pre ++ replicate (length ts) (Thread None [])).
Proof.
  intros Hts. revert pre s.
  induction Hts as [|[l incs] ts Hl _ IH]; intros pre s.
  - apply rtc_refl.
  - simpl in Hl. subst l. rewrite bind_cons, foldl_app.
    eapply rtc_trans.
    + apply (thread_runs incs s _ (length pre)).
      by rewrite lookup_app_r, Nat.sub_diag.
    + rewrite insert_app_r_alt, Nat.sub_diag by done. simpl.
      rewrite (cons_middle _ pre ts), (cons_middle _ pre (replicate _ _)).
      rewrite !app_assoc. apply IH.
Qed.

Lemma start_increments (cell_seg n_seg : vol nat) (cmax nmax : nat) :
  same_shape cell_seg n_seg →
  (prange_start cell_seg n_seg cmax nmax).2 ≫= todo
  = voxel_pairs cell_seg n_seg ≫= voxel_increments.
Proof.
  intros Hshape. rewrite (voxel_pairs_planes _ _ Hshape).
  unfold prange_start. cbn [snd]. clear Hshape.
  revert n_seg. induction cell_seg as [|cp c IH]; intros [|np n]; try done.
  cbn [zip_with]. rewrite bind_cons. cbn [todo]. rewrite IH.
  change (mjoin (?x :: ?l)) with (x ++ mjoin l). by rewrite bind_app.
Qed.

(** [numba_find_overlaps], the loop without its threads, is one of the
    runs of the loop under [prange]. *)
Lemma numba_find_overlaps_sequential_run (cell_seg n_seg : vol nat) :
  same_shape cell_seg n_seg →
  numba_find_overlaps_run cell_seg n_seg (numba_find_overlaps cell_seg n_seg).
Proof.
  intros Hshape. unfold numba_find_overlaps_run, numba_find_overlaps.
  destruct (label_max (ravel cell_seg)) as [cmax|e]; cbn [bind]; [|done].
  destruct (label_max (ravel n_seg)) as [nmax|e]; cbn [bind]; [|done].
  eexists _, _. split; [done|].
  rewrite foldl_count_voxel_increments, <-(start_increments _ _ cmax nmax)
    by done.
  split.
  - apply (threads_run _ [] _).
    unfold prange_start. cbn [snd]. apply Forall_forall. intros t Ht.
    apply list_elem_of_lookup in Ht as [i Hi].
    apply lookup_zip_with_Some in Hi as (cp & np & -> & _). done.
  - simpl. by apply Forall_replicate.
Qed.





(** ** The analysis passes *)

Lemma foldl_records {R} (f : nat → R) (keep : R → bool)
    (acc : list (nat * R)) (l : list nat) :
  foldl (λ acc idx, if keep (f idx) then acc ++ [(idx, f idx)] else acc) acc l
  = acc ++ (l ≫= λ idx, if keep (f idx) then [(idx, f idx)] else []).
Proof.
  revert acc. induction l as [|idx l IH]; intros acc; simpl.
  - by rewrite app_nil_r.
  - rewrite IH. destruct (keep (f idx)); simpl; [|done].
    by rewrite <-app_assoc.
Qed.

Lemma elem_of_records {R} (f : nat → R) (keep : R → bool) (l : list nat)
    (n : nat) (r : R) :
  (n, r) ∈ foldl (λ acc idx, if keep (f idx) then acc ++ [(idx, f idx)] else acc)
             [] l
  ↔ n ∈ l ∧ r = f n ∧ keep r = true.
Proof.
  rewrite foldl_records. simpl. rewrite list_elem_of_bind. split.
  - intros (idx & Hin & Hidx). destruct (keep (f idx)) eqn:Hkeep.
    + apply list_elem_of_singleton in Hin as [= -> ->]. done.
    + by apply not_elem_of_nil in Hin.
  - intros (Hn & -> & Hkeep). exists n. rewrite Hkeep.
    split; [by apply list_elem_of_singleton|done].
Qed.

Lemma elem_of_find_potential_over_seg nuclei_counts intersection_counts
    threshold (n : nat) (r : OverSeg) :
  (n, r) ∈ find_potential_over_seg nuclei_counts intersection_counts threshold
  ↔ n < length nuclei_counts
    ∧ r = over_seg_profile nuclei_counts intersection_counts threshold n
    ∧ is_over_seg r = true.
Proof.
  unfold find_potential_over_seg.
  rewrite (elem_of_records
             (over_seg_profile nuclei_counts intersection_counts threshold)
             is_over_seg).
  rewrite elem_of_seq. intuition lia.
Qed.

Lemma elem_of_find_potential_under_seg nuclei_counts cell_counts
    intersection_counts threshold quantiles_clip mask result
    (n : nat) (r : UnderSeg) :
  get_quantile_mask nuclei_counts quantiles_clip = Ok mask →
  find_potential_under_seg nuclei_counts cell_counts intersection_counts
    threshold quantiles_clip = Ok result →
  (n, r) ∈ result
  ↔ n < length cell_counts
    ∧ r = under_seg_profile nuclei_counts intersection_counts threshold mask n
    ∧ is_under_seg r = true.
Proof.
  intros Hmask. unfold find_potential_under_seg. rewrite Hmask. simpl.
  intros [= <-].
  rewrite (elem_of_records
             (under_seg_profile nuclei_counts intersection_counts threshold mask)
             is_under_seg).
  rewrite elem_of_seq. intuition lia.
Qed.

Lemma nonzero1_spec (a : list Z) (i : nat) :
  i ∈ nonzero1 a ↔ ∃ x, a !! i = Some x ∧ x ≠ 0%Z.
Proof.
  unfold nonzero1. rewrite list_elem_of_bind. split.
  - intros ([k x] & Hin & Hk). simpl in Hin.
    apply elem_of_lookup_imap in Hk as (k' & y & [= -> ->] & Hy).
    case_decide as Hx.
    + by apply not_elem_of_nil in Hin.
    + apply list_elem_of_singleton in Hin as ->. eauto.
  - intros (x & Hi & Hx). exists (i, x). simpl.
    rewrite decide_False by done. split; [by apply list_elem_of_singleton|].
    apply elem_of_lookup_imap. eauto.
Qed.

Lemma nonzero1_zeros (a : list Z) : Forall (λ x, x = 0%Z) a → nonzero1 a = [].
Proof.
  intros Hzero. destruct (nonzero1 a) as [|i l] eqn:Hnz; [done|]. exfalso.
  assert (Hi : i ∈ nonzero1 a) by (rewrite Hnz; by left).
  apply nonzero1_spec in Hi as (x & Hx & Hne).
  rewrite Forall_lookup in Hzero. by apply Hzero in Hx.
Qed.

(** The ids a profile divides by and the ids it lets qualify are among the
    ids with a non-zero overlap. *)
Lemma qualifying_subset (ids : list nat) (rs : list fval) (keep : nat * fval → bool)
    (n : nat) :
  n ∈ (zip ids rs ≫= λ e, if keep e then [e.1] else []) → n ∈ ids.
Proof.
  rewrite list_elem_of_bind. intros ([k r] & Hin & Hk).
  destruct (keep (k, r)); simpl in Hin.
  - apply list_elem_of_singleton in Hin as ->.
    apply list_elem_of_lookup in Hk as [i Hi].
    apply lookup_zip_with_Some in Hi as (x & y & [= -> ->] & Hx & _).
    by eapply list_elem_of_lookup_2.
  - by apply not_elem_of_nil in Hin.
Qed.

(** C4, as the code decides it.  With nuclei counts [0, 100, 100], the
    overlap row [0, 90, 10] for cell 1, threshold 0.5 and quantile bounds
    (0, 1): the ratio of nucleus 1 is 0.9 and exceeds the threshold, that of
    nucleus 2 is 0.1 and does not; the keep-mask is strict on both sides, and
    the count 100 of nucleus 1 equals the upper quantile, so the mask is
    false for it and no nucleus qualifies; [is_under_seg] is false for
    cell 1, which gets no record. *)
Theorem scenario_under_seg (cell_counts : list Z)
    (intersection_counts : list (list Z)) :
  intersection_counts !! 1 = Some [0; 90; 10]%Z →
  get_quantile_mask scenario_nuclei_counts (0, 1)%Q = Ok [false; false; false]
  ∧ (let r := under_seg_profile scenario_nuclei_counts intersection_counts
                (1 # 2) [false; false; false] 1 in
     n_idx r = [1; 2]
     ∧ r_intersection_u r = [Fin (90 # 100); Fin (10 # 100)]
     ∧ fval_gtb (Fin (90 # 100)) (Fin (1 # 2)) = true
     ∧ fval_gtb (Fin (10 # 100)) (Fin (1 # 2)) = false
     ∧ under_seg_idx r = []
     ∧ is_under_seg r = false)
  ∧ ∃ result,
      find_potential_under_seg scenario_nuclei_counts cell_counts
        intersection_counts (1 # 2) (0, 1)%Q = Ok result
      ∧ 1 ∉ result.*1.
Proof.
  intros Hrow.
  assert (Hmask : get_quantile_mask scenario_nuclei_counts (0, 1)%Q
                  = Ok [false; false; false]) by (vm_compute; reflexivity).
  assert (Hprofile :
            under_seg_profile scenario_nuclei_counts intersection_counts
              (1 # 2) [false; false; false] 1
            = {| n_idx := [1; 2]; under_seg_idx := []; is_under_seg := false;
                 r_intersection_u := [Fin (90 # 100); Fin (10 # 100)] |}).
  { unfold under_seg_profile, entry.
    rewrite (list_lookup_total_correct _ _ _ Hrow). vm_compute. reflexivity. }
  split; [done|]. split.
  - rewrite Hprofile. simpl. split_and!; try done; vm_compute; reflexivity.
  - unfold find_potential_under_seg at 1. rewrite Hmask. cbn [bind].
    eexists. split; [done|]. intros Hin.
    apply list_elem_of_fmap in Hin as ([n r] & Hn & Hin). simpl in Hn. subst n.
    apply (elem_of_records
             (under_seg_profile scenario_nuclei_counts intersection_counts
                (1 # 2) [false; false; false]) is_under_seg)
      in Hin as (_ & -> & Hkeep).
    by rewrite Hprofile in Hkeep.
Qed.

Lemma scenario_under_seg_witness :
  find_potential_under_seg scenario_nuclei_counts scenario_cell_counts
    scenario_intersection_counts (1 # 2) (0, 1)%Q = Ok []
  ∧ under_seg_idx
      (under_seg_profile scenario_nuclei_counts scenario_intersection_counts
         (1 # 2) [false; false; false] 1) = [].
Proof.
  destruct (scenario_under_seg scenario_cell_counts
              scenario_intersection_counts eq_refl)
    as (_ & (_ & _ & _ & _ & Hnone & _) & _).
  split; [vm_compute; reflexivity|exact Hnone].
Defined.

(** C4, against the claim: nucleus 1 is not judged qualifying. *)
Lemma scenario_nucleus_1_not_qualifying :
  ∃ mask,
    get_quantile_mask scenario_nuclei_counts (0, 1)%Q = Ok mask
    ∧ mask !! 1 = Some false
    ∧ 1 ∉ under_seg_idx
            (under_seg_profile scenario_nuclei_counts
               scenario_intersection_counts (1 # 2) mask 1).
Proof.
  exists [false; false; false]. split_and!.
  - vm_compute. reflexivity.
  - reflexivity.
  - vm_compute. apply not_elem_of_nil.
Qed.

Lemma sum_nonneg_zero (a : list Z) :
  Forall (λ x, 0 ≤ x)%Z a → (sum_list_Z a ≤ 0)%Z → Forall (λ x, x = 0%Z) a.
Proof.
  induction 1 as [|x a Hx Ha IH]; simpl; intros Hsum; [constructor|].
  assert (0 ≤ sum_list_Z a)%Z.
  { clear -Ha. induction Ha; simpl; [done|]. unfold sum_list_Z in *. lia. }
  constructor; [lia|]. apply IH. lia.
Qed.

Lemma column_zero_row (intersection_counts : list (list Z)) (idx n : nat) :
  Forall (λ x, x = 0%Z) (column intersection_counts n) →
  n ∉ nonzero1 (intersection_counts !!! idx).
Proof.
  intros Hcol Hn. apply nonzero1_spec in Hn as (x & Hx & Hne).
  destruct (intersection_counts !! idx) as [row|] eqn:Hrow.
  - rewrite (list_lookup_total_correct _ _ _ Hrow) in Hx.
    rewrite Forall_lookup in Hcol. apply Hne, (Hcol idx x).
    unfold column. rewrite list_lookup_fmap, Hrow. simpl.
    by rewrite (list_lookup_total_correct _ _ _ Hx).
  - rewrite list_lookup_total_alt, Hrow in Hx. done.
Qed.

(** C6, as the code behaves.  Neither pass tests a count against zero.  An
    id of count zero is passed over when the statistics respect the overlap
    invariant: its overlaps are then all zero, so it is not among the ids
    of non-zero overlap, which are the only ones a ratio is computed for.
    In the over-segmentation pass the nucleus has no ratio and no record;
    in the under-segmentation pass the nucleus is in no cell's list of
    overlapping or qualifying nuclei, and a cell of count zero has no ratio
    and no record. *)
Theorem zero_count_passed_over (nuclei_counts cell_counts : list Z)
    (intersection_counts : list (list Z)) (threshold : Q) :
  (∀ n, nucleus_consistent nuclei_counts intersection_counts n →
        nuclei_counts !!! n = 0%Z →
        c_idx (over_seg_profile nuclei_counts intersection_counts threshold n)
          = []
        ∧ r_intersection_o
            (over_seg_profile nuclei_counts intersection_counts threshold n)
          = []
        ∧ (n ∉ (find_potential_over_seg nuclei_counts intersection_counts
                  threshold).*1)
        ∧ ∀ mask idx,
            (n ∉ n_idx (under_seg_profile nuclei_counts intersection_counts
                          threshold mask idx))
            ∧ n ∉ under_seg_idx
                    (under_seg_profile nuclei_counts intersection_counts
                       threshold mask idx))
  ∧ (∀ i quantiles_clip result,
       cell_consistent cell_counts intersection_counts i →
       cell_counts !!! i = 0%Z →
       find_potential_under_seg nuclei_counts cell_counts intersection_counts
         threshold quantiles_clip = Ok result →
       (∀ mask,
          n_idx (under_seg_profile nuclei_counts intersection_counts
                   threshold mask i) = []
          ∧ r_intersection_u
              (under_seg_profile nuclei_counts intersection_counts
                 threshold mask i) = [])
       ∧ i ∉ result.*1).
Proof.
  split.
  - intros n [Hnonneg Hsum] Hzero. rewrite Hzero in Hsum.
    pose proof (sum_nonneg_zero _ Hnonneg Hsum) as Hcol.
    assert (Hprofile :
              over_seg_profile nuclei_counts intersection_counts threshold n
              = {| c_idx := []; over_seg_idx := []; is_over_seg := false;
                   r_intersection_o := [] |}).
    { unfold over_seg_profile. by rewrite (nonzero1_zeros _ Hcol). }
    rewrite Hprofile. split_and!; try done.
    + intros Hin. apply list_elem_of_fmap in Hin as ([k r] & Hk & Hin).
      simpl in Hk. subst k.
      apply elem_of_find_potential_over_seg in Hin as (_ & -> & Hover).
      by rewrite Hprofile in Hover.
    + intros mask idx.
      pose proof (column_zero_row _ idx n Hcol) as Hnot.
      split; [done|]. intros Hin. by apply qualifying_subset in Hin.
  - intros i quantiles_clip result [Hnonneg Hsum] Hzero Hrun.
    rewrite Hzero in Hsum.
    pose proof (sum_nonneg_zero _ Hnonneg Hsum) as Hrow.
    assert (Hprofile : ∀ mask,
              under_seg_profile nuclei_counts intersection_counts threshold
                mask i
              = {| n_idx := []; under_seg_idx := []; is_under_seg := false;
                   r_intersection_u := [] |}).
    { intros mask. unfold under_seg_profile.
      by rewrite (nonzero1_zeros _ Hrow). }
    split; [intros mask; by rewrite Hprofile|].
    intros Hin. apply list_elem_of_fmap in Hin as ([k r] & Hk & Hin).
    simpl in Hk. subst k.
    destruct (get_quantile_mask nuclei_counts quantiles_clip) as [mask|e]
      eqn:Hmask.
    + pose proof (proj1 (elem_of_find_potential_under_seg _ _ _ _ _ _ _ _ _
                           Hmask Hrun) Hin) as (_ & -> & Hunder).
      by rewrite Hprofile in Hunder.
    + unfold find_potential_under_seg in Hrun. by rewrite Hmask in Hrun.
Qed.

Lemma zero_count_passed_over_witness :
  (1 ∉ (find_potential_over_seg absent_nuclei_counts
          absent_intersection_counts (3 # 10)).*1)
  ∧ 2 ∉ (default []
           (match find_potential_under_seg absent_nuclei_counts
                    absent_cell_counts absent_intersection_counts (1 # 2)
                    (0, 1)%Q with
            | Ok result => Some result
            | Raise _ => None
            end)).*1.
Proof.
  pose proof (zero_count_passed_over absent_nuclei_counts absent_cell_counts
                absent_intersection_counts (3 # 10)) as [Hnuclei _].
  pose proof (zero_count_passed_over absent_nuclei_counts absent_cell_counts
                absent_intersection_counts (1 # 2)) as [_ Hcells].
  split.
  - apply (Hnuclei 1); [by_compute|reflexivity].
  - assert (Hrun : find_potential_under_seg absent_nuclei_counts
                     absent_cell_counts absent_intersection_counts (1 # 2)
                     (0, 1)%Q = Ok []) by (vm_compute; reflexivity).
    rewrite Hrun. simpl.
    apply (Hcells 2 (0, 1)%Q [] ltac:(by_compute) eq_refl Hrun).
Defined.

(** C6, against the claim: on statistics in which nucleus 1 has count zero
    and overlaps cells 1 and 2, the over-segmentation pass divides both
    overlaps by zero, compares the two resulting [inf] with the threshold
    and emits a record that declares the nucleus over-segmented; the
    under-segmentation pass divides the overlap of cell 1 by the same
    zero. *)
Lemma zero_count_divided_by :
  vacated_nuclei_counts !! 1 = Some 0%Z
  ∧ find_potential_over_seg vacated_nuclei_counts vacated_intersection_counts
      (3 # 10)
    = [ (1, {| c_idx := [1; 2]; over_seg_idx := [1; 2]; is_over_seg := true;
               r_intersection_o := [PosInf; PosInf] |}) ]
  ∧ r_intersection_u
      (under_seg_profile vacated_nuclei_counts vacated_intersection_counts
         (1 # 2) [false; false] 1)
    = [PosInf].
Proof. split_and!; vm_compute; reflexivity. Qed.

(** The same happens on statistics measured on volumes, when the counter
    of the nucleus wraps to zero. *)
Lemma wrapped_nucleus_divided_by :
  ∃ cell_counts nuclei_counts overlap_counts,
    numba_find_overlaps two_half_cells big_nucleus
      = Ok (cell_counts, nuclei_counts, overlap_counts)
    ∧ nuclei_counts = [0; 0]%Z
    ∧ overlap_counts = [ [0; 0]; [0; 32768]; [0; 32768] ]%Z
    ∧ r_intersection_o (over_seg_profile nuclei_counts overlap_counts (9 # 10) 1)
      = [PosInf; PosInf]
    ∧ over_seg_idx (over_seg_profile nuclei_counts overlap_counts (9 # 10) 1)
      = [1; 2].
Proof.
  eexists _, _, _. split_and!; [vm_compute; reflexivity|..];
    try reflexivity; vm_compute; reflexivity.
Qed.

(** ** The merge pass *)

Lemma vmap_ext {A B} (f g : A → B) (v : vol A) :
  (∀ x, f x = g x) → vmap f v = vmap g v.
Proof.
  intros Hfg. unfold vmap.
  apply list_fmap_ext; intros _ plane _.
  apply list_fmap_ext; intros _ row _.
  apply list_fmap_ext; intros _ x _. apply Hfg.
Qed.

Lemma same_shape_vmap {A B C} (f : A → B) (g : A → C) (v : vol A) :
  same_shape (vmap f v) (vmap g v).
Proof.
  unfold same_shape, vmap.
  induction v as [|plane v IH]; simpl; constructor; [|exact IH].
  induction plane as [|row plane IHp]; simpl; constructor; [|exact IHp].
  by rewrite !length_fmap.
Qed.

Lemma vzip_with_vmap {A B C D} (h : B → C → D) (f : A → B) (g : A → C)
    (v : vol A) :
  vzip_with h (vmap f v) (vmap g v) = vmap (λ x, h (f x) (g x)) v.
Proof.
  unfold vzip_with, vmap.
  rewrite zip_with_fmap_l, zip_with_fmap_r, zip_with_diag.
  apply list_fmap_ext; intros _ plane _.
  rewrite zip_with_fmap_l, zip_with_fmap_r, zip_with_diag.
  apply list_fmap_ext; intros _ row _.
  by rewrite zip_with_fmap_l, zip_with_fmap_r, zip_with_diag.
Qed.

Lemma elem_of_ravel_vmap {A B} (f : A → B) (v : vol A) (y : B) :
  y ∈ ravel (vmap f v) ↔ ∃ x, x ∈ ravel v ∧ y = f x.
Proof.
  rewrite elem_of_ravel. split.
  - intros (p & Hp). rewrite vget_vmap in Hp.
    destruct (vget v p) as [x|] eqn:Hx; simpl in Hp; [|done].
    exists x. split; [apply elem_of_ravel; eauto|congruence].
  - intros (x & Hx & ->). apply elem_of_ravel in Hx as (p & Hp).
    exists p. by rewrite vget_vmap, Hp.
Qed.

(** One assignment [_segmentation[segmentation == c_idx] = new_value], on an
    array whose entries are a function of those of [segmentation]. *)
Lemma setitem_mask_vmap (segmentation : vol nat) (g : nat → nat)
    (c_idx new_value : nat) :
  setitem_mask (vmap g segmentation) (np_eq segmentation c_idx) new_value
  = Ok (vmap (λ l, if bool_decide (l = c_idx) then new_value else g l)
          segmentation).
Proof.
  unfold setitem_mask, np_eq. rewrite decide_True by apply same_shape_vmap.
  f_equal.
  apply (vzip_with_vmap (λ (m : bool) x, if m then new_value else x)).
Qed.

Lemma foldM_setitem_mask (segmentation : vol nat) (new_value : nat)
    (ids : list nat) (g : nat → nat) :
  foldM (λ _segmentation c_idx,
           setitem_mask _segmentation (np_eq segmentation c_idx) new_value)
        (vmap g segmentation) ids
  = Ok (vmap (λ l, if bool_decide (l ∈ ids) then new_value else g l)
          segmentation).
Proof.
  revert g. induction ids as [|c ids IH]; intros g; cbn [foldM].
  - reflexivity.
  - rewrite setitem_mask_vmap. cbn [bind]. rewrite IH. f_equal.
    apply vmap_ext. intros l.
    destruct (decide (l ∈ ids)) as [Hin|Hnin].
    + rewrite !bool_decide_eq_true_2; [done|by right|done].
    + rewrite (bool_decide_eq_false_2 (l ∈ ids)) by done.
      destruct (decide (l = c)) as [->|Hne].
      * rewrite !bool_decide_eq_true_2; [done|by left|done].
      * rewrite !bool_decide_eq_false_2; [done| |done].
        intros Hc. apply elem_of_cons in Hc. tauto.
Qed.

(** The merge pass relabels every voxel by a function of its pre-merge
    label alone. *)
Lemma fix_over_segmentation_merged_label (segmentation : vol nat)
    (nuclei_assignments : list (nat * OverSeg))
    (nuclei_idx : option (list nat)) :
  Forall (λ e, selected nuclei_idx e.1 = true → over_seg_idx e.2 ≠ [])
    nuclei_assignments →
  fix_over_segmentation segmentation nuclei_assignments nuclei_idx
  = Ok (vmap (merged_label nuclei_assignments nuclei_idx) segmentation).
Proof.
  intros Hne. unfold fix_over_segmentation, merged_label.
  assert (Hgen : ∀ g : nat → nat,
    foldM (λ _segmentation (e : nat * OverSeg),
             if selected nuclei_idx e.1 then
               new_value <- first_item (over_seg_idx e.2);;
               foldM (λ _segmentation c_idx,
                        setitem_mask _segmentation (np_eq segmentation c_idx)
                          new_value)
                     _segmentation (over_seg_idx e.2)
             else Ok _segmentation)
          (vmap g segmentation) nuclei_assignments
    = Ok (vmap (λ l, foldl (merge_label nuclei_idx l) (g l) nuclei_assignments)
            segmentation)).
  { induction Hne as [|e recs He _ IH]; intros g; cbn [foldM foldl]; [done|].
    destruct (selected nuclei_idx e.1) eqn:Hsel.
    - destruct (over_seg_idx e.2) as [|new_value ids] eqn:Hids;
        [by destruct He|]. cbn [first_item bind].
      rewrite (foldM_setitem_mask segmentation new_value (new_value :: ids) g).
      cbn [bind]. rewrite IH. f_equal. apply vmap_ext. intros l. f_equal.
      unfold merge_label. by rewrite Hsel, Hids.
    - cbn [bind]. rewrite IH. f_equal. apply vmap_ext. intros l. f_equal.
      unfold merge_label. by rewrite Hsel. }
  rewrite <-(Hgen (λ l, l)). f_equal.
  unfold vmap. rewrite <-(list_fmap_id segmentation) at 1.
  apply list_fmap_ext; intros _ plane _. simpl.
  rewrite <-(list_fmap_id plane) at 1.
  apply list_fmap_ext; intros _ row _. simpl.
  by rewrite list_fmap_id.
Qed.

Lemma foldl_merge_label_none (nuclei_idx : option (list nat))
    (recs : list (nat * OverSeg)) (l cur : nat) :
  Forall (λ e, ¬ merges nuclei_idx l e) recs →
  foldl (merge_label nuclei_idx l) cur recs = cur.
Proof.
  induction 1 as [|e recs He _ IH]; simpl; [done|].
  rewrite <-IH at 2. f_equal. unfold merge_label, merges in *.
  destruct (selected nuclei_idx e.1); [|done].
  destruct (over_seg_idx e.2) as [|new_value ids]; [done|].
  rewrite bool_decide_eq_false_2; [done|]. tauto.
Qed.

Lemma merge_label_hit (nuclei_idx : option (list nat)) (l cur new_value : nat)
    (e : nat * OverSeg) :
  merges nuclei_idx l e → head (over_seg_idx e.2) = Some new_value →
  merge_label nuclei_idx l cur e = new_value.
Proof.
  intros [Hsel Hin] Hhead. unfold merge_label. rewrite Hsel.
  destruct (over_seg_idx e.2) as [|x ids]; [done|].
  rewrite bool_decide_eq_true_2 by done. by injection Hhead.
Qed.

Lemma merge_label_miss (nuclei_idx : option (list nat)) (l cur : nat)
    (e : nat * OverSeg) :
  ¬ merges nuclei_idx l e → merge_label nuclei_idx l cur e = cur.
Proof.
  intros Hno. unfold merge_label, merges in *.
  destruct (selected nuclei_idx e.1); [|done].
  destruct (over_seg_idx e.2) as [|x ids]; [done|].
  rewrite bool_decide_eq_false_2; [done|tauto].
Qed.

(** The label after the pass is the label before it, when no applied record
    has the pre-merge label in its qualifying set, and otherwise the first
    id of such a record. *)
Lemma merged_label_cases (nuclei_idx : option (list nat))
    (recs : list (nat * OverSeg)) (l cur : nat) :
  (Forall (λ e, ¬ merges nuclei_idx l e) recs
   ∧ foldl (merge_label nuclei_idx l) cur recs = cur)
  ∨ ∃ e, e ∈ recs ∧ merges nuclei_idx l e
         ∧ head (over_seg_idx e.2)
           = Some (foldl (merge_label nuclei_idx l) cur recs).
Proof.
  induction recs as [|e recs IH] using rev_ind; [by left|].
  rewrite foldl_snoc.
  destruct (decide (merges nuclei_idx l e)) as [Hm|Hm].
  - right. exists e. split; [apply elem_of_app; right; by left|].
    split; [done|]. destruct Hm as [Hsel Hin]. unfold merge_label.
    rewrite Hsel. destruct (over_seg_idx e.2) as [|x ids] eqn:Hids.
    + by apply not_elem_of_nil in Hin.
    + by rewrite bool_decide_eq_true_2.
  - rewrite merge_label_miss by done.
    destruct IH as [[Hnone Hcur]|(e' & Hin & Hm' & Hhead)].
    + left. split; [|done]. apply Forall_app. split; [done|].
      by constructor.
    + right. exists e'. split; [apply elem_of_app; by left|done].
Qed.

Lemma find_potential_over_seg_qualifying nuclei_counts intersection_counts
    threshold (nuclei_idx : option (list nat)) :
  Forall (λ e, selected nuclei_idx e.1 = true → over_seg_idx e.2 ≠ [])
    (find_potential_over_seg nuclei_counts intersection_counts threshold).
Proof.
  apply Forall_forall. intros [n r] Hin _. simpl.
  apply elem_of_find_potential_over_seg in Hin as (_ & -> & Hover).
  unfold over_seg_profile in *. simpl in *.
  apply bool_decide_eq_true in Hover. intros Hnil. rewrite Hnil in Hover.
  simpl in Hover. lia.
Qed.

(** C1, as the code behaves.  The merge pass gives every voxel a label that
    depends on its pre-merge label alone: every test is against the array
    as it was before the pass.  A voxel whose pre-merge label is in the
    qualifying set of no applied record keeps it; otherwise it carries the
    first id of the qualifying set of the last applied record that has its
    pre-merge label.  In particular, when a record has the first id [A] and
    contains [B], distinct from [A], and no other applied record contains
    [B], every voxel labelled [B] before the pass carries [A] after it and
    no voxel carries [B]. *)
Theorem merge_pass_relabels (segmentation : vol nat)
    (nuclei_assignments : list (nat * OverSeg))
    (nuclei_idx : option (list nat)) :
  Forall (λ e, selected nuclei_idx e.1 = true → over_seg_idx e.2 ≠ [])
    nuclei_assignments →
  ∃ merged,
    fix_over_segmentation segmentation nuclei_assignments nuclei_idx = Ok merged
    ∧ (∀ p, vget merged p
            = merged_label nuclei_assignments nuclei_idx <$> vget segmentation p)
    ∧ (∀ l, Forall (λ e, ¬ merges nuclei_idx l e) nuclei_assignments →
            merged_label nuclei_assignments nuclei_idx l = l)
    ∧ (∀ l before e after new_value,
         nuclei_assignments = before ++ e :: after →
         merges nuclei_idx l e →
         head (over_seg_idx e.2) = Some new_value →
         Forall (λ e', ¬ merges nuclei_idx l e') after →
         merged_label nuclei_assignments nuclei_idx l = new_value)
    ∧ (∀ A B e,
         e ∈ nuclei_assignments →
         merges nuclei_idx B e →
         head (over_seg_idx e.2) = Some A →
         A ≠ B →
         (∀ e', e' ∈ nuclei_assignments → merges nuclei_idx B e' → e' = e) →
         (∀ p, vget segmentation p = Some B → vget merged p = Some A)
         ∧ B ∉ ravel merged).
Proof.
  intros Hne. eexists. split; [by apply fix_over_segmentation_merged_label|].
  split_and!.
  - intros p. apply vget_vmap.
  - intros l Hnone. by apply foldl_merge_label_none.
  - intros l before e after new_value -> Hm Hhead Hafter.
    unfold merged_label. rewrite foldl_app. cbn [foldl].
    rewrite foldl_merge_label_none by done. by apply merge_label_hit.
  - intros A B e He Hm Hhead HAB Honly.
    assert (HB : merged_label nuclei_assignments nuclei_idx B = A).
    { unfold merged_label.
      destruct (merged_label_cases nuclei_idx nuclei_assignments B B)
        as [[Hnone _]|(e' & Hin & Hm' & Hhead')].
      - rewrite Forall_forall in Hnone. by destruct (Hnone e He).
      - rewrite (Honly e' Hin Hm') in Hhead'. congruence. }
    split.
    + intros p Hp. by rewrite vget_vmap, Hp, <-HB.
    + intros Hin. apply elem_of_ravel_vmap in Hin as (l & _ & Hl).
      unfold merged_label in Hl.
      destruct (merged_label_cases nuclei_idx nuclei_assignments l l)
        as [[Hnone Hcur]|(e' & Hin & Hm' & Hhead')].
      * rewrite Hcur in Hl. subst l.
        rewrite Forall_forall in Hnone. by destruct (Hnone e He).
      * rewrite <-Hl in Hhead'.
        assert (HmB : merges nuclei_idx B e').
        { split; [apply Hm'|]. by apply head_Some_elem_of. }
        rewrite (Honly e' Hin HmB) in Hhead'. congruence.
Qed.

Lemma merge_pass_relabels_witness :
  ∃ s,
    numba_find_overlaps cells_115 nuclei_115 = Ok s
    ∧ fix_over_segmentation cells_115
        (find_potential_over_seg s.1.2 s.2 (3 # 10)) None
      = Ok merged_115
    ∧ (∀ p, vget cells_115 p = Some 2 → vget merged_115 p = Some 1)
    ∧ 2 ∉ ravel merged_115.
Proof.
  set (s := ([0; 2; 2; 1], [0; 2], [[0; 0]; [0; 1]; [0; 1]; [0; 0]])%Z
            : statistics).
  set (e := (1, {| c_idx := [1; 2]; over_seg_idx := [1; 2];
                   is_over_seg := true;
                   r_intersection_o := [Fin (1 # 2); Fin (1 # 2)] |})
            : nat * OverSeg).
  assert (Hrecs : find_potential_over_seg s.1.2 s.2 (3 # 10) = [e])
    by (vm_compute; reflexivity).
  assert (Hrun : fix_over_segmentation cells_115 [e] None = Ok merged_115)
    by (vm_compute; reflexivity).
  exists s. split; [vm_compute; reflexivity|]. rewrite Hrecs.
  split; [exact Hrun|].
  destruct (merge_pass_relabels cells_115 [e] None)
    as (merged & Hmerged & _ & _ & _ & Hpair).
  { rewrite <-Hrecs. apply find_potential_over_seg_qualifying. }
  rewrite Hrun in Hmerged. injection Hmerged as <-.
  apply (Hpair 1 2 e).
  - by left.
  - split; [reflexivity|]. by_compute.
  - reflexivity.
  - lia.
  - intros e' He' _. by apply list_elem_of_singleton in He'.
Defined.

(** C1, against the claim: nucleus 1 is covered by the cells 1 and 2, half
    each, and nucleus 2 by the cells 2 and 3, half each; with the threshold
    0.3 both nuclei give a record.  The record of nucleus 1 relabels the
    voxels of cell 2 to 1, and the record of nucleus 2, applied next,
    relabels the same voxels to its own first id, 2: after the pass the
    voxels of cell 2 carry the label 2. *)
Lemma merge_pass_later_record_overrides :
  ∃ s,
    numba_find_overlaps cells_118 nuclei_118 = Ok s
    ∧ over_seg_idx <$> (snd <$> find_potential_over_seg s.1.2 s.2 (3 # 10))
      = [ [1; 2]; [2; 3] ]
    ∧ r_intersection_o <$> (snd <$> find_potential_over_seg s.1.2 s.2 (3 # 10))
      = [ [Fin (2 # 4); Fin (2 # 4)]; [Fin (2 # 4); Fin (2 # 4)] ]
    ∧ fix_over_segmentation cells_118
        (find_potential_over_seg s.1.2 s.2 (3 # 10)) None
      = Ok merged_118
    ∧ vget cells_118 (0, 0, 2) = Some 2
    ∧ vget merged_118 (0, 0, 2) = Some 2
    ∧ 2 ∈ ravel merged_118.
Proof.
  eexists. split; [vm_compute; reflexivity|].
  split_and!; try (vm_compute; reflexivity). by_compute.
Qed.

(** ** The whole correction *)

Lemma no_records {R} (f : nat → R) (keep : R → bool) (l : list nat) :
  Forall (λ idx, keep (f idx) = false) l →
  foldl (λ acc idx, if keep (f idx) then acc ++ [(idx, f idx)] else acc) [] l
  = [].
Proof.
  intros Hl. rewrite foldl_records, app_nil_l.
  induction Hl as [|idx l Hidx _ IH]; [done|].
  by rewrite bind_cons, Hidx, IH.
Qed.

Lemma is_over_seg_length nuclei_counts intersection_counts threshold n :
  is_over_seg (over_seg_profile nuclei_counts intersection_counts threshold n)
  = bool_decide
      (1 < length (over_seg_idx (over_seg_profile nuclei_counts
                                   intersection_counts threshold n))).
Proof. reflexivity. Qed.

Lemma is_under_seg_length nuclei_counts intersection_counts threshold mask i :
  is_under_seg
    (under_seg_profile nuclei_counts intersection_counts threshold mask i)
  = bool_decide
      (1 < length (under_seg_idx (under_seg_profile nuclei_counts
                                    intersection_counts threshold mask i))).
Proof. reflexivity. Qed.

Section Pipeline.
Context (bits : nat).
Context {PVal : Type}.
Context (pval_one : PVal).
Context (pval_max : list PVal → PVal) (pval_div : PVal → PVal → PVal).
Context (gaussian : vol PVal → vol PVal).
Context (watershed : vol PVal → vol nat → vol nat).

Local Abbreviation pipeline :=
  (fix_over_under_segmentation_from_nuclei bits pval_one pval_max pval_div
     gaussian watershed).

(** With the loop of [numba_find_overlaps] taken without its threads: on a
    cell segmentation that is consistent with the nuclei, the correction
    finds no record in either pass, merges and splits nothing, and returns
    an array equal to the one it was given. *)
Lemma correction_idempotent (cell_seg nuclei_seg : vol nat)
    (threshold_merge threshold_split : Q) (quantiles_nuclei : Q * Q)
    (boundary : option (vol PVal)) :
  consistent cell_seg nuclei_seg threshold_merge threshold_split
    quantiles_nuclei →
  pipeline cell_seg nuclei_seg threshold_merge threshold_split
    quantiles_nuclei boundary = Ok cell_seg.
Proof.
  unfold consistent, fix_over_under_segmentation_from_nuclei.
  destruct (numba_find_overlaps cell_seg nuclei_seg) as [s|] eqn:Hstats;
    [|done].
  destruct (get_quantile_mask s.1.2 quantiles_nuclei) as [mask|] eqn:Hmask;
    [|done].
  intros [Hover Hunder]. cbn [bind].
  assert (Hno_over : find_potential_over_seg s.1.2 s.2 threshold_merge = []).
  { apply (no_records (over_seg_profile s.1.2 s.2 threshold_merge) is_over_seg).
    eapply Forall_impl; [exact Hover|]. intros n Hn. cbv beta in *.
    rewrite is_over_seg_length. apply bool_decide_eq_false. lia. }
  rewrite Hno_over. cbn [fix_over_segmentation foldM bind].
  rewrite Hstats. cbn [bind].
  assert (Hno_under :
            find_potential_under_seg s.1.2 s.1.1 s.2 threshold_split
              quantiles_nuclei = Ok []).
  { unfold find_potential_under_seg. rewrite Hmask. cbn [bind]. f_equal.
    apply (no_records (under_seg_profile s.1.2 s.2 threshold_split mask)
             is_under_seg).
    eapply Forall_impl; [exact Hunder|]. intros i Hi. cbv beta in *.
    rewrite is_under_seg_length. apply bool_decide_eq_false. lia. }
  rewrite Hno_under. reflexivity.
Qed.

End Pipeline.

Lemma correction_idempotent_witness :
  toy_pipeline cells_115 nuclei_115 (33 # 100) (66 # 100)
    (3 # 10, 99 # 100)%Q None = Ok merged_115
  ∧ toy_pipeline merged_115 nuclei_115 (33 # 100) (66 # 100)
      (3 # 10, 99 # 100)%Q None = Ok merged_115.
Proof.
  split; [vm_compute; reflexivity|].
  apply (correction_idempotent 16 1 max_list Nat.div toy_gaussian toy_watershed).
  by_compute.
Defined.

(** *** The correction over the runs of the loop *)

Lemma run_bind_ok {A B} (m : runs A) (k : A → runs B) (a : A)
    (r : result B) :
  m (Ok a) → k a r → run_bind m k r.
Proof. intros Hm Hk. left. by exists a. Qed.

(** C7. A segmentation that is consistent with the nuclei is not always
    returned as it is: the analysis works on the counts the loop reports,
    and under [prange] these can fall short of the sizes the docstring of
    [numba_find_overlaps] promises.  In [cells_race] cell 1 holds three of
    the four voxels of nucleus 1 and cell 2 holds one, a quarter, which is
    below the merge threshold: the segmentation is consistent.  When the
    two threads go through their planes in lockstep the nucleus is counted
    with two voxels and cell 2 with half of it, so the correction merges
    cell 2 into cell 1. *)
Theorem correction_changes_consistent :
  same_shape cells_race nuclei_race
  ∧ consistent cells_race nuclei_race (33 # 100) (66 # 100)
      (3 # 10, 99 # 100)%Q
  ∧ numba_find_overlaps cells_race nuclei_race
    = Ok ([0; 3; 1], [0; 4], [ [0; 0]; [0; 3]; [0; 1] ])%Z
  ∧ numba_find_overlaps_run cells_race nuclei_race (Ok stats_race)
  ∧ toy_pipeline_run cells_race nuclei_race (33 # 100) (66 # 100)
      (3 # 10, 99 # 100)%Q None (Ok merged_race)
  ∧ merged_race ≠ cells_race.
Proof.
  assert (Hrun : numba_find_overlaps_run cells_race nuclei_race (Ok stats_race)).
  { apply (numba_find_overlaps_run_schedule _ _ 2 1 (lockstep_schedule 2 6)
             stats_race [Thread None []; Thread None []]);
      [vm_compute; reflexivity..|by_compute]. }
  split_and!; [by_compute|by_compute|vm_compute; reflexivity|exact Hrun| |done].
  unfold toy_pipeline_run, fix_over_under_segmentation_from_nuclei_run.
  apply (run_bind_ok _ _ stats_race); [exact Hrun|]. cbv zeta.
  apply (run_bind_ok _ _ merged_race); [vm_compute; reflexivity|].
  apply (run_bind_ok _ _ ([0; 4], [0; 4], [ [0; 0]; [0; 4] ])%Z).
  { apply (numba_find_overlaps_run_schedule _ _ 1 1
             (sequential_schedule
                (prange_start merged_race nuclei_race 1 1).2)
             _ [Thread None []; Thread None []]);
      [vm_compute; reflexivity..|by_compute]. }
  apply (run_bind_ok _ _ []); vm_compute; reflexivity.
Qed.

(** ** The store *)

Section Keeps.
Import Store.
Context (h0 : store).

Lemma keeps_ret {A} (a : A) (Q : A → Prop) : Q a → keeps h0 (ret a) Q.
Proof. intros Ha h Hh. split; [done|]. by intros a' [= <-]. Qed.

Lemma keeps_lift {A} (r : result A) : keeps h0 (lift r) (λ _, True).
Proof. intros h Hh. split; done. Qed.

Lemma keeps_read (r : ref) : keeps h0 (read r) (λ _, True).
Proof. intros h Hh. unfold read. by destruct (h !! r). Qed.

Lemma keeps_new (v : vol nat) : keeps h0 (new v) (λ r, r ∉ dom h0).
Proof.
  intros h Hh. unfold new. simpl.
  assert (Hfresh : fresh (dom h) ∉ dom h0).
  { intros Hin. apply (is_fresh (dom h)). by apply (subseteq_dom h0 h). }
  split.
  - apply insert_subseteq_r; [|done]. by apply not_elem_of_dom.
  - by intros a [= <-].
Qed.

Lemma keeps_write (r : ref) (v : vol nat) :
  r ∉ dom h0 → keeps h0 (write r v) (λ _, True).
Proof.
  intros Hr h Hh. unfold write. simpl. split; [|done].
  apply insert_subseteq_r; [|done]. by apply not_elem_of_dom.
Qed.

Lemma keeps_bind {A B} (m : M A) (k : A → M B) (Q : A → Prop) (Q' : B → Prop) :
  keeps h0 m Q → (∀ a, Q a → keeps h0 (k a) Q') → keeps h0 (bindS m k) Q'.
Proof.
  intros Hm Hk h Hh. unfold bindS.
  destruct (Hm h Hh) as [Hsub HQ]. destruct (m h) as [h' [a|e]]; simpl in *.
  - apply Hk; [by apply HQ|done].
  - split; done.
Qed.

Lemma keeps_weaken {A} (m : M A) (Q Q' : A → Prop) :
  keeps h0 m Q → (∀ a, Q a → Q' a) → keeps h0 m Q'.
Proof.
  intros Hm HQ h Hh. destruct (Hm h Hh) as [Hsub Ha].
  split; [done|]. intros a Hok. by apply HQ, Ha.
Qed.

Lemma keeps_foldS {A B} (f : A → B → M A) (I : A → Prop) (l : list B) (a : A) :
  (∀ a x, I a → keeps h0 (f a x) I) → I a → keeps h0 (foldS f a l) I.
Proof.
  intros Hf. revert a. induction l as [|x l IH]; intros a Ha; simpl.
  - by apply keeps_ret.
  - eapply keeps_bind; [by apply Hf|]. intros a' Ha'. by apply IH.
Qed.

Lemma keeps_forS {B} (f : B → M unit) (l : list B) :
  (∀ x, keeps h0 (f x) (λ _, True)) → keeps h0 (forS l f) (λ _, True).
Proof. intros Hf. apply keeps_foldS; [|done]. intros _ x _. apply Hf. Qed.

Lemma keeps_deepcopy (a : ref) : keeps h0 (deepcopy a) (λ r, r ∉ dom h0).
Proof.
  eapply keeps_bind; [apply keeps_read|]. intros v _. apply keeps_new.
Qed.

Lemma keeps_zeros_like (a : ref) : keeps h0 (zeros_like a) (λ r, r ∉ dom h0).
Proof.
  eapply keeps_bind; [apply keeps_read|]. intros v _. apply keeps_new.
Qed.

Context (bits : nat).
Context {PVal : Type}.
Context (pval_one : PVal).
Context (pval_max : list PVal → PVal) (pval_div : PVal → PVal → PVal).
Context (gaussian : vol PVal → vol PVal).
Context (watershed : vol PVal → vol nat → vol nat).

(** A step that needs no property of its result. *)
Ltac keeps_step :=
  first
    [ eapply keeps_bind; [apply keeps_read|]; intros ? _
    | eapply keeps_bind; [apply keeps_lift|]; intros ? _
    | eapply keeps_bind; [by apply keeps_write|]; intros ? _ ].

Lemma keeps_split_from_seeds (segmentation : ref) (boundary_pmap : vol PVal)
    (seeds : ref) (all_idx : list nat) :
  keeps h0
    (split_from_seeds bits pval_max pval_div gaussian watershed
       segmentation boundary_pmap seeds all_idx)
    (λ r, r ∉ dom h0).
Proof.
  unfold split_from_seeds.
  eapply keeps_bind; [apply keeps_deepcopy|]. intros c_segmentation Hc.
  do 5 keeps_step.
  eapply keeps_bind; [apply keeps_new|]. intros local_seg Hl.
  do 8 keeps_step. by apply keeps_ret.
Qed.

Lemma keeps_fix_under_segmentation (segmentation nuclei_segmentation : ref)
    (boundary_pmap : vol PVal) (cell_assignments : list (nat * UnderSeg))
    (cell_idx : option (list nat)) :
  keeps h0
    (fix_under_segmentation bits pval_max pval_div gaussian watershed
       segmentation nuclei_segmentation boundary_pmap cell_assignments cell_idx)
    (λ r, r ∉ dom h0).
Proof.
  unfold fix_under_segmentation.
  eapply keeps_bind; [apply keeps_deepcopy|]. intros _segmentation Hs.
  apply keeps_foldS; [|done]. clear _segmentation Hs.
  intros _segmentation e Hs. cbv zeta.
  destruct (selected cell_idx e.1); [|by apply keeps_ret].
  eapply keeps_bind; [apply keeps_zeros_like|]. intros _nuclei_seeds Hn.
  eapply keeps_bind.
  - apply keeps_forS. intros x. do 3 keeps_step. by apply keeps_write.
  - intros _ _. apply keeps_split_from_seeds.
Qed.

Lemma keeps_fix_over_segmentation (segmentation : ref)
    (nuclei_assignments : list (nat * OverSeg))
    (nuclei_idx : option (list nat)) :
  keeps h0 (fix_over_segmentation segmentation nuclei_assignments nuclei_idx)
    (λ r, r ∉ dom h0).
Proof.
  unfold fix_over_segmentation.
  eapply keeps_bind; [apply keeps_deepcopy|]. intros _segmentation Hs.
  eapply keeps_bind.
  - apply keeps_forS. intros e. cbv zeta.
    destruct (selected nuclei_idx e.1); [|by apply keeps_ret].
    keeps_step. apply keeps_forS. intros c_idx.
    do 3 keeps_step. by apply keeps_write.
  - intros _ _. by apply keeps_ret.
Qed.

Lemma keeps_correction (cell_seg nuclei_seg : ref)
    (threshold_merge threshold_split : Q) (quantiles_nuclei : Q * Q)
    (boundary : option (vol PVal)) :
  keeps h0
    (fix_over_under_segmentation_from_nuclei bits pval_one pval_max pval_div
       gaussian watershed cell_seg nuclei_seg threshold_merge threshold_split
       quantiles_nuclei boundary)
    (λ r, r ∉ dom h0).
Proof.
  unfold fix_over_under_segmentation_from_nuclei.
  do 3 keeps_step.
  eapply keeps_bind; [apply keeps_fix_over_segmentation|].
  intros _cell_seg _.
  do 5 keeps_step. apply keeps_fix_under_segmentation.
Qed.

End Keeps.

(** C9. The correction, and each of its two passes, leaves every array of
    the store as it found it: the passes write into their own deep copies
    and into the arrays they allocate.  The two input arrays are in the
    store, so neither is changed, even when they are one and the same
    array, and whether the call returns or raises; the array returned is a
    new one. *)
Theorem correction_keeps_inputs (bits : nat) {PVal : Type}
    (pval_one : PVal)
    (pval_max : list PVal → PVal) (pval_div : PVal → PVal → PVal)
    (gaussian : vol PVal → vol PVal)
    (watershed : vol PVal → vol nat → vol nat)
    (h : Store.store) (cell_seg nuclei_seg : Store.ref)
    (threshold_merge threshold_split : Q) (quantiles_nuclei : Q * Q)
    (boundary : option (vol PVal)) (h' : Store.store)
    (r : result Store.ref) :
  is_Some (h !! cell_seg) →
  is_Some (h !! nuclei_seg) →
  Store.fix_over_under_segmentation_from_nuclei bits pval_one pval_max pval_div
    gaussian watershed cell_seg nuclei_seg threshold_merge threshold_split
    quantiles_nuclei boundary h = (h', r) →
  h' !! cell_seg = h !! cell_seg
  ∧ h' !! nuclei_seg = h !! nuclei_seg
  ∧ h ⊆ h'
  ∧ (∀ out, r = Ok out → (out ∉ dom h) ∧ out ≠ cell_seg ∧ out ≠ nuclei_seg)
  ∧ (∀ recs idx,
       h ⊆ (Store.fix_over_segmentation cell_seg recs idx h).1
       ∧ ∀ out, (Store.fix_over_segmentation cell_seg recs idx h).2 = Ok out →
                out ∉ dom h)
  ∧ (∀ pmap recs idx,
       h ⊆ (Store.fix_under_segmentation bits pval_max pval_div gaussian watershed
              cell_seg nuclei_seg pmap recs idx h).1
       ∧ ∀ out, (Store.fix_under_segmentation bits pval_max pval_div gaussian
                   watershed cell_seg nuclei_seg pmap recs idx h).2 = Ok out →
                out ∉ dom h).
Proof.
  intros [c Hc] [n Hn] Hrun.
  destruct (keeps_correction h bits pval_one pval_max pval_div gaussian
              watershed
              cell_seg nuclei_seg threshold_merge threshold_split
              quantiles_nuclei boundary h) as [Hsub Hout]; [done|].
  rewrite Hrun in Hsub, Hout. simpl in Hsub, Hout.
  split_and!.
  - rewrite Hc. by eapply lookup_weaken.
  - rewrite Hn. by eapply lookup_weaken.
  - done.
  - intros out Hok. pose proof (Hout out Hok) as Hfresh.
    split; [done|]. split; intros ->; apply Hfresh, elem_of_dom; eauto.
  - intros recs idx. by apply (keeps_fix_over_segmentation h).
  - intros pmap recs idx. by apply (keeps_fix_under_segmentation h bits).
Qed.

Lemma correction_keeps_inputs_witness :
  ∃ h' out,
    toy_store_pipeline 0 1 (33 # 100) (66 # 100) (3 # 10, 99 # 100)%Q None
      store_115 = (h', Ok out)
    ∧ h' !! out = Some merged_115
    ∧ h' !! 0 = Some cells_115
    ∧ h' !! 1 = Some nuclei_115
    ∧ out ≠ 0 ∧ out ≠ 1.
Proof.
  assert (Hres : (toy_store_pipeline 0 1 (33 # 100) (66 # 100)
                    (3 # 10, 99 # 100)%Q None store_115).2 = Ok 3)
    by (vm_compute; reflexivity).
  assert (Hout : (toy_store_pipeline 0 1 (33 # 100) (66 # 100)
                    (3 # 10, 99 # 100)%Q None store_115).1 !! 3
                 = Some merged_115)
    by (vm_compute; reflexivity).
  destruct (toy_store_pipeline 0 1 (33 # 100) (66 # 100)
              (3 # 10, 99 # 100)%Q None store_115) as [h' r] eqn:Hrun.
  simpl in Hres, Hout. subst r.
  destruct (correction_keeps_inputs 16 1 max_list Nat.div toy_gaussian
              toy_watershed store_115 0 1 (33 # 100) (66 # 100)
              (3 # 10, 99 # 100)%Q None h' (Ok 3))
    as (Hcell & Hnuc & _ & Hfresh & _); [by eexists|by eexists|exact Hrun|].
  exists h', 3. split_and!; [done|done|exact Hcell|exact Hnuc|lia|lia].
Defined.

(** C3. On a cell of 65536 voxels that holds a nucleus of one voxel, the
    counter of the cell wraps to 0 while the overlap of the two is counted
    as 1: the overlaps of the cell add up to more than the count that
    [numba_find_overlaps] returns for it. *)
Theorem overlap_exceeds_wrapped_count :
  same_shape big_cell small_nucleus
  ∧ Z.of_nat (cell_size big_cell 1) = 65536%Z
  ∧ overlap_size big_cell small_nucleus 1 1 = 1
  ∧ ∃ cell_counts n_counts overlap_counts,
      numba_find_overlaps big_cell small_nucleus
        = Ok (cell_counts, n_counts, overlap_counts)
      ∧ cell_counts !!! 1 = 0%Z
      ∧ overlap_counts !!! 1 = [0; 1]%Z
      ∧ ¬ (sum_list_Z (overlap_counts !!! 1%nat) ≤ cell_counts !!! 1%nat)%Z.
Proof.
  split; [by_compute|]. split; [vm_compute; reflexivity|].
  split; [vm_compute; reflexivity|].
  exists [0; 0]%Z, [0; 1]%Z, [[0; 0]; [0; 1]]%Z.
  split; [vm_compute; reflexivity|]. split; [reflexivity|].
  split; [reflexivity|]. vm_compute. intros Hle. by apply Hle.
Qed.

(** ** The passes on the store compute what the passes on arrays compute *)

Section StoreSteps.
Import Store.

Lemma bindS_read {B} (r : ref) (k : vol nat → M B) (h : store) (v : vol nat) :
  h !! r = Some v → bindS (read r) k h = k v h.
Proof. intros Hr. unfold bindS, read. by rewrite Hr. Qed.

Lemma bindS_lift_ok {A B} (a : A) (k : A → M B) (h : store) :
  bindS (lift (Ok a)) k h = k a h.
Proof. reflexivity. Qed.

Lemma bindS_lift_raise {A B} (e : exn) (k : A → M B) (h : store) :
  bindS (lift (Raise e)) k h = (h, Raise e).
Proof. reflexivity. Qed.

Lemma bindS_new {B} (v : vol nat) (k : ref → M B) (h : store) :
  bindS (new v) k h = k (fresh (dom h)) (<[fresh (dom h) := v]> h).
Proof. reflexivity. Qed.

Lemma bindS_write {B} (r : ref) (v : vol nat) (k : unit → M B) (h : store) :
  bindS (write r v) k h = k tt (<[r := v]> h).
Proof. reflexivity. Qed.

Lemma bindS_assoc {A B C} (m : M A) (k : A → M B) (k' : B → M C) (h : store) :
  bindS (bindS m k) k' h = bindS m (λ a, bindS (k a) k') h.
Proof. unfold bindS. destruct (m h) as [h' [a|e]]; done. Qed.

Lemma bindS_run {A B} (m : M A) (k : A → M B) (h h' : store) (a : A) :
  m h = (h', Ok a) → bindS m k h = k a h'.
Proof. intros Hm. unfold bindS. by rewrite Hm. Qed.

Lemma bindS_run_raise {A B} (m : M A) (k : A → M B) (h : store) (e : exn) :
  (m h).2 = Raise e → (bindS m k h).2 = Raise e.
Proof. unfold bindS. destruct (m h) as [h' [a|e']]; simpl; [done|congruence]. Qed.

Lemma fresh_not_bound (h : store) (r : ref) (v : vol nat) :
  h !! r = Some v → fresh (dom h) ≠ r.
Proof.
  intros Hr <-. pose proof (is_fresh (dom h)) as Hfresh.
  apply not_elem_of_dom in Hfresh. congruence.
Qed.

Lemma insert_fresh_subseteq (h : store) (v : vol nat) :
  h ⊆ <[fresh (dom h) := v]> h.
Proof. apply insert_subseteq, not_elem_of_dom, is_fresh. Qed.

(** A loop that reads [src], reads [tgt], and writes into [tgt] what a step
    on arrays makes of the two. *)
Lemma update_loop {B} (g : vol nat → B → vol nat → result (vol nat))
    (src tgt : ref) (l : list B) (h : store) (a b : vol nat) :
  h !! src = Some a → h !! tgt = Some b → src ≠ tgt →
  loop_agrees
    (forS l (λ x, a <~ read src;; b <~ read tgt;;
                  b' <~ lift (g a x b);; write tgt b') h)
    h tgt (foldM (λ b x, g a x b) b l).
Proof.
  intros Hsrc Htgt Hne. revert h b Hsrc Htgt.
  induction l as [|x l IH]; intros h b Hsrc Htgt; cbn [foldM].
  - unfold loop_agrees, forS, foldS, ret. by rewrite insert_id.
  - unfold forS. cbn [foldS]. rewrite !bindS_assoc.
    rewrite (bindS_read _ _ _ _ Hsrc), bindS_assoc.
    rewrite (bindS_read _ _ _ _ Htgt), bindS_assoc.
    destruct (g a x b) as [b1|e]; cbn [bind].
    + rewrite bindS_lift_ok, bindS_write.
      specialize (IH (<[tgt := b1]> h) b1).
      rewrite lookup_insert_ne, lookup_insert_eq in IH by done.
      specialize (IH Hsrc eq_refl). unfold forS, loop_agrees in *.
      destruct (foldM (λ b x, g a x b) b1 l) as [b'|e]; [|done].
      by rewrite IH, insert_insert_eq.
    + by rewrite bindS_lift_raise.
Qed.

End StoreSteps.

Section Agreement.
Local Notation "x <~ m ;; k" := (Store.bindS m (fun x => k))
  (at level 100, m at next level, right associativity).
Local Abbreviation store := Store.store.
Local Abbreviation ref := Store.ref.
Local Abbreviation read := Store.read.
Local Abbreviation write := Store.write.
Local Abbreviation lift := Store.lift.
Local Abbreviation ret := Store.ret.
Local Abbreviation forS := Store.forS.
Local Abbreviation agrees := Store.agrees.
Context (bits : nat).
Context {PVal : Type}.
Context (pval_one : PVal).
Context (pval_max : list PVal → PVal) (pval_div : PVal → PVal → PVal).
Context (gaussian : vol PVal → vol PVal).
Context (watershed : vol PVal → vol nat → vol nat).

Lemma fix_over_segmentation_agrees (h : store) (segmentation : ref)
    (v : vol nat) (nuclei_assignments : list (nat * OverSeg))
    (nuclei_idx : option (list nat)) :
  h !! segmentation = Some v →
  agrees (Store.fix_over_segmentation segmentation nuclei_assignments
            nuclei_idx h)
         (fix_over_segmentation v nuclei_assignments nuclei_idx).
Proof.
  intros Hseg. unfold Store.fix_over_segmentation, Store.deepcopy.
  rewrite !bindS_assoc, (bindS_read _ _ _ _ Hseg), bindS_new.
  pose proof (fresh_not_bound _ _ _ Hseg) as Hfresh.
  set (r := fresh (dom h)) in *.
  assert (Hloop : ∀ recs h1 cur,
    h1 !! segmentation = Some v → h1 !! r = Some cur →
    Store.loop_agrees
      (forS recs
         (λ e, if selected nuclei_idx e.1 then
                 new_value <~ lift (first_item (over_seg_idx e.2));;
                 forS (over_seg_idx e.2)
                   (λ c_idx, a <~ read segmentation;; b <~ read r;;
                             b' <~ lift (setitem_mask b (np_eq a c_idx)
                                           new_value);;
                             write r b')
               else ret tt) h1)
      h1 r
      (foldM (λ _segmentation (e : nat * OverSeg),
                if selected nuclei_idx e.1 then
                  new_value <- first_item (over_seg_idx e.2);;
                  foldM (λ _segmentation c_idx,
                           setitem_mask _segmentation (np_eq v c_idx)
                             new_value)
                        _segmentation (over_seg_idx e.2)
                else Ok _segmentation) cur recs)).
  { induction recs as [|e recs IH]; intros h1 cur Hs Hr; cbn [foldM].
    - unfold Store.loop_agrees, Store.forS, Store.foldS, Store.ret.
      by rewrite insert_id.
    - unfold Store.forS in *. cbn [Store.foldS].
      destruct (selected nuclei_idx e.1); cbv iota.
      + rewrite bindS_assoc.
        destruct (first_item (over_seg_idx e.2)) as [new_value|err];
          cbn [bind]; [|by rewrite bindS_lift_raise].
        rewrite bindS_lift_ok.
        pose proof (update_loop
                      (λ a c_idx b, setitem_mask b (np_eq a c_idx) new_value)
                      segmentation r (over_seg_idx e.2) h1 v cur Hs Hr
                      (not_eq_sym Hfresh)) as Hinner.
        cbv beta in Hinner. unfold Store.loop_agrees, Store.forS in Hinner.
        destruct (foldM _ cur (over_seg_idx e.2)) as [cur1|err]; cbn [bind].
        * rewrite (bindS_run _ _ _ _ _ Hinner).
          specialize (IH (<[r := cur1]> h1) cur1).
          rewrite lookup_insert_ne, lookup_insert_eq in IH by done.
          specialize (IH Hs eq_refl). unfold Store.loop_agrees in *.
          destruct (foldM _ cur1 recs) as [cur'|err]; [|done].
          by rewrite IH, insert_insert_eq.
        * by apply bindS_run_raise.
      + unfold Store.bindS at 1, Store.ret at 1. by apply IH. }
  specialize (Hloop nuclei_assignments (<[r := v]> h) v).
  rewrite lookup_insert_ne, lookup_insert_eq in Hloop by done.
  specialize (Hloop Hseg eq_refl).
  unfold fix_over_segmentation, Store.agrees, Store.loop_agrees in *.
  destruct (foldM _ v nuclei_assignments) as [cur'|err].
  - rewrite (bindS_run _ _ _ _ _ Hloop). exists r.
    split; [done|]. unfold Store.ret. simpl. apply lookup_insert_eq.
  - by apply bindS_run_raise.
Qed.

Lemma split_from_seeds_agrees (h : store) (segmentation seeds : ref)
    (v s : vol nat) (boundary_pmap : vol PVal) (all_idx : list nat) :
  h !! segmentation = Some v → h !! seeds = Some s →
  agrees (Store.split_from_seeds bits pval_max pval_div gaussian watershed
            segmentation boundary_pmap seeds all_idx h)
         (split_from_seeds bits pval_max pval_div gaussian watershed
            v boundary_pmap s all_idx).
Proof.
  intros Hseg Hseeds.
  unfold Store.split_from_seeds, Store.deepcopy, split_from_seeds.
  rewrite !bindS_assoc, (bindS_read _ _ _ _ Hseg), bindS_new.
  pose proof (fresh_not_bound _ _ _ Hseg) as Hc_seg.
  pose proof (fresh_not_bound _ _ _ Hseeds) as Hc_seeds.
  set (c := fresh (dom h)) in *. set (h1 := <[c := v]> h).
  assert (Hc1 : h1 !! c = Some v) by apply lookup_insert_eq.
  assert (Hs1 : h1 !! seeds = Some s) by (unfold h1; by rewrite lookup_insert_ne).
  rewrite (bindS_read _ _ _ _ Hc1). cbv zeta.
  destruct (get_bbox _ 0) as [r|e]; cbn [bind];
    [rewrite bindS_lift_ok|by rewrite bindS_lift_raise].
  rewrite (bindS_read _ _ _ _ Hs1), (bindS_read _ _ _ _ Hc1).
  destruct (boundary_max _ _) as [m|e]; cbn [bind];
    [rewrite bindS_lift_ok|by rewrite bindS_lift_raise].
  rewrite bindS_new.
  pose proof (fresh_not_bound _ _ _ Hc1) as Hl_c.
  set (l := fresh (dom h1)) in *.
  set (w := watershed _ _). set (h2 := <[l := w]> h1).
  assert (Hc2 : h2 !! c = Some v) by (unfold h2; by rewrite lookup_insert_ne).
  assert (Hl2 : h2 !! l = Some w) by apply lookup_insert_eq.
  rewrite (bindS_read _ _ _ _ Hc2).
  destruct (label_max (ravel v)) as [max_id|e]; cbn [bind];
    [rewrite bindS_lift_ok|by rewrite bindS_lift_raise].
  rewrite (bindS_read _ _ _ _ Hl2), bindS_write.
  set (w' := vmap _ w). set (h3 := <[l := w']> h2).
  assert (Hc3 : h3 !! c = Some v) by (unfold h3; by rewrite lookup_insert_ne).
  assert (Hl3 : h3 !! l = Some w') by apply lookup_insert_eq.
  rewrite (bindS_read _ _ _ _ Hl3), (bindS_read _ _ _ _ Hc3).
  destruct (setitem_bbox_mask v _ _ (vmap (as_dtype bits) w')) as [v'|e];
    [rewrite bindS_lift_ok|by rewrite bindS_lift_raise].
  rewrite bindS_write. exists c. split; [done|]. apply lookup_insert_eq.
Qed.

Lemma fix_under_segmentation_agrees (h : store)
    (segmentation nuclei_segmentation : ref) (v n : vol nat)
    (boundary_pmap : vol PVal) (cell_assignments : list (nat * UnderSeg))
    (cell_idx : option (list nat)) :
  h !! segmentation = Some v → h !! nuclei_segmentation = Some n →
  agrees (Store.fix_under_segmentation bits pval_max pval_div gaussian watershed
            segmentation nuclei_segmentation boundary_pmap cell_assignments
            cell_idx h)
         (fix_under_segmentation bits pval_max pval_div gaussian watershed
            v n boundary_pmap cell_assignments cell_idx).
Proof.
  intros Hseg Hnuc.
  unfold Store.fix_under_segmentation, Store.deepcopy, fix_under_segmentation.
  rewrite !bindS_assoc, (bindS_read _ _ _ _ Hseg), bindS_new.
  assert (Hcur : <[fresh (dom h) := v]> h !! fresh (dom h) = Some v)
    by apply lookup_insert_eq.
  assert (Hnuc1 : <[fresh (dom h) := v]> h !! nuclei_segmentation = Some n).
  { rewrite lookup_insert_ne; [done|]. by eapply fresh_not_bound. }
  revert Hcur Hnuc1. generalize (<[fresh (dom h) := v]> h).
  generalize (fresh (dom h)). generalize v. clear Hseg Hnuc v h segmentation.
  induction cell_assignments as [|e recs IH]; intros v cur h Hcur Hnuc;
    cbn [foldM Store.foldS].
  - exists cur. by split.
  - cbv zeta. destruct (selected cell_idx e.1); cbv iota.
    + unfold Store.zeros_like. rewrite !bindS_assoc.
      rewrite (bindS_read _ _ _ _ Hcur), bindS_new, bindS_assoc.
      pose proof (fresh_not_bound _ _ _ Hcur) as Hns_cur.
      pose proof (fresh_not_bound _ _ _ Hnuc) as Hns_nuc.
      set (ns := fresh (dom h)) in *.
      set (h1 := <[ns := vmap (λ _, 0) v]> h).
      assert (Hcur1 : h1 !! cur = Some v) by (unfold h1; by rewrite lookup_insert_ne).
      assert (Hnuc1 : h1 !! nuclei_segmentation = Some n)
        by (unfold h1; by rewrite lookup_insert_ne).
      assert (Hns1 : h1 !! ns = Some (vmap (λ _, 0) v))
        by apply lookup_insert_eq.
      pose proof (update_loop
                    (λ (n : vol nat) (x : nat * nat) s,
                       setitem_mask s (np_eq n x.2) (x.1 + 1))
                    nuclei_segmentation ns
                    (imap (λ i n_idx, (i, n_idx)) (under_seg_idx e.2))
                    h1 n (vmap (λ _, 0) v) Hnuc1 Hns1
                    (not_eq_sym Hns_nuc)) as Hseeds.
      cbv beta in Hseeds. unfold Store.loop_agrees in Hseeds.
      unfold nuclei_seeds.
      destruct (foldM _ (vmap (λ _, 0) v) _) as [s|err]; cbn [bind].
      * rewrite (bindS_run _ _ _ _ _ Hseeds).
        set (h2 := <[ns := s]> h1).
        assert (Hcur2 : h2 !! cur = Some v) by (unfold h2; by rewrite lookup_insert_ne).
        assert (Hnuc2 : h2 !! nuclei_segmentation = Some n)
          by (unfold h2; by rewrite lookup_insert_ne).
        assert (Hns2 : h2 !! ns = Some s) by apply lookup_insert_eq.
        pose proof (split_from_seeds_agrees h2 cur ns v s boundary_pmap
                      [e.1] Hcur2 Hns2) as Hsplit.
        destruct (keeps_split_from_seeds h2 bits pval_max pval_div gaussian
                    watershed cur boundary_pmap ns [e.1] h2) as [Hsub _];
          [done|].
        destruct (Store.split_from_seeds _ _ _ _ _ cur boundary_pmap ns [e.1] h2)
          as [h3 res] eqn:Hrun.
        unfold Store.agrees in Hsplit. simpl in Hsplit, Hsub.
        destruct (split_from_seeds _ _ _ _ _ v boundary_pmap s [e.1])
          as [v'|err]; cbn [bind].
        -- destruct Hsplit as (out & -> & Hout).
           rewrite (bindS_run _ _ _ _ _ Hrun). apply IH; [done|].
           by eapply lookup_weaken.
        -- apply bindS_run_raise. by rewrite Hrun.
      * rewrite <-bindS_assoc. by apply bindS_run_raise, bindS_run_raise.
    + unfold Store.bindS at 1, Store.ret at 1. by apply IH.
Qed.

(** X23. The correction as the program runs it, on a store of arrays with
    deep copies and assignments in place, computes what the correction
    read as a function on arrays computes: from a store that holds the two
    volumes it raises the same exception, or returns a reference to an
    array equal to the result. *)
Lemma correction_agrees (h : store) (cell_seg nuclei_seg : ref)
    (c n : vol nat) (threshold_merge threshold_split : Q)
    (quantiles_nuclei : Q * Q) (boundary : option (vol PVal)) :
  h !! cell_seg = Some c → h !! nuclei_seg = Some n →
  agrees (Store.fix_over_under_segmentation_from_nuclei bits pval_one pval_max
            pval_div gaussian watershed cell_seg nuclei_seg threshold_merge
            threshold_split quantiles_nuclei boundary h)
         (fix_over_under_segmentation_from_nuclei bits pval_one pval_max pval_div
            gaussian watershed c n threshold_merge threshold_split
            quantiles_nuclei boundary).
Proof.
  intros Hcell Hnuc.
  unfold Store.fix_over_under_segmentation_from_nuclei,
    fix_over_under_segmentation_from_nuclei.
  rewrite (bindS_read _ _ _ _ Hcell), (bindS_read _ _ _ _ Hnuc).
  destruct (numba_find_overlaps c n) as [s|e]; cbn [bind];
    [rewrite bindS_lift_ok|by rewrite bindS_lift_raise].
  cbv zeta.
  pose proof (fix_over_segmentation_agrees h cell_seg c
                (find_potential_over_seg s.1.2 s.2 threshold_merge) None
                Hcell) as Hover.
  destruct (keeps_fix_over_segmentation h cell_seg
              (find_potential_over_seg s.1.2 s.2 threshold_merge) None h)
    as [Hsub _]; [done|].
  destruct (Store.fix_over_segmentation cell_seg _ None h) as [h1 res]
    eqn:Hrun.
  unfold Store.agrees in Hover. simpl in Hover, Hsub.
  destruct (fix_over_segmentation c _ None) as [c1|e]; cbn [bind];
    [|apply bindS_run_raise; by rewrite Hrun].
  destruct Hover as (out & -> & Hout).
  rewrite (bindS_run _ _ _ _ _ Hrun).
  assert (Hcell1 : h1 !! cell_seg = Some c) by by eapply lookup_weaken.
  assert (Hnuc1 : h1 !! nuclei_seg = Some n) by by eapply lookup_weaken.
  rewrite (bindS_read _ _ _ _ Hout), (bindS_read _ _ _ _ Hnuc1).
  destruct (numba_find_overlaps c1 n) as [s1|e]; cbn [bind];
    [rewrite bindS_lift_ok|by rewrite bindS_lift_raise].
  destruct (find_potential_under_seg _ _ _ _ _) as [cell_assignments|e];
    cbn [bind]; [rewrite bindS_lift_ok|by rewrite bindS_lift_raise].
  rewrite (bindS_read _ _ _ _ Hcell1).
  by apply fix_under_segmentation_agrees.
Qed.

End Agreement.

(** ** The overlap invariant, for counters that do not wrap *)

Lemma length_filter_mono {A} (P Q : A → Prop) `{∀ x, Decision (P x)}
    `{∀ x, Decision (Q x)} (l : list A) :
  (∀ x, P x → Q x) → length (filter P l) ≤ length (filter Q l).
Proof.
  intros HPQ. induction l as [|x l IH]; [done|]. rewrite !filter_cons.
  destruct (decide (P x)) as [HP|HP], (decide (Q x)) as [HQ|HQ];
    cbn [length]; try lia.
  destruct HQ. by apply HPQ.
Qed.

Lemma length_filter_or {A} (P Q R : A → Prop) `{∀ x, Decision (P x)}
    `{∀ x, Decision (Q x)} `{∀ x, Decision (R x)} (l : list A) :
  (∀ x, R x ↔ P x ∨ Q x) → (∀ x, P x → Q x → False) →
  length (filter R l) = length (filter P l) + length (filter Q l).
Proof.
  intros HR Hdisj. induction l as [|x l IH]; [done|]. rewrite !filter_cons.
  pose proof (HR x) as HRx. pose proof (Hdisj x) as Hdx.
  destruct (decide (P x)), (decide (Q x)), (decide (R x)); cbn [length];
    try lia; tauto.
Qed.

Lemma sum_list_Z_cons (x : Z) (l : list Z) :
  sum_list_Z (x :: l) = (x + sum_list_Z l)%Z.
Proof. reflexivity. Qed.

(** The counts of a family of pairwise exclusive predicates add up to the
    count of their union. *)
Lemma sum_counts {T} (Q : nat → T → Prop) `{∀ j v, Decision (Q j v)}
    (vs : list T) (js : list nat) :
  NoDup js → (∀ v j j', Q j v → Q j' v → j = j') →
  sum_list_Z ((λ j, Z.of_nat (length (filter (Q j) vs))) <$> js)
  = Z.of_nat (length (filter (λ v, Exists (λ j, Q j v) js) vs)).
Proof.
  intros Hnd Hexcl. induction Hnd as [|j js Hj _ IH].
  - assert (Hnone : length (filter (λ v, Exists (λ j, Q j v) []) vs) = 0).
    { induction vs as [|v vs IHvs]; [done|].
      rewrite filter_cons_False; [done|]. intros Hv.
      by apply Exists_nil in Hv. }
    by rewrite Hnone.
  - rewrite fmap_cons, sum_list_Z_cons, IH.
    rewrite (length_filter_or (Q j) (λ v, Exists (λ j, Q j v) js)
               (λ v, Exists (λ j, Q j v) (j :: js))).
    + lia.
    + intros v. apply Exists_cons.
    + intros v Hv Hex. apply Exists_exists in Hex as (j' & Hj' & Hv').
      rewrite (Hexcl v j j' Hv Hv') in Hj. done.
Qed.

Lemma sum_list_Z_mono {A} (f g : A → Z) (l : list A) :
  (∀ x, f x ≤ g x)%Z → (sum_list_Z (f <$> l) ≤ sum_list_Z (g <$> l))%Z.
Proof.
  intros Hfg. induction l as [|x l IH]; [done|].
  rewrite !fmap_cons, !sum_list_Z_cons. specialize (Hfg x). lia.
Qed.

Lemma as_uint16_le (n : nat) : (0 ≤ as_uint16 n ≤ Z.of_nat n)%Z.
Proof.
  unfold as_uint16. pose proof (Z.mod_pos_bound (Z.of_nat n) 65536 eq_refl).
  split; [lia|]. apply Z.mod_le; lia.
Qed.

Lemma counted_le (P : nat * nat → Prop) `{∀ v, Decision (P v)} (b : bool)
    (vs : list (nat * nat)) :
  (counted P b vs ≤ Z.of_nat (length (filter P vs)))%Z.
Proof. unfold counted. destruct b; [apply as_uint16_le|lia]. Qed.

Lemma foldl_count_voxel_length (s : statistics) (vs : list (nat * nat)) :
  length (foldl count_voxel s vs).2 = length s.2.
Proof.
  revert s. induction vs as [|v vs IH]; intros [[cc cn] oc]; [done|].
  simpl. rewrite IH. simpl. case_decide; [|done]. apply length_alter.
Qed.

(** The rows and the columns of the overlap array that the loop leaves. *)
Lemma overlap_rows_columns (nc nn : nat) (vs : list (nat * nat)) :
  let oc := (foldl count_voxel
               (replicate nc 0%Z, replicate nn 0%Z,
                replicate nc (replicate nn 0%Z)) vs).2 in
  (∀ i, i < nc →
        oc !!! i
        = (λ j, counted (λ v, v.1 = i ∧ v.2 = j)
                  (bool_decide (0 < i ∧ 0 < j)) vs) <$> seq 0 nn)
  ∧ (∀ j, j < nn →
          column oc j
          = (λ i, counted (λ v, v.1 = i ∧ v.2 = j)
                    (bool_decide (0 < i ∧ 0 < j)) vs) <$> seq 0 nc).
Proof.
  pose proof (foldl_count_voxel nc nn vs) as Hfold.
  pose proof (foldl_count_voxel_length
                (replicate nc 0%Z, replicate nn 0%Z,
                 replicate nc (replicate nn 0%Z)) vs) as Hlen.
  destruct (foldl count_voxel _ vs) as [[cc cn] oc]. simpl in *.
  destruct Hfold as (_ & _ & Hoc). rewrite length_replicate in Hlen.
  assert (Hrow : ∀ i, i < nc → ∃ row, oc !! i = Some row ∧ oc !!! i = row).
  { intros i Hi. destruct (oc !! i) as [row|] eqn:Hrow.
    - exists row. split; [done|]. by apply list_lookup_total_correct.
    - apply lookup_ge_None in Hrow. lia. }
  split.
  - intros i Hi. destruct (Hrow i Hi) as (row & Hrow_i & ->).
    apply list_eq. intros j. specialize (Hoc i j). unfold oget in Hoc.
    rewrite Hrow_i in Hoc. simpl in Hoc. rewrite Hoc, list_lookup_fmap.
    case_decide as Hij.
    + rewrite lookup_seq_lt by lia. done.
    + rewrite lookup_seq_ge by lia. done.
  - intros j Hj. apply list_eq. intros i. unfold column.
    rewrite !list_lookup_fmap.
    destruct (decide (i < nc)) as [Hi|Hi].
    + destruct (Hrow i Hi) as (row & Hrow_i & _). rewrite Hrow_i. simpl.
      rewrite lookup_seq_lt by lia. simpl. f_equal.
      specialize (Hoc i j). unfold oget in Hoc. rewrite Hrow_i in Hoc.
      simpl in Hoc. rewrite decide_True in Hoc by done.
      by apply list_lookup_total_correct.
    + rewrite lookup_seq_ge by lia.
      rewrite (proj2 (lookup_ge_None oc i)) by lia. done.
Qed.

(** With the loop taken without its threads, the overlap invariant holds
    at every id whose count has not wrapped: on volumes of the same shape,
    the overlaps of a cell of fewer than 65536 voxels add up to no more than
    its count, and so do those of a nucleus of fewer than 65536 voxels. *)
Lemma overlap_invariant_without_wrap (cell_seg n_seg : vol nat)
    (cell_counts n_counts : list Z) (overlap_counts : list (list Z)) :
  same_shape cell_seg n_seg →
  numba_find_overlaps cell_seg n_seg = Ok (cell_counts, n_counts, overlap_counts) →
  (∀ i, i < length cell_counts →
        (Z.of_nat (cell_size cell_seg i) < 65536)%Z →
        cell_consistent cell_counts overlap_counts i)
  ∧ (∀ j, j < length n_counts →
          (Z.of_nat (nucleus_size n_seg j) < 65536)%Z →
          nucleus_consistent n_counts overlap_counts j).
Proof.
  intros Hshape Hrun.
  destruct (numba_find_overlaps_counts _ _ _ _ _ Hshape Hrun)
    as (cmax & nmax & Hcmax & Hnmax & Hlc & Hln & Hcc & Hcn & _ & Hc0 & Hn0 & _).
  unfold numba_find_overlaps in Hrun. rewrite Hcmax, Hnmax in Hrun.
  cbn [bind] in Hrun.
  pose proof (overlap_rows_columns (cmax + 1) (nmax + 1)
                (voxel_pairs cell_seg n_seg)) as Hrc.
  destruct (foldl count_voxel _ _) as [[cc cn] oc].
  injection Hrun as -> -> ->. simpl in Hrc. destruct Hrc as [Hrows Hcols].
  split.
  - intros i Hi Hsmall. unfold cell_consistent.
    rewrite Hrows by lia. split.
    + apply Forall_fmap, Forall_forall. intros j _. simpl.
      unfold counted. destruct (bool_decide _); [apply as_uint16_le|done].
    + destruct (decide (i = 0)) as [->|Hpos].
      * rewrite (list_lookup_total_correct _ _ _ Hc0).
        transitivity (sum_list_Z ((λ _, 0%Z) <$> seq 0 (nmax + 1))).
        -- apply sum_list_Z_mono. intros j.
           rewrite bool_decide_eq_false_2 by lia. done.
        -- clear. induction (seq 0 (nmax + 1)) as [|x l IH]; [done|].
           rewrite fmap_cons, sum_list_Z_cons. lia.
      * assert (Hi' : 0 < i ≤ cmax) by lia.
        rewrite (list_lookup_total_correct _ _ _ (Hcc i Hi')).
        rewrite as_uint16_small by done.
        etrans; [apply (sum_list_Z_mono _
                   (λ j, Z.of_nat (length (filter (λ v : nat * nat,
                                                     v.1 = i ∧ v.2 = j)
                                             (voxel_pairs cell_seg n_seg)))))|].
        { intros j. apply counted_le. }
        rewrite (sum_counts (λ j (v : nat * nat), v.1 = i ∧ v.2 = j));
          [|apply NoDup_seq|intros v j j' [_ <-] [_ <-]; done].
        rewrite (cell_size_voxel_pairs _ _ _ Hshape).
        apply inj_le, length_filter_mono. intros v Hv.
        apply Exists_exists in Hv as (j & _ & Hv). apply Hv.
  - intros j Hj Hsmall. unfold nucleus_consistent.
    rewrite Hcols by lia. split.
    + apply Forall_fmap, Forall_forall. intros i _. simpl.
      unfold counted. destruct (bool_decide _); [apply as_uint16_le|done].
    + destruct (decide (j = 0)) as [->|Hpos].
      * rewrite (list_lookup_total_correct _ _ _ Hn0).
        transitivity (sum_list_Z ((λ _, 0%Z) <$> seq 0 (cmax + 1))).
        -- apply sum_list_Z_mono. intros i.
           rewrite bool_decide_eq_false_2 by lia. done.
        -- clear. induction (seq 0 (cmax + 1)) as [|x l IH]; [done|].
           rewrite fmap_cons, sum_list_Z_cons. lia.
      * assert (Hj' : 0 < j ≤ nmax) by lia.
        rewrite (list_lookup_total_correct _ _ _ (Hcn j Hj')).
        rewrite as_uint16_small by done.
        etrans; [apply (sum_list_Z_mono _
                   (λ i, Z.of_nat (length (filter (λ v : nat * nat,
                                                     v.1 = i ∧ v.2 = j)
                                             (voxel_pairs cell_seg n_seg)))))|].
        { intros i. apply counted_le. }
        rewrite (sum_counts (λ i (v : nat * nat), v.1 = i ∧ v.2 = j));
          [|apply NoDup_seq|intros v i i' [<- _] [<- _]; done].
        rewrite (nucleus_size_voxel_pairs _ _ _ Hshape).
        apply inj_le, length_filter_mono. intros v Hv.
        apply Exists_exists in Hv as (i & _ & Hv). apply Hv.
Qed.

(** ** When the split returns *)

Lemma same_shape_sym {A B} (a : vol A) (b : vol B) :
  same_shape a b → same_shape b a.
Proof.
  unfold same_shape. intros Hab. apply Forall2_flip.
  eapply Forall2_impl; [exact Hab|]. intros pa pb Hp. apply Forall2_flip.
  eapply Forall2_impl; [exact Hp|]. intros r s Hrs. by symmetry.
Qed.

Lemma same_shape_trans {A B C} (a : vol A) (b : vol B) (c : vol C) :
  same_shape a b → same_shape b c → same_shape a c.
Proof.
  unfold same_shape. intros Hab. revert c.
  induction Hab as [|pa pb a b Hp _ IH]; intros c Hbc;
    inversion Hbc as [|? pc ? c' Hq Hbc']; subst; constructor; [|by apply IH].
  clear -Hp Hq. revert pc Hq.
  induction Hp as [|r s pa pb Hrs _ IHp]; intros pc Hq;
    inversion Hq as [|? t ? pc' Hst Hq']; subst; constructor;
    [congruence|by apply IHp].
Qed.

Lemma same_shape_vmap_l {A B C} (f : A → B) (a : vol A) (b : vol C) :
  same_shape a b → same_shape (vmap f a) b.
Proof.
  intros Hab. eapply same_shape_trans; [|exact Hab].
  unfold same_shape, vmap. clear.
  induction a as [|plane a IH]; simpl; constructor; [|exact IH].
  induction plane as [|row plane IHp]; simpl; constructor; [|exact IHp].
  by rewrite length_fmap.
Qed.

Lemma same_shape_refl {A} (a : vol A) : same_shape a a.
Proof.
  unfold same_shape. induction a as [|plane a IH]; constructor; [|exact IH].
  induction plane as [|row plane IHp]; constructor; done.
Qed.

Lemma same_shape_vzip_with {A B C} (f : A → B → C) (a : vol A) (b : vol B) :
  same_shape a b → same_shape (vzip_with f a b) a.
Proof.
  unfold same_shape, vzip_with.
  induction 1 as [|pa pb a b Hp _ IH]; simpl; constructor; [|exact IH].
  induction Hp as [|r s pa pb Hrs _ IHp]; simpl; constructor; [|exact IHp].
  rewrite length_zip_with. lia.
Qed.

Lemma same_shape_crop {A B} (bx : bbox) (a : vol A) (b : vol B) :
  same_shape a b → same_shape (crop bx a) (crop bx b).
Proof.
  destruct bx as [[sz sx] sy]. unfold same_shape, crop, apply_slice.
  intros Hab. rewrite (Forall2_length _ _ _ Hab).
  apply Forall2_fmap_2, Forall2_fmap_2, Forall2_take, Forall2_drop.
  eapply Forall2_impl; [exact Hab|]. intros pa pb Hp.
  rewrite (Forall2_length _ _ _ Hp).
  apply Forall2_fmap_2, Forall2_take, Forall2_drop.
  eapply Forall2_impl; [exact Hp|]. intros r s Hrs. cbv beta in *.
  rewrite !length_take, !length_drop, Hrs. done.
Qed.

Lemma same_shape_label_mask (a : vol nat) (all_idx : list nat) :
  all_idx ≠ [] → same_shape (logical_or_reduce (np_eq a <$> all_idx)) a.
Proof.
  destruct all_idx as [|idx ids]; [done|]. intros _. simpl.
  assert (Hgen : ∀ m : vol bool,
            same_shape m a →
            same_shape (foldl (vzip_with orb) m (np_eq a <$> ids)) a).
  { induction ids as [|idx' ids IH]; intros m Hm; simpl; [done|].
    apply IH. eapply same_shape_trans; [|exact Hm].
    apply same_shape_vzip_with. eapply same_shape_trans; [exact Hm|].
    apply same_shape_sym, same_shape_vmap_l, same_shape_refl. }
  apply Hgen, same_shape_vmap_l, same_shape_refl.
Qed.

Section SplitReturns.
Context (bits : nat).
Context {PVal : Type}.
Context (pval_max : list PVal → PVal) (pval_div : PVal → PVal → PVal).
Context (gaussian : vol PVal → vol PVal).
Context (watershed : vol PVal → vol nat → vol nat).

(** X15. [split_from_seeds] returns when some voxel carries a label of
    [all_idx], the box around these voxels cuts a non-empty piece out of
    the boundary map, the seeds have the shape of the segmentation and the
    flood returns an array of the shape of its markers. *)
Lemma split_from_seeds_returns (segmentation : vol nat)
    (boundary_pmap : vol PVal) (seeds : vol nat) (all_idx : list nat)
    (r : bbox * Z * Z * Z) :
  (∀ cost markers, same_shape (watershed cost markers) markers) →
  same_shape seeds segmentation →
  get_bbox (logical_or_reduce (np_eq segmentation <$> all_idx)) 0 = Ok r →
  ravel (crop r.1.1.1 boundary_pmap) ≠ [] →
  ∃ result,
    split_from_seeds bits pval_max pval_div gaussian watershed
      segmentation boundary_pmap seeds all_idx = Ok result.
Proof.
  intros Hflood Hseeds Hbox Hpmap. unfold split_from_seeds.
  rewrite Hbox. cbn [bind].
  assert (Hidx : all_idx ≠ []).
  { intros ->. simpl in Hbox. discriminate. }
  assert (Hmax : ∃ max_id, label_max (ravel segmentation) = Ok max_id).
  { destruct (ravel segmentation) as [|l ls] eqn:Hravel; [|by eexists].
    exfalso. unfold get_bbox in Hbox.
    destruct (nonzero _) as [|p ps] eqn:Hnz; [done|].
    assert (Hp : p ∈ nonzero (logical_or_reduce (np_eq segmentation <$> all_idx)))
      by (rewrite Hnz; by left).
    apply elem_of_nonzero, label_mask_true in Hp as (l & Hl & _).
    assert (Hin : l ∈ ravel segmentation) by (apply elem_of_ravel; eauto).
    rewrite Hravel in Hin. by apply not_elem_of_nil in Hin. }
  destruct Hmax as [max_id Hmax]. rewrite Hmax.
  unfold boundary_max.
  destruct (ravel (crop r.1.1.1 boundary_pmap)) as [|x xs] eqn:Hcrop; [done|].
  cbn [bind]. unfold setitem_bbox_mask.
  pose proof (same_shape_label_mask (crop r.1.1.1 segmentation) all_idx Hidx)
    as Hmask.
  rewrite decide_True.
  - rewrite decide_True by done. by eexists.
  - eapply same_shape_trans; [exact Hmask|].
    apply same_shape_sym, same_shape_vmap_l, same_shape_vmap_l.
    eapply same_shape_trans; [apply Hflood|]. by apply same_shape_crop.
Qed.

End SplitReturns.

(** * Further properties of the code *)

(** ** [get_bbox]: where the box lies *)

Lemma foldl_min_spec (l : list Z) (x : Z) :
  (∀ y, y ∈ x :: l → foldl Z.min x l ≤ y)%Z ∧ foldl Z.min x l ∈ x :: l.
Proof.
  revert x. induction l as [|a l IH]; intros x; simpl.
  - split; [|by left]. intros y Hy. apply list_elem_of_singleton in Hy. lia.
  - destruct (IH (Z.min x a)) as [Hle Hin]. split.
    + intros y Hy. apply elem_of_cons in Hy as [->|Hy].
      * etrans; [apply Hle; by left|]. lia.
      * apply elem_of_cons in Hy as [->|Hy].
        -- etrans; [apply Hle; by left|]. lia.
        -- apply Hle. by right.
    + apply elem_of_cons in Hin as [Hin|Hin].
      * rewrite Hin. destruct (Z.min_spec x a) as [[_ ->]|[_ ->]];
          [by left|by right; left].
      * by do 2 right.
Qed.

Lemma foldl_max_spec (l : list Z) (x : Z) :
  (∀ y, y ∈ x :: l → y ≤ foldl Z.max x l)%Z ∧ foldl Z.max x l ∈ x :: l.
Proof.
  revert x. induction l as [|a l IH]; intros x; simpl.
  - split; [|by left]. intros y Hy. apply list_elem_of_singleton in Hy. lia.
  - destruct (IH (Z.max x a)) as [Hle Hin]. split.
    + intros y Hy. apply elem_of_cons in Hy as [->|Hy].
      * etrans; [|apply Hle; by left]. lia.
      * apply elem_of_cons in Hy as [->|Hy].
        -- etrans; [|apply Hle; by left]. lia.
        -- apply Hle. by right.
    + apply elem_of_cons in Hin as [Hin|Hin].
      * rewrite Hin. destruct (Z.max_spec x a) as [[_ ->]|[_ ->]];
          [by right; left|by left].
      * by do 2 right.
Qed.

(** [min()] and [max()] of the coordinates of a non-empty selection along
    one axis. *)
Lemma axis_min_max (axis : index3 → Z) (coords : list index3) :
  coords ≠ [] →
  ∃ lo hi,
    np_min (axis <$> coords) = Ok lo ∧ np_max (axis <$> coords) = Ok hi
    ∧ (∀ p, p ∈ coords → lo ≤ axis p ≤ hi)%Z
    ∧ (∃ p, p ∈ coords ∧ axis p = lo)
    ∧ (∃ p, p ∈ coords ∧ axis p = hi).
Proof.
  destruct coords as [|p0 ps]; [done|]. intros _. rewrite fmap_cons.
  destruct (foldl_min_spec (axis <$> ps) (axis p0)) as [Hmin Hmin_in].
  destruct (foldl_max_spec (axis <$> ps) (axis p0)) as [Hmax Hmax_in].
  eexists _, _. split; [done|]. split; [done|]. split_and!.
  - intros p Hp. split.
    + apply Hmin. rewrite <-fmap_cons. by apply list_elem_of_fmap_2.
    + apply Hmax. rewrite <-fmap_cons. by apply list_elem_of_fmap_2.
  - rewrite <-fmap_cons in Hmin_in.
    apply list_elem_of_fmap in Hmin_in as (p & Hp & Hin). eauto.
  - rewrite <-fmap_cons in Hmax_in.
    apply list_elem_of_fmap in Hmax_in as (p & Hp & Hin). eauto.
Qed.

(** What [get_bbox] returns on a mask with a true voxel, in terms of the
    least and greatest coordinates of the true voxels. *)
Lemma get_bbox_returns (mask : vol bool) (pixel_toll : Z) :
  nonzero mask ≠ [] →
  ∃ zlo zhi xlo xhi ylo yhi,
    axis_range axis0 (nonzero mask) zlo zhi
    ∧ axis_range axis1 (nonzero mask) xlo xhi
    ∧ axis_range axis2 (nonzero mask) ylo yhi
    ∧ get_bbox mask pixel_toll
      = Ok ((Slice (Z.max (zlo - pixel_toll) 0)
               (if decide (Z.min (zhi + pixel_toll)
                             (Z.of_nat (shape mask).1.1)
                           - Z.max (zlo - pixel_toll) 0 > 0)%Z
                then Z.min (zhi + pixel_toll) (Z.of_nat (shape mask).1.1)
                else 1%Z),
             Slice (Z.max (xlo - pixel_toll) 0)
               (Z.min (xhi + pixel_toll) (Z.of_nat (shape mask).1.2)),
             Slice (Z.max (ylo - pixel_toll) 0)
               (Z.min (yhi + pixel_toll) (Z.of_nat (shape mask).2))),
            Z.max (zlo - pixel_toll) 0,
            Z.max (xlo - pixel_toll) 0,
            Z.max (ylo - pixel_toll) 0).
Proof.
  intros Hne.
  destruct (axis_min_max axis0 _ Hne) as (zlo & zhi & Hz1 & Hz2 & Hz).
  destruct (axis_min_max axis1 _ Hne) as (xlo & xhi & Hx1 & Hx2 & Hx).
  destruct (axis_min_max axis2 _ Hne) as (ylo & yhi & Hy1 & Hy2 & Hy).
  exists zlo, zhi, xlo, xhi, ylo, yhi. split; [exact Hz|].
  split; [exact Hx|]. split; [exact Hy|].
  unfold get_bbox. rewrite Hz1, Hz2, Hx1, Hx2, Hy1, Hy2. reflexivity.
Qed.

Lemma true_voxel_nonzero (mask : vol bool) :
  true ∈ ravel mask → nonzero mask ≠ [].
Proof.
  intros Hin Hnil. apply elem_of_ravel in Hin as (p & Hp).
  by apply (proj1 (nonzero_nil mask) Hnil p).
Qed.

(** X1. With a non-negative tolerance, [get_bbox] returns on every mask
    that has a true voxel.  The three offsets it returns are the lower
    bounds of the three slices; no bound is negative, so no slice is read
    from the end of its axis; on axes 1 and 2 the upper bound does not
    exceed the extent of the array; and the lower bounds lie at or below
    the coordinates of every true voxel. *)
Theorem get_bbox_bounds (mask : vol bool) (pixel_toll : Z) :
  (0 ≤ pixel_toll)%Z → true ∈ ravel mask →
  ∃ sz sx sy,
    get_bbox mask pixel_toll = Ok ((sz, sx, sy), start sz, start sx, start sy)
    ∧ (0 ≤ start sz ∧ 0 ≤ stop sz ∧ 0 ≤ start sx ∧ 0 ≤ stop sx
       ∧ 0 ≤ start sy ∧ 0 ≤ stop sy)%Z
    ∧ (stop sx ≤ Z.of_nat (shape mask).1.2)%Z
    ∧ (stop sy ≤ Z.of_nat (shape mask).2)%Z
    ∧ ∀ p, vget mask p = Some true →
           (start sz ≤ axis0 p ∧ start sx ≤ axis1 p ∧ start sy ≤ axis2 p)%Z.
Proof.
  intros Htol Htrue.
  destruct (get_bbox_returns mask pixel_toll (true_voxel_nonzero _ Htrue))
    as (zlo & zhi & xlo & xhi & ylo & yhi & Hz & Hx & Hy & Hbox).
  eexists _, _, _. split; [exact Hbox|]. cbn [start stop].
  destruct Hz as (Hz & (pz & _ & Hzlo) & (pz' & _ & Hzhi)).
  destruct Hx as (Hx & (px & _ & Hxlo) & (px' & _ & Hxhi)).
  destruct Hy as (Hy & (py & _ & Hylo) & (py' & _ & Hyhi)).
  unfold axis0, axis1, axis2 in *.
  split_and!; try lia.
  - case_decide; lia.
  - intros p Hp. apply elem_of_nonzero in Hp.
    specialize (Hz p Hp). specialize (Hx p Hp). specialize (Hy p Hp). lia.
Qed.

Lemma get_bbox_bounds_witness :
  ∃ sz sx sy,
    get_bbox mask_333 1 = Ok ((sz, sx, sy), start sz, start sx, start sy)
    ∧ (0 ≤ start sz ∧ 0 ≤ stop sz ∧ 0 ≤ start sx ∧ 0 ≤ stop sx
       ∧ 0 ≤ start sy ∧ 0 ≤ stop sy)%Z.
Proof.
  destruct (get_bbox_bounds mask_333 1) as (sz & sx & sy & Hbox & Hpos & _).
  - lia.
  - by_compute.
  - by exists sz, sx, sy.
Defined.

Lemma vget_inv {A} (v : vol A) (i j k : nat) (a : A) :
  vget v (i, j, k) = Some a →
  ∃ plane row,
    v !! i = Some plane ∧ plane !! j = Some row ∧ row !! k = Some a
    ∧ i < length v ∧ j < length plane ∧ k < length row.
Proof.
  unfold vget. intros Hget.
  destruct (v !! i) as [plane|] eqn:Hi; simpl in Hget; [|done].
  destruct (plane !! j) as [row|] eqn:Hj; simpl in Hget; [|done].
  exists plane, row. split_and!; try done; by eapply lookup_lt_Some.
Qed.

Lemma rectangular_lookup {A} (v : vol A) (i j : nat) (plane : list (list A))
    (row : list A) :
  rectangular v → v !! i = Some plane → plane !! j = Some row →
  length plane = (shape v).1.2 ∧ length row = (shape v).2.
Proof.
  unfold rectangular. rewrite Forall_lookup. intros Hrect Hi Hj.
  destruct (Hrect i plane Hi) as [Hplane Hrows]. split; [done|].
  rewrite Forall_lookup in Hrows. by apply (Hrows j row).
Qed.

Lemma in_slice_inside (s : slice) (n i : nat) :
  (0 ≤ start s ≤ Z.of_nat i)%Z → (Z.of_nat i < stop s)%Z → i < n →
  in_slice s n i = Some (i - Z.to_nat (start s)).
Proof.
  intros Hlo Hhi Hn. unfold in_slice, slice_lo, slice_hi, norm_bound.
  rewrite (decide_False (P := (start s < 0)%Z)) by lia.
  rewrite (decide_False (P := (stop s < 0)%Z)) by lia.
  rewrite decide_True by lia. f_equal. lia.
Qed.

Lemma in_slice_outside (s : slice) (n i : nat) :
  (0 ≤ stop s ≤ Z.of_nat i)%Z → in_slice s n i = None.
Proof.
  intros Hhi. unfold in_slice, slice_lo, slice_hi, norm_bound.
  rewrite (decide_False (P := (stop s < 0)%Z)) by lia.
  rewrite decide_False; [done|]. lia.
Qed.

(** X2. With a tolerance of at least one voxel, the box that [get_bbox]
    returns for a rectangular mask contains every true voxel of the mask,
    and the position of the voxel inside the box is its index less the
    three offsets. *)
Theorem get_bbox_covers (mask : vol bool) (pixel_toll : Z) (b : bbox)
    (z_min x_min y_min : Z) (p : index3) :
  (1 ≤ pixel_toll)%Z → rectangular mask →
  get_bbox mask pixel_toll = Ok (b, z_min, x_min, y_min) →
  vget mask p = Some true →
  in_bbox b mask p
  = Some (Z.to_nat (axis0 p - z_min), Z.to_nat (axis1 p - x_min),
          Z.to_nat (axis2 p - y_min)).
Proof.
  intros Htol Hrect Hbox Hp.
  assert (Hne : nonzero mask ≠ []).
  { intros Hnil. by apply (proj1 (nonzero_nil mask) Hnil p). }
  destruct (get_bbox_returns mask pixel_toll Hne)
    as (zlo & zhi & xlo & xhi & ylo & yhi & Hz & Hx & Hy & Hbox').
  rewrite Hbox' in Hbox. injection Hbox as <- <- <- <-.
  destruct Hz as (Hz & (pz & _ & Hzlo) & _).
  destruct Hx as (Hx & (px & _ & Hxlo) & _).
  destruct Hy as (Hy & (py & _ & Hylo) & _).
  pose proof (proj2 (elem_of_nonzero mask p) Hp) as Hin.
  specialize (Hz p Hin). specialize (Hx p Hin). specialize (Hy p Hin).
  destruct p as [[i j] k].
  destruct (vget_inv _ _ _ _ _ Hp) as (plane & row & Hi & Hj & Hk & Hli & Hlj & Hlk).
  destruct (rectangular_lookup _ _ _ _ _ Hrect Hi Hj) as [Hplane Hrow].
  unfold axis0, axis1, axis2, shape in *. cbn [fst snd] in *.
  unfold in_bbox. rewrite Hi. cbn [mbind option_bind]. rewrite Hj.
  cbn [mbind option_bind].
  rewrite (in_slice_inside _ (length mask) i); cbn [start stop];
    [|lia|case_decide; lia|lia].
  cbn [mbind option_bind].
  rewrite (in_slice_inside _ (length plane) j); cbn [start stop];
    [|lia|lia|lia].
  cbn [mbind option_bind].
  rewrite (in_slice_inside _ (length row) k); cbn [start stop];
    [|lia|lia|lia].
  cbn [mbind option_bind]. do 2 f_equal; [f_equal|]; lia.
Qed.

Lemma get_bbox_covers_witness :
  ∃ b z_min x_min y_min,
    get_bbox mask_333 1 = Ok (b, z_min, x_min, y_min)
    ∧ in_bbox b mask_333 (1, 1, 2) = Some (1, 1, 2).
Proof.
  assert (Hbox : get_bbox mask_333 1
                 = Ok ((Slice 0 2, Slice 0 2, Slice 0 3), 0, 0, 0)%Z)
    by (vm_compute; reflexivity).
  eexists _, _, _, _. split; [exact Hbox|].
  apply (get_bbox_covers mask_333 1 _ 0 0 0 (1, 1, 2)); [lia|by_compute|done..].
Defined.

(** A true voxel at the greatest coordinate of the mask along axis 1 or
    axis 2, or along axis 0 when that coordinate is not 0, lies outside the
    box of the mask in any array it indexes. *)
Lemma bbox_excludes_last {A} (mask : vol bool) (a : vol A) (b : bbox)
    (z_min x_min y_min : Z) (p : index3) :
  get_bbox mask 0 = Ok (b, z_min, x_min, y_min) →
  vget mask p = Some true →
  (∀ q, vget mask q = Some true → axis1 q ≤ axis1 p)%Z
  ∨ (∀ q, vget mask q = Some true → axis2 q ≤ axis2 p)%Z
  ∨ ((∀ q, vget mask q = Some true → axis0 q ≤ axis0 p)%Z ∧ (1 ≤ axis0 p)%Z) →
  in_bbox b a p = None.
Proof.
  intros Hbox Hp Hlast.
  assert (Hne : nonzero mask ≠ []).
  { intros Hnil. by apply (proj1 (nonzero_nil mask) Hnil p). }
  destruct (get_bbox_returns mask 0 Hne)
    as (zlo & zhi & xlo & xhi & ylo & yhi & Hz & Hx & Hy & Hbox').
  rewrite Hbox' in Hbox. injection Hbox as <- <- <- <-.
  destruct Hz as (Hz & (pz & _ & Hzlo) & (pz' & Hpz' & Hzhi)).
  destruct Hx as (Hx & _ & (px' & Hpx' & Hxhi)).
  destruct Hy as (Hy & _ & (py' & Hpy' & Hyhi)).
  apply elem_of_nonzero in Hpz', Hpx', Hpy'.
  pose proof (proj2 (elem_of_nonzero mask p) Hp) as Hin.
  specialize (Hz p Hin). specialize (Hx p Hin). specialize (Hy p Hin).
  destruct p as [[i j] k].
  unfold axis0, axis1, axis2, shape in *. cbn [fst snd] in *.
  unfold in_bbox.
  destruct (a !! i) as [plane|]; cbn [mbind option_bind]; [|done].
  destruct (plane !! j) as [row|]; cbn [mbind option_bind]; [|done].
  destruct Hlast as [Hlast|[Hlast|[Hlast Hpos]]].
  - specialize (Hlast _ Hpx').
    rewrite (in_slice_outside _ (length plane) j); cbn [start stop]; [|lia].
    by destruct (in_slice _ (length a) i).
  - specialize (Hlast _ Hpy').
    rewrite (in_slice_outside _ (length row) k); cbn [start stop]; [|lia].
    destruct (in_slice _ (length a) i); [|done].
    by destruct (in_slice _ (length plane) j).
  - specialize (Hlast _ Hpz').
    rewrite (in_slice_outside _ (length a) i); cbn [start stop]; [done|].
    case_decide; lia.
Qed.

(** X3. With tolerance 0 the upper bound of each slice is the greatest
    coordinate of the true voxels, which the slice excludes: a true voxel
    at the greatest coordinate along axis 1 or along axis 2 lies outside
    the box, and so does one at the greatest coordinate along axis 0 when
    that coordinate is not 0. *)
Theorem get_bbox_excludes_last (mask : vol bool) (b : bbox)
    (z_min x_min y_min : Z) (p : index3) :
  get_bbox mask 0 = Ok (b, z_min, x_min, y_min) →
  vget mask p = Some true →
  (∀ q, vget mask q = Some true → axis1 q ≤ axis1 p)%Z
  ∨ (∀ q, vget mask q = Some true → axis2 q ≤ axis2 p)%Z
  ∨ ((∀ q, vget mask q = Some true → axis0 q ≤ axis0 p)%Z ∧ (1 ≤ axis0 p)%Z) →
  in_bbox b mask p = None.
Proof. apply bbox_excludes_last. Qed.

Lemma get_bbox_excludes_last_witness :
  ∃ b z_min x_min y_min,
    get_bbox mask_333 0 = Ok (b, z_min, x_min, y_min)
    ∧ in_bbox b mask_333 (1, 1, 2) = None.
Proof.
  assert (Hbox : get_bbox mask_333 0
                 = Ok ((Slice 1 1, Slice 1 1, Slice 1 2), 1, 1, 1)%Z)
    by (vm_compute; reflexivity).
  eexists _, _, _, _. split; [exact Hbox|].
  apply (get_bbox_excludes_last mask_333 _ 1 1 1 (1, 1, 2) Hbox);
    [reflexivity|].
  right. left. intros [[i j] k] Hq.
  assert (Hin : (i, j, k) ∈ nonzero mask_333) by by apply elem_of_nonzero.
  vm_compute in Hin. apply elem_of_cons in Hin as [[= -> -> ->]|Hin].
  - vm_compute. discriminate.
  - apply list_elem_of_singleton in Hin as [= -> -> ->]. vm_compute. discriminate.
Defined.

(** ** [get_quantile_mask]: what it keeps *)

Lemma Qltb_lt (x y : Q) : Qltb x y = true ↔ (x < y)%Q.
Proof. unfold Qltb, Qlt. apply Z.ltb_lt. Qed.

Lemma Qltb_ge (x y : Q) : (y <= x)%Q → Qltb x y = false.
Proof.
  intros Hle. destruct (Qltb x y) eqn:Hlt; [|done].
  apply Qltb_lt in Hlt. exfalso. by apply (Qlt_not_le x y).
Qed.

Lemma interpolation_between (qm qM qlo qhi g : Q) :
  (qm <= qlo <= qM → qm <= qhi <= qM → 0 <= g <= 1 →
   qm <= qlo + (qhi - qlo) * g <= qM)%Q.
Proof.
  intros [Hlo1 Hlo2] [Hhi1 Hhi2] [Hg0 Hg1].
  assert (H1 : (0 <= (qlo - qm) * (1 - g))%Q)
    by (apply Qmult_le_0_compat; lra).
  assert (H2 : (0 <= (qhi - qm) * g)%Q) by (apply Qmult_le_0_compat; lra).
  assert (H3 : (0 <= (qM - qlo) * (1 - g))%Q)
    by (apply Qmult_le_0_compat; lra).
  assert (H4 : (0 <= (qM - qhi) * g)%Q) by (apply Qmult_le_0_compat; lra).
  pose proof (Qplus_le_compat 0 _ 0 _ H1 H2) as Hlow.
  pose proof (Qplus_le_compat 0 _ 0 _ H3 H4) as Hup.
  split; apply Qle_minus_iff.
  - eapply Qle_trans; [exact Hlow|]. apply Qle_lteq. right. ring.
  - eapply Qle_trans; [exact Hup|]. apply Qle_lteq. right. ring.
Qed.

Lemma clip_index_lookup (a : list Z) (z m M : Z) :
  a ≠ [] →
  (∀ x, x ∈ a → m ≤ x ≤ M)%Z →
  (inject_Z m <= inject_Z (merge_sort Z.le a !!! clip_index z (length a))
   <= inject_Z M)%Q.
Proof.
  intros Hne Hbound. rewrite <-!Zle_Qle. apply Hbound.
  apply (elem_of_Permutation_proper _ _ _ (merge_sort_Permutation Z.le a)).
  apply list_elem_of_lookup_total_2.
  rewrite (Permutation_length (merge_sort_Permutation Z.le a)).
  unfold clip_index. destruct a; [done|]. cbn [length]. lia.
Qed.

(** The quantile of a non-empty array lies between any lower and any upper
    bound of its entries. *)
Lemma np_quantile_between (a : list Z) (q : Q) (m M : Z) (v : fval) :
  a ≠ [] →
  (∀ x, x ∈ a → m ≤ x ≤ M)%Z →
  np_quantile a q = Ok v →
  ∃ r, v = Fin r ∧ (inject_Z m <= r <= inject_Z M)%Q.
Proof.
  intros Hne Hbound. unfold np_quantile.
  destruct (Qle_bool 0 q && Qle_bool q 1); [|done].
  destruct a as [|x0 a'] eqn:Ha; [done|]. rewrite <-Ha in *.
  intros [= <-]. eexists. split; [done|]. rewrite Qred_correct.
  apply interpolation_between; try by apply clip_index_lookup.
  set (vi := (inject_Z (Z.of_nat (length a) - 1) * q)%Q).
  pose proof (Qfloor_le vi) as Hfl. pose proof (Qlt_floor vi) as Hfu.
  rewrite inject_Z_plus in Hfu. change (inject_Z 1) with 1%Q in Hfu.
  change (0 <= vi - inject_Z (Qfloor vi) <= 1)%Q.
  generalize dependent (inject_Z (Qfloor vi)).
  generalize dependent vi. intros; split; lra.
Qed.

Lemma np_quantile_valid (a : list Z) (q : Q) :
  a ≠ [] → (0 <= q <= 1)%Q → ∃ v, np_quantile a q = Ok v.
Proof.
  intros Ha [H0 H1]. unfold np_quantile.
  rewrite (proj2 (Qle_bool_iff 0 q) H0), (proj2 (Qle_bool_iff q 1) H1).
  destruct a; [done|by eexists].
Qed.

Lemma np_quantile_invalid (a : list Z) (q : Q) :
  ¬ (0 <= q <= 1)%Q → np_quantile a q = Raise ValueError_quantile.
Proof.
  intros Hq. unfold np_quantile.
  destruct (Qle_bool 0 q) eqn:H0, (Qle_bool q 1) eqn:H1; try done.
  destruct Hq. split; by apply Qle_bool_iff.
Qed.

Lemma get_quantile_mask_invalid (counts : list Z) (quantile : Q * Q) :
  counts ≠ [] →
  ¬ ((0 <= quantile.1 <= 1)%Q ∧ (0 <= quantile.2 <= 1)%Q) →
  get_quantile_mask counts quantile = Raise ValueError_quantile.
Proof.
  unfold get_quantile_mask. intros Hne Hq.
  destruct (Qle_bool 0 quantile.1 && Qle_bool quantile.1 1) eqn:Hlow.
  - apply andb_prop in Hlow as [H0 H1]. apply Qle_bool_iff in H0, H1.
    destruct (np_quantile_valid counts quantile.1) as [v1 ->]; [done..|].
    cbn [bind]. rewrite np_quantile_invalid; [done|]. tauto.
  - unfold np_quantile at 1. by rewrite Hlow.
Qed.

(** X4. On an array of counts with an entry, [get_quantile_mask] returns a
    mask with one entry per count when both quantile fractions lie in
    [0, 1], and raises the [ValueError] of [np.quantile] when one of them
    does not.  On an array without entry it raises: the [ValueError] when
    the first fraction is not in [0, 1], and otherwise the [IndexError] of
    the first [np.quantile], whatever the second fraction. *)
Theorem get_quantile_mask_defined (counts : list Z) (quantile : Q * Q) :
  (counts ≠ [] →
   ((0 <= quantile.1 <= 1)%Q ∧ (0 <= quantile.2 <= 1)%Q →
    ∃ mask, get_quantile_mask counts quantile = Ok mask
            ∧ length mask = length counts)
   ∧ (¬ ((0 <= quantile.1 <= 1)%Q ∧ (0 <= quantile.2 <= 1)%Q) →
      get_quantile_mask counts quantile = Raise ValueError_quantile))
  ∧ (counts = [] →
     ((0 <= quantile.1 <= 1)%Q →
      get_quantile_mask counts quantile = Raise IndexError_empty_quantile)
     ∧ (¬ (0 <= quantile.1 <= 1)%Q →
        get_quantile_mask counts quantile = Raise ValueError_quantile)).
Proof.
  split.
  - intros Hne. split; [|by apply get_quantile_mask_invalid].
    unfold get_quantile_mask. intros [Hlow Hup].
    destruct (np_quantile_valid counts _ Hne Hlow) as [v1 ->].
    destruct (np_quantile_valid counts _ Hne Hup) as [v2 ->]. cbn [bind].
    eexists. split; [done|].
    rewrite length_zip_with, !length_fmap. lia.
  - intros ->. unfold get_quantile_mask. split.
    + intros [H0 H1]. unfold np_quantile at 1.
      by rewrite (proj2 (Qle_bool_iff 0 _) H0), (proj2 (Qle_bool_iff _ 1) H1).
    + intros Hq. by rewrite np_quantile_invalid.
Qed.

Lemma get_quantile_mask_defined_witness :
  (∃ mask, get_quantile_mask scenario_nuclei_counts (3 # 10, 99 # 100)%Q
           = Ok mask ∧ length mask = 3)
  ∧ get_quantile_mask scenario_nuclei_counts (3 # 10, 3 # 2)%Q
    = Raise ValueError_quantile
  ∧ get_quantile_mask [] (3 # 10, 3 # 2)%Q = Raise IndexError_empty_quantile
  ∧ get_quantile_mask [] (3 # 2, 3 # 10)%Q = Raise ValueError_quantile.
Proof.
  split_and!.
  - apply (proj1 (proj1 (get_quantile_mask_defined scenario_nuclei_counts
                           (3 # 10, 99 # 100)%Q) ltac:(done))).
    split; split; by apply Qle_bool_iff.
  - apply (proj2 (proj1 (get_quantile_mask_defined scenario_nuclei_counts
                           (3 # 10, 3 # 2)%Q) ltac:(done))).
    intros [_ [_ Hle]]. by apply Qle_bool_iff in Hle.
  - apply (proj1 (proj2 (get_quantile_mask_defined [] (3 # 10, 3 # 2)%Q)
                    eq_refl)).
    split; by apply Qle_bool_iff.
  - apply (proj2 (proj2 (get_quantile_mask_defined [] (3 # 2, 3 # 10)%Q)
                    eq_refl)).
    intros [_ Hle]. by apply Qle_bool_iff in Hle.
Defined.

(** X5. Whatever the two quantile fractions, the mask of
    [get_quantile_mask] is false at every entry that equals the least count
    and at every entry that equals the greatest count: both comparisons
    are strict and a quantile lies between the two. *)
Theorem get_quantile_mask_drops_extremes (counts : list Z) (quantile : Q * Q)
    (mask : list bool) (i : nat) (c : Z) :
  get_quantile_mask counts quantile = Ok mask →
  counts !! i = Some c →
  (∀ x, x ∈ counts → c ≤ x)%Z ∨ (∀ x, x ∈ counts → x ≤ c)%Z →
  mask !! i = Some false.
Proof.
  unfold get_quantile_mask. intros Hrun Hi Hext.
  assert (Hne : counts ≠ []) by (intros ->; done).
  destruct (np_quantile counts quantile.1) as [q_low|] eqn:Hlow;
    cbn [bind] in Hrun; [|done].
  destruct (np_quantile counts quantile.2) as [q_up|] eqn:Hup;
    cbn [bind] in Hrun; [|done].
  injection Hrun as <-.
  rewrite lookup_zip_with, !list_lookup_fmap, Hi. cbn. f_equal.
  unfold of_count, fval_gtb.
  destruct Hext as [Hmin|Hmax].
  - destruct (foldl_max_spec counts c) as [Hmax _].
    destruct (np_quantile_between counts _ c (foldl Z.max c counts) _ Hne
                ltac:(intros x Hx; split; [by apply Hmin|apply Hmax; by right])
                Hlow) as (r & -> & Hr & _).
    cbn. by rewrite Qltb_ge.
  - destruct (foldl_min_spec counts c) as [Hmin _].
    destruct (np_quantile_between counts _ (foldl Z.min c counts) c _ Hne
                ltac:(intros x Hx; split; [apply Hmin; by right|by apply Hmax])
                Hup) as (r & -> & _ & Hr).
    cbn. rewrite (Qltb_ge (inject_Z c) r) by done. apply andb_false_r.
Qed.

Lemma get_quantile_mask_drops_extremes_witness :
  get_quantile_mask [5; 1; 3; 9; 9; 4]%Z (0, 1)%Q
  = Ok [true; false; true; false; false; true]
  ∧ [true; false; true; false; false; true] !! 1 = Some false
  ∧ [true; false; true; false; false; true] !! 4 = Some false.
Proof.
  assert (Hmask : get_quantile_mask [5; 1; 3; 9; 9; 4]%Z (0, 1)%Q
                  = Ok [true; false; true; false; false; true])
    by (vm_compute; reflexivity).
  split; [exact Hmask|]. split.
  - apply (get_quantile_mask_drops_extremes _ _ _ 1 1%Z Hmask eq_refl).
    left. apply (proj1 (Forall_forall _ _)). by_compute.
  - apply (get_quantile_mask_drops_extremes _ _ _ 4 9%Z Hmask eq_refl).
    right. apply (proj1 (Forall_forall _ _)). by_compute.
Defined.

(** X6. With two equal quantile fractions the mask keeps nothing: no count
    is both above and below the same quantile. *)
Theorem get_quantile_mask_equal_quantiles (counts : list Z) (q : Q)
    (mask : list bool) :
  get_quantile_mask counts (q, q) = Ok mask → Forall (λ b, b = false) mask.
Proof.
  unfold get_quantile_mask. cbn [fst snd].
  destruct (np_quantile counts q) as [v|]; cbn [bind]; [|done].
  intros [= <-]. apply Forall_lookup. intros i b.
  rewrite lookup_zip_with, !list_lookup_fmap.
  destruct (counts !! i) as [c|]; cbn; [|done]. intros [= <-].
  unfold fval_gtb, of_count. destruct v as [r| | |]; cbn; try done.
  destruct (Qltb r (inject_Z c)) eqn:H1; [|done].
  apply Qltb_lt in H1. cbn. apply Qltb_ge. by apply Qlt_le_weak.
Qed.

Lemma get_quantile_mask_equal_quantiles_witness :
  get_quantile_mask scenario_nuclei_counts (1 # 2, 1 # 2)%Q
  = Ok [false; false; false]
  ∧ Forall (λ b, b = false) [false; false; false].
Proof.
  assert (Hrun : get_quantile_mask scenario_nuclei_counts (1 # 2, 1 # 2)%Q
                 = Ok [false; false; false]) by (vm_compute; reflexivity).
  split; [exact Hrun|].
  exact (get_quantile_mask_equal_quantiles _ _ _ Hrun).
Defined.

(** ** [numba_find_overlaps]: the arrays it returns *)

Lemma counted_range (P : nat * nat → Prop) `{∀ v, Decision (P v)}
    (positive : bool) (vs : list (nat * nat)) :
  (0 ≤ counted P positive vs < 65536)%Z.
Proof.
  unfold counted, as_uint16. destruct positive; [|lia].
  apply Z.mod_pos_bound. lia.
Qed.

Lemma length_of_lookup {A} (l : list A) (n : nat) :
  (∀ i, is_Some (l !! i) ↔ i < n) → length l = n.
Proof.
  intros Hl. destruct (decide (length l < n)) as [Hlt|Hge].
  - apply Hl in Hlt. apply lookup_lt_is_Some in Hlt. lia.
  - destruct (decide (n < length l)) as [Hgt|]; [|lia].
    apply lookup_lt_is_Some, Hl in Hgt. lia.
Qed.

Lemma fmap_const_replicate {A B} (f : A → B) (l : list A) (b : B) :
  (∀ x, f x = b) → f <$> l = replicate (length l) b.
Proof.
  intros Hf. induction l as [|x l IH]; [done|].
  rewrite fmap_cons, Hf, IH. done.
Qed.

(** The counters after the loop, by id. *)
Lemma numba_find_overlaps_counted (cell_seg n_seg : vol nat)
    (cell_counts n_counts : list Z) (overlap_counts : list (list Z)) :
  numba_find_overlaps cell_seg n_seg
    = Ok (cell_counts, n_counts, overlap_counts) →
  ∃ cmax nmax,
    label_max (ravel cell_seg) = Ok cmax ∧ label_max (ravel n_seg) = Ok nmax
    ∧ (∀ i, cell_counts !! i =
            if decide (i < S cmax)
            then Some (counted (λ v, v.1 = i) (bool_decide (0 < i))
                         (voxel_pairs cell_seg n_seg))
            else None)
    ∧ (∀ j, n_counts !! j =
            if decide (j < S nmax)
            then Some (counted (λ v, v.2 = j) (bool_decide (0 < j))
                         (voxel_pairs cell_seg n_seg))
            else None)
    ∧ length overlap_counts = S cmax
    ∧ (∀ i, i < S cmax →
            overlap_counts !!! i
            = (λ j, counted (λ v, v.1 = i ∧ v.2 = j)
                      (bool_decide (0 < i ∧ 0 < j))
                      (voxel_pairs cell_seg n_seg)) <$> seq 0 (S nmax))
    ∧ (∀ j, j < S nmax →
            column overlap_counts j
            = (λ i, counted (λ v, v.1 = i ∧ v.2 = j)
                      (bool_decide (0 < i ∧ 0 < j))
                      (voxel_pairs cell_seg n_seg)) <$> seq 0 (S cmax)).
Proof.
  unfold numba_find_overlaps.
  destruct (label_max (ravel cell_seg)) as [cmax|]; cbn [bind]; [|done].
  destruct (label_max (ravel n_seg)) as [nmax|]; cbn [bind]; [|done].
  intros Hrun. exists cmax, nmax.
  pose proof (foldl_count_voxel (cmax + 1) (nmax + 1)
                (voxel_pairs cell_seg n_seg)) as Hfold.
  pose proof (overlap_rows_columns (cmax + 1) (nmax + 1)
                (voxel_pairs cell_seg n_seg)) as Hrc.
  pose proof (foldl_count_voxel_length
                (replicate (cmax + 1) 0%Z, replicate (nmax + 1) 0%Z,
                 replicate (cmax + 1) (replicate (nmax + 1) 0%Z))
                (voxel_pairs cell_seg n_seg)) as Hlen.
  destruct (foldl count_voxel _ _) as [[cc cn] oc].
  injection Hrun as -> -> ->. cbn [fst snd] in *.
  destruct Hfold as (Hcc & Hcn & _). destruct Hrc as [Hrows Hcols].
  rewrite length_replicate in Hlen.
  replace (cmax + 1) with (S cmax) in * by lia.
  replace (nmax + 1) with (S nmax) in * by lia.
  done.
Qed.

(** X7. On volumes of the same shape, the three arrays
    [numba_find_overlaps] returns have an entry per
    id from 0 to the greatest label of the cell volume, resp. of the nuclei
    volume, and the overlap array a row per cell id and a column per
    nucleus id.  The background is never counted: entry 0 of both count
    arrays, row 0 and column 0 of the overlap array are zero, however many
    voxels carry label 0.  Every counter is a [uint16] value. *)
Theorem numba_find_overlaps_arrays (cell_seg n_seg : vol nat)
    (cell_counts n_counts : list Z) (overlap_counts : list (list Z)) :
  same_shape cell_seg n_seg →
  numba_find_overlaps cell_seg n_seg
    = Ok (cell_counts, n_counts, overlap_counts) →
  ∃ cmax nmax,
    label_max (ravel cell_seg) = Ok cmax ∧ label_max (ravel n_seg) = Ok nmax
    ∧ length cell_counts = S cmax ∧ length n_counts = S nmax
    ∧ length overlap_counts = S cmax
    ∧ Forall (λ row, length row = S nmax) overlap_counts
    ∧ cell_counts !! 0 = Some 0%Z ∧ n_counts !! 0 = Some 0%Z
    ∧ overlap_counts !!! 0 = replicate (S nmax) 0%Z
    ∧ column overlap_counts 0 = replicate (S cmax) 0%Z
    ∧ Forall (λ c, 0 ≤ c < 65536)%Z cell_counts
    ∧ Forall (λ c, 0 ≤ c < 65536)%Z n_counts
    ∧ Forall (Forall (λ c, 0 ≤ c < 65536)%Z) overlap_counts.
Proof.
  intros _ Hrun.
  destruct (numba_find_overlaps_counted _ _ _ _ _ Hrun)
    as (cmax & nmax & Hcmax & Hnmax & Hcc & Hcn & Hlen & Hrows & Hcols).
  exists cmax, nmax.
  assert (Hlcc : length cell_counts = S cmax).
  { apply length_of_lookup. intros i. rewrite Hcc.
    case_decide; split; intros Hi; try lia; [by eexists|].
    by destruct Hi. }
  assert (Hlcn : length n_counts = S nmax).
  { apply length_of_lookup. intros j. rewrite Hcn.
    case_decide; split; intros Hj; try lia; [by eexists|].
    by destruct Hj. }
  assert (Hrow : ∀ i row, overlap_counts !! i = Some row →
            row = (λ j, counted (λ v : nat * nat, v.1 = i ∧ v.2 = j)
                          (bool_decide (0 < i ∧ 0 < j))
                          (voxel_pairs cell_seg n_seg)) <$> seq 0 (S nmax)).
  { intros i row Hi. rewrite <-Hrows.
    - symmetry. by apply list_lookup_total_correct.
    - apply lookup_lt_Some in Hi. lia. }
  split_and!; try done.
  - apply Forall_lookup. intros i row Hi.
    rewrite (Hrow i row Hi), length_fmap, length_seq. lia.
  - rewrite Hrows by lia.
    rewrite (fmap_const_replicate _ _ 0%Z), length_seq; [done|].
    intros j. rewrite bool_decide_eq_false_2 by lia. done.
  - rewrite Hcols by lia.
    rewrite (fmap_const_replicate _ _ 0%Z), length_seq; [done|].
    intros i. rewrite bool_decide_eq_false_2 by lia. done.
  - apply Forall_lookup. intros i c Hi. rewrite Hcc in Hi.
    case_decide; [|done]. injection Hi as <-. apply counted_range.
  - apply Forall_lookup. intros j c Hj. rewrite Hcn in Hj.
    case_decide; [|done]. injection Hj as <-. apply counted_range.
  - apply Forall_lookup. intros i row Hi. rewrite (Hrow i row Hi).
    apply Forall_fmap, Forall_forall. intros j _. apply counted_range.
Qed.

Lemma numba_find_overlaps_arrays_witness :
  numba_find_overlaps cells_118 nuclei_118
    = Ok ([0; 2; 4; 2], [0; 4; 4], [ [0; 0; 0]; [0; 2; 0]; [0; 2; 2]; [0; 0; 2] ])%Z
  ∧ ∃ cmax nmax,
      label_max (ravel cells_118) = Ok cmax
      ∧ label_max (ravel nuclei_118) = Ok nmax
      ∧ length [0; 2; 4; 2]%Z = S cmax ∧ length [0; 4; 4]%Z = S nmax.
Proof.
  assert (Hrun : numba_find_overlaps cells_118 nuclei_118
                 = Ok ([0; 2; 4; 2], [0; 4; 4],
                       [ [0; 0; 0]; [0; 2; 0]; [0; 2; 2]; [0; 0; 2] ])%Z)
    by (vm_compute; reflexivity).
  assert (Hshape : same_shape cells_118 nuclei_118) by by_compute.
  split; [exact Hrun|].
  destruct (numba_find_overlaps_arrays _ _ _ _ _ Hshape Hrun)
    as (cmax & nmax & H1 & H2 & H3 & H4 & _).
  by exists cmax, nmax.
Defined.

(** X8. On volumes of one plane, which one thread counts, and of the same
    shape, the overlap invariant holds in every run at every id whose count
    has not wrapped: the overlaps of a cell of fewer than 65536 voxels add
    up to no more than its count, and so do those of a nucleus of fewer
    than 65536 voxels. *)
Theorem overlap_invariant_single_plane (cell_seg n_seg : vol nat)
    (cell_counts n_counts : list Z) (overlap_counts : list (list Z)) :
  length cell_seg = 1 →
  same_shape cell_seg n_seg →
  numba_find_overlaps_run cell_seg n_seg
    (Ok (cell_counts, n_counts, overlap_counts)) →
  (∀ i, i < length cell_counts →
        (Z.of_nat (cell_size cell_seg i) < 65536)%Z →
        cell_consistent cell_counts overlap_counts i)
  ∧ (∀ j, j < length n_counts →
          (Z.of_nat (nucleus_size n_seg j) < 65536)%Z →
          nucleus_consistent n_counts overlap_counts j).
Proof.
  intros Hlen Hshape Hrun.
  apply overlap_invariant_without_wrap; [done|]. symmetry.
  apply numba_find_overlaps_run_single_plane; [lia|done..].
Qed.

Lemma overlap_invariant_single_plane_witness :
  length cells_118 = 1
  ∧ same_shape cells_118 nuclei_118
  ∧ numba_find_overlaps_run cells_118 nuclei_118
      (Ok ([0; 2; 4; 2], [0; 4; 4],
           [ [0; 0; 0]; [0; 2; 0]; [0; 2; 2]; [0; 0; 2] ])%Z)
  ∧ cell_consistent [0; 2; 4; 2]%Z
      [ [0; 0; 0]; [0; 2; 0]; [0; 2; 2]; [0; 0; 2] ]%Z 2
  ∧ nucleus_consistent [0; 4; 4]%Z
      [ [0; 0; 0]; [0; 2; 0]; [0; 2; 2]; [0; 0; 2] ]%Z 1.
Proof.
  assert (Hshape : same_shape cells_118 nuclei_118) by by_compute.
  assert (Hrun : numba_find_overlaps_run cells_118 nuclei_118
                   (Ok ([0; 2; 4; 2], [0; 4; 4],
                        [ [0; 0; 0]; [0; 2; 0]; [0; 2; 2]; [0; 0; 2] ])%Z)).
  { apply (numba_find_overlaps_run_schedule _ _ 3 2
             (sequential_schedule (prange_start cells_118 nuclei_118 3 2).2)
             _ [Thread None []]);
      [vm_compute; reflexivity..|by_compute]. }
  destruct (overlap_invariant_single_plane cells_118 nuclei_118 _ _ _ eq_refl
              Hshape Hrun)
    as [Hcells Hnuclei].
  split_and!; [done|exact Hshape|exact Hrun| |].
  - apply Hcells; [cbn; lia|vm_compute; reflexivity].
  - apply Hnuclei; [cbn; lia|vm_compute; reflexivity].
Defined.

(** *** The two volumes exchanged *)

Lemma numba_find_overlaps_returns (cell_seg n_seg : vol nat) :
  ravel cell_seg ≠ [] → ravel n_seg ≠ [] →
  ∃ s, numba_find_overlaps cell_seg n_seg = Ok s.
Proof.
  unfold numba_find_overlaps. intros Hcell Hnuc.
  destruct (ravel cell_seg) as [|c cs]; [done|].
  destruct (ravel n_seg) as [|n ns]; [done|]. cbn [label_max bind].
  by eexists.
Qed.


Lemma voxel_pairs_swap (a b : vol nat) :
  voxel_pairs b a = prod_swap <$> voxel_pairs a b.
Proof.
  unfold voxel_pairs. generalize (ravel a) (ravel b). clear.
  induction l as [|x l IH]; intros [|y k]; cbn; try done. by rewrite IH.
Qed.

Lemma counted_swap (P Q : nat * nat → Prop) `{∀ v, Decision (P v)}
    `{∀ v, Decision (Q v)} (positive : bool) (vs : list (nat * nat)) :
  (∀ v, P (prod_swap v) ↔ Q v) →
  counted P positive (prod_swap <$> vs) = counted Q positive vs.
Proof.
  intros HPQ. unfold counted. destruct positive; [|done].
  by rewrite (length_filter_fmap prod_swap P Q).
Qed.

Lemma label_max_nonempty (l : list nat) (m : nat) :
  label_max l = Ok m → l ≠ [].
Proof. by destruct l. Qed.

(** The loop without its threads treats the two volumes alike: on volumes
    of the same shape, with the volumes exchanged it returns the two count
    arrays exchanged and the overlap array transposed. *)
Lemma numba_find_overlaps_sequential_exchange (cell_seg n_seg : vol nat)
    (cell_counts n_counts : list Z) (overlap_counts : list (list Z)) :
  same_shape cell_seg n_seg →
  numba_find_overlaps cell_seg n_seg
    = Ok (cell_counts, n_counts, overlap_counts) →
  numba_find_overlaps n_seg cell_seg
    = Ok (n_counts, cell_counts,
          (λ j, column overlap_counts j) <$> seq 0 (length n_counts)).
Proof.
  intros _ Hrun.
  destruct (numba_find_overlaps_counted _ _ _ _ _ Hrun)
    as (cmax & nmax & Hcmax & Hnmax & Hcc & Hcn & Hlen & Hrows & Hcols).
  destruct (numba_find_overlaps_returns n_seg cell_seg)
    as [[[cc' cn'] oc'] Hrun'];
    [by eapply label_max_nonempty..|].
  destruct (numba_find_overlaps_counted _ _ _ _ _ Hrun')
    as (cmax' & nmax' & Hcmax' & Hnmax' & Hcc' & Hcn' & Hlen' & Hrows' & _).
  rewrite Hnmax in Hcmax'. injection Hcmax' as <-.
  rewrite Hcmax in Hnmax'. injection Hnmax' as <-.
  rewrite (voxel_pairs_swap cell_seg n_seg) in Hcc', Hcn', Hrows'.
  rewrite Hrun'. do 2 f_equal; [f_equal|].
  - apply list_eq. intros j. rewrite Hcc', Hcn. case_decide; [|done].
    f_equal. apply counted_swap. by intros [c n].
  - apply list_eq. intros i. rewrite Hcn', Hcc. case_decide; [|done].
    f_equal. apply counted_swap. by intros [c n].
  - assert (Hln : length n_counts = S nmax).
    { apply length_of_lookup. intros j. rewrite Hcn.
      case_decide; split; intros Hj; try lia; [by eexists|].
      by destruct Hj. }
    rewrite Hln. apply list_eq. intros j.
    rewrite list_lookup_fmap.
    destruct (decide (j < S nmax)) as [Hj|Hj].
    + rewrite lookup_seq_lt by done. cbn.
      rewrite (list_lookup_lookup_total_lt oc' j) by lia. f_equal.
      rewrite Hrows', Hcols by done.
      apply list_fmap_ext. intros _ i _.
      rewrite (counted_swap _ (λ v : nat * nat, v.1 = i ∧ v.2 = j))
        by (intros [c n]; cbn; tauto).
      unfold counted. by rewrite (bool_decide_ext (0 < j ∧ 0 < i)
                                    (0 < i ∧ 0 < j)) by tauto.
    + rewrite lookup_seq_ge by lia. cbn. apply lookup_ge_None. lia.
Qed.

(** X25. [numba_find_overlaps] treats its two arguments alike.  On volumes
    of one plane, which one thread counts, and of the same shape: when a
    run returns, every run on the volumes exchanged returns the two count
    arrays exchanged and the overlap array transposed. *)
Theorem numba_find_overlaps_exchange (cell_seg n_seg : vol nat)
    (cell_counts n_counts : list Z) (overlap_counts : list (list Z))
    (r : result statistics) :
  length cell_seg = 1 →
  same_shape cell_seg n_seg →
  numba_find_overlaps_run cell_seg n_seg
    (Ok (cell_counts, n_counts, overlap_counts)) →
  numba_find_overlaps_run n_seg cell_seg r →
  r = Ok (n_counts, cell_counts,
          (λ j, column overlap_counts j) <$> seq 0 (length n_counts)).
Proof.
  intros Hlen Hshape Hrun Hrun'.
  apply numba_find_overlaps_run_single_plane in Hrun; [|lia|done].
  apply numba_find_overlaps_run_single_plane in Hrun'.
  - rewrite Hrun'.
    by apply numba_find_overlaps_sequential_exchange.
  - apply Forall2_length in Hshape. lia.
  - by apply same_shape_sym.
Qed.

Lemma numba_find_overlaps_exchange_witness :
  length cells_118 = 1
  ∧ same_shape cells_118 nuclei_118
  ∧ numba_find_overlaps_run cells_118 nuclei_118
      (Ok ([0; 2; 4; 2], [0; 4; 4],
           [ [0; 0; 0]; [0; 2; 0]; [0; 2; 2]; [0; 0; 2] ])%Z)
  ∧ numba_find_overlaps_run nuclei_118 cells_118
      (Ok ([0; 4; 4], [0; 2; 4; 2],
           [ [0; 0; 0; 0]; [0; 2; 2; 0]; [0; 0; 2; 2] ])%Z)
  ∧ Ok ([0; 4; 4], [0; 2; 4; 2],
        [ [0; 0; 0; 0]; [0; 2; 2; 0]; [0; 0; 2; 2] ])%Z
    = Ok ([0; 4; 4]%Z, [0; 2; 4; 2]%Z,
          (λ j, column [ [0; 0; 0]; [0; 2; 0]; [0; 2; 2]; [0; 0; 2] ]%Z j)
            <$> seq 0 (length [0; 4; 4]%Z)).
Proof.
  assert (Hshape : same_shape cells_118 nuclei_118) by by_compute.
  assert (Hrun : numba_find_overlaps_run cells_118 nuclei_118
                   (Ok ([0; 2; 4; 2], [0; 4; 4],
                        [ [0; 0; 0]; [0; 2; 0]; [0; 2; 2]; [0; 0; 2] ])%Z)).
  { apply (numba_find_overlaps_run_schedule _ _ 3 2
             (sequential_schedule (prange_start cells_118 nuclei_118 3 2).2)
             _ [Thread None []]);
      [vm_compute; reflexivity..|by_compute]. }
  assert (Hrun' : numba_find_overlaps_run nuclei_118 cells_118
                    (Ok ([0; 4; 4], [0; 2; 4; 2],
                         [ [0; 0; 0; 0]; [0; 2; 2; 0]; [0; 0; 2; 2] ])%Z)).
  { apply (numba_find_overlaps_run_schedule _ _ 2 3
             (sequential_schedule (prange_start nuclei_118 cells_118 2 3).2)
             _ [Thread None []]);
      [vm_compute; reflexivity..|by_compute]. }
  split_and!; [done|exact Hshape|exact Hrun|exact Hrun'|].
  exact (numba_find_overlaps_exchange cells_118 nuclei_118 _ _ _ _ eq_refl
           Hshape Hrun Hrun').
Defined.

(** ** The records of the analysis passes *)

Lemma StronglySorted_seq (i n : nat) : StronglySorted lt (seq i n).
Proof.
  revert i. induction n as [|n IH]; intros i; cbn [seq]; constructor.
  - apply IH.
  - apply Forall_seq. lia.
Qed.

(** A list read off a list of keyed entries, each of which gives its key or
    nothing, is increasing when the keys are. *)
Lemma bind_sorted {A} (key : A → nat) (g : A → list nat) (l : list A) :
  (∀ e, g e = [] ∨ g e = [key e]) →
  StronglySorted lt (key <$> l) → StronglySorted lt (l ≫= g).
Proof.
  intros Hg. induction l as [|e l IH]; [done|].
  rewrite fmap_cons, bind_cons. intros [Hlt Hsorted]%StronglySorted_cons.
  specialize (IH Hsorted).
  destruct (Hg e) as [->| ->]; [done|].
  apply StronglySorted_cons. split; [|done].
  apply Forall_forall. intros k Hk.
  apply list_elem_of_bind in Hk as (e' & Hk & He').
  destruct (Hg e') as [Hnil|Hone]; rewrite ?Hnil, ?Hone in Hk.
  - by apply not_elem_of_nil in Hk.
  - apply list_elem_of_singleton in Hk as ->.
    rewrite Forall_forall in Hlt. apply Hlt.
    apply list_elem_of_fmap. eauto.
Qed.

Lemma nonzero1_sorted (a : list Z) : StronglySorted lt (nonzero1 a).
Proof.
  unfold nonzero1. apply (bind_sorted fst).
  - intros e. case_decide; auto.
  - rewrite fmap_imap.
    rewrite (imap_ext _ (λ j _, j) a) by done.
    rewrite (imap_seq_0 a (λ j, j)), list_fmap_id. apply StronglySorted_seq.
Qed.

Lemma qualifying_sorted (ids : list nat) (rs : list fval)
    (keep : nat * fval → bool) :
  length ids = length rs → StronglySorted lt ids →
  StronglySorted lt (zip ids rs ≫= λ e, if keep e then [e.1] else []).
Proof.
  intros Hlen Hsorted. apply (bind_sorted fst).
  - intros e. destruct (keep e); auto.
  - rewrite fst_zip by lia. done.
Qed.

Lemma over_seg_idx_sorted nuclei_counts intersection_counts threshold n :
  StronglySorted lt
    (over_seg_idx (over_seg_profile nuclei_counts intersection_counts
                     threshold n)).
Proof.
  unfold over_seg_profile. cbn [over_seg_idx].
  apply qualifying_sorted; [by rewrite length_fmap|apply nonzero1_sorted].
Qed.

Lemma under_seg_idx_sorted nuclei_counts intersection_counts threshold mask i :
  StronglySorted lt
    (under_seg_idx (under_seg_profile nuclei_counts intersection_counts
                      threshold mask i)).
Proof.
  unfold under_seg_profile. cbn [under_seg_idx].
  apply (qualifying_sorted _ _
           (λ e, fval_gtb e.2 (Fin threshold) && (mask !!! e.1)));
    [by rewrite length_fmap|apply nonzero1_sorted].
Qed.

Lemma records_keys_sorted {R} (f : nat → R) (keep : R → bool) (l : list nat) :
  StronglySorted lt l →
  StronglySorted lt
    (foldl (λ acc idx, if keep (f idx) then acc ++ [(idx, f idx)] else acc)
       [] l).*1.
Proof.
  intros Hsorted. rewrite foldl_records, app_nil_l.
  induction Hsorted as [|idx l _ IH Hlt]; [constructor|].
  rewrite bind_cons, fmap_app.
  destruct (keep (f idx)); [|done].
  cbn [fmap list_fmap app fst]. apply StronglySorted_cons. split; [|done].
  apply Forall_forall. intros k Hk.
  apply list_elem_of_fmap in Hk as ([k' r] & -> & Hk).
  apply list_elem_of_bind in Hk as (idx' & Hk & Hidx').
  destruct (keep (f idx')); [|by apply not_elem_of_nil in Hk].
  apply list_elem_of_singleton in Hk as [= -> ->].
  rewrite Forall_forall in Hlt. by apply Hlt.
Qed.

(** X9. The records of [find_potential_over_seg] come in increasing order
    of the nucleus id, one per id at most, and only for ids that index the
    nuclei counts.  The qualifying cell ids of a record are increasing,
    there are at least two of them, and each indexes a row of the overlap
    array in which the nucleus has a non-zero overlap. *)
Theorem find_potential_over_seg_records (nuclei_counts : list Z)
    (intersection_counts : list (list Z)) (threshold : Q) :
  let records :=
    find_potential_over_seg nuclei_counts intersection_counts threshold in
  StronglySorted lt records.*1
  ∧ ∀ n r, (n, r) ∈ records →
      n < length nuclei_counts
      ∧ StronglySorted lt (over_seg_idx r)
      ∧ 1 < length (over_seg_idx r)
      ∧ ∀ c, c ∈ over_seg_idx r →
          c < length intersection_counts
          ∧ entry intersection_counts c n ≠ 0%Z.
Proof.
  cbv zeta. split.
  - apply records_keys_sorted, StronglySorted_seq.
  - intros n r (Hn & -> & Hover)%elem_of_find_potential_over_seg.
    split_and!; [done|apply over_seg_idx_sorted|..].
    + revert Hover. unfold over_seg_profile. cbn [is_over_seg over_seg_idx].
      apply bool_decide_eq_true_1.
    + intros c Hc. unfold over_seg_profile in Hc. cbn [over_seg_idx] in Hc.
      apply qualifying_subset, nonzero1_spec in Hc as (x & Hx & Hne).
      unfold column in Hx. rewrite list_lookup_fmap in Hx.
      destruct (intersection_counts !! c) as [row|] eqn:Hrow; [|done].
      injection Hx as <-. split; [by eapply lookup_lt_Some|].
      unfold entry. by rewrite (list_lookup_total_correct _ _ _ Hrow).
Qed.

(** X10. The records of [find_potential_under_seg] come in increasing order
    of the cell id, only for ids that index the cell counts.  The
    qualifying nucleus ids of a record are increasing, there are at least
    two of them, each has a non-zero overlap with the cell and each is kept
    by the quantile mask. *)
Theorem find_potential_under_seg_records (nuclei_counts cell_counts : list Z)
    (intersection_counts : list (list Z)) (threshold : Q)
    (quantiles_clip : Q * Q) (records : list (nat * UnderSeg)) :
  find_potential_under_seg nuclei_counts cell_counts intersection_counts
    threshold quantiles_clip = Ok records →
  ∃ mask,
    get_quantile_mask nuclei_counts quantiles_clip = Ok mask
    ∧ StronglySorted lt records.*1
    ∧ ∀ i r, (i, r) ∈ records →
        i < length cell_counts
        ∧ StronglySorted lt (under_seg_idx r)
        ∧ 1 < length (under_seg_idx r)
        ∧ ∀ n, n ∈ under_seg_idx r →
            entry intersection_counts i n ≠ 0%Z ∧ mask !!! n = true.
Proof.
  intros Hrun.
  destruct (get_quantile_mask nuclei_counts quantiles_clip) as [mask|e]
    eqn:Hmask; [|by unfold find_potential_under_seg in Hrun; rewrite Hmask in Hrun].
  exists mask. split; [done|]. split.
  - unfold find_potential_under_seg in Hrun. rewrite Hmask in Hrun.
    cbn [bind] in Hrun. injection Hrun as <-.
    apply (records_keys_sorted
             (under_seg_profile nuclei_counts intersection_counts threshold mask)
             is_under_seg), StronglySorted_seq.
  - intros i r Hin.
    apply (elem_of_find_potential_under_seg _ _ _ _ _ _ _ _ _ Hmask Hrun)
      in Hin as (Hi & -> & Hunder).
    split_and!; [done|apply under_seg_idx_sorted|..].
    + revert Hunder. unfold under_seg_profile.
      cbn [is_under_seg under_seg_idx]. apply bool_decide_eq_true_1.
    + intros n Hn. unfold under_seg_profile in Hn. cbn [under_seg_idx] in Hn.
      split.
      * apply qualifying_subset, nonzero1_spec in Hn as (x & Hx & Hne).
        unfold entry. by rewrite (list_lookup_total_correct _ _ _ Hx).
      * apply list_elem_of_bind in Hn as ([k ratio] & Hn & _).
        cbn [fst snd] in Hn.
        destruct (fval_gtb ratio (Fin threshold)); cbn [andb] in Hn;
          [|by apply not_elem_of_nil in Hn].
        destruct (mask !!! k) eqn:Hk; [|by apply not_elem_of_nil in Hn].
        by apply list_elem_of_singleton in Hn as ->.
Qed.

Lemma find_potential_under_seg_records_witness :
  ∃ records mask,
    find_potential_under_seg nuclei_counts_5 cell_counts_2
      intersection_counts_25 (1 # 2)%Q (2 # 10, 99 # 100)%Q = Ok records
    ∧ records.*1 = [1]
    ∧ get_quantile_mask nuclei_counts_5 (2 # 10, 99 # 100)%Q = Ok mask
    ∧ StronglySorted lt records.*1
    ∧ ∀ i r, (i, r) ∈ records →
        i < length cell_counts_2
        ∧ StronglySorted lt (under_seg_idx r)
        ∧ 1 < length (under_seg_idx r)
        ∧ ∀ n, n ∈ under_seg_idx r →
            entry intersection_counts_25 i n ≠ 0%Z ∧ mask !!! n = true.
Proof.
  destruct (find_potential_under_seg nuclei_counts_5 cell_counts_2
              intersection_counts_25 (1 # 2)%Q (2 # 10, 99 # 100)%Q)
    as [records|e] eqn:Hrun; [|vm_compute in Hrun; discriminate].
  destruct (find_potential_under_seg_records _ _ _ _ _ _ Hrun)
    as (mask & Hmask & Hrecords).
  exists records, mask. split; [done|]. split; [|done].
  vm_compute in Hrun. by injection Hrun as <-.
Defined.

(** ** The merge pass on the records of the analysis *)

Lemma sorted_head_le (l : list nat) (x c : nat) :
  StronglySorted lt l → head l = Some x → c ∈ l → x ≤ c.
Proof.
  destruct l as [|y l]; [done|]. cbn [head].
  intros [Hlt _]%StronglySorted_cons [= ->] [->|Hc]%elem_of_cons; [done|].
  rewrite Forall_forall in Hlt. apply Hlt in Hc. lia.
Qed.

(** The label the pass gives is the label before it or the first
    qualifying id of a record that holds the label before it. *)
Lemma merged_label_provenance (recs : list (nat * OverSeg))
    (nuclei_idx : option (list nat)) (l : nat) :
  merged_label recs nuclei_idx l = l
  ∨ ∃ e, e ∈ recs ∧ l ∈ over_seg_idx e.2
         ∧ head (over_seg_idx e.2) = Some (merged_label recs nuclei_idx l).
Proof.
  unfold merged_label.
  destruct (merged_label_cases nuclei_idx recs l l)
    as [[_ Hsame]|(e & He & [_ Hin] & Hhead)]; [by left|].
  right. by exists e.
Qed.

(** X11. On the records of [find_potential_over_seg], whatever statistics
    they were computed from, the merge pass returns: every record has a
    first qualifying id.  It returns the volume relabelled voxel by voxel
    by [merged_label].  A label that no applied record has among its
    qualifying ids is kept.  A label that changes becomes the first
    qualifying id of an applied record that has the label among its
    qualifying ids, and that first id is the least of them: no label is
    raised. *)
Theorem merge_pass_lowers_labels (segmentation : vol nat)
    (nuclei_counts : list Z) (intersection_counts : list (list Z))
    (threshold : Q) (nuclei_idx : option (list nat)) :
  fix_over_segmentation segmentation
    (find_potential_over_seg nuclei_counts intersection_counts threshold)
    nuclei_idx
  = Ok (vmap (merged_label
                (find_potential_over_seg nuclei_counts intersection_counts
                   threshold) nuclei_idx)
          segmentation)
  ∧ ∀ l,
      merged_label
        (find_potential_over_seg nuclei_counts intersection_counts threshold)
        nuclei_idx l ≤ l
      ∧ (Forall (λ e, ¬ merges nuclei_idx l e)
           (find_potential_over_seg nuclei_counts intersection_counts
              threshold) →
         merged_label
           (find_potential_over_seg nuclei_counts intersection_counts threshold)
           nuclei_idx l = l)
      ∧ (merged_label
           (find_potential_over_seg nuclei_counts intersection_counts threshold)
           nuclei_idx l ≠ l →
         ∃ e, e ∈ find_potential_over_seg nuclei_counts intersection_counts
                    threshold
              ∧ merges nuclei_idx l e
              ∧ head (over_seg_idx e.2)
                = Some (merged_label
                          (find_potential_over_seg nuclei_counts
                             intersection_counts threshold) nuclei_idx l)
              ∧ ∀ c, c ∈ over_seg_idx e.2 →
                     merged_label
                       (find_potential_over_seg nuclei_counts
                          intersection_counts threshold) nuclei_idx l ≤ c).
Proof.
  set (recs := find_potential_over_seg nuclei_counts intersection_counts
                 threshold).
  split.
  - apply fix_over_segmentation_merged_label,
      find_potential_over_seg_qualifying.
  - intros l.
    assert (Hcases :
      (Forall (λ e, ¬ merges nuclei_idx l e) recs
       ∧ merged_label recs nuclei_idx l = l)
      ∨ ∃ e, e ∈ recs ∧ merges nuclei_idx l e
             ∧ head (over_seg_idx e.2) = Some (merged_label recs nuclei_idx l)
             ∧ ∀ c, c ∈ over_seg_idx e.2 → merged_label recs nuclei_idx l ≤ c).
    { destruct (merged_label_cases nuclei_idx recs l l)
        as [[Hnone Hsame]|([n r] & He & Hm & Hhead)]; [by left|].
      right. exists (n, r). split_and!; try done.
      intros c Hc.
      apply elem_of_find_potential_over_seg in He as (_ & -> & _).
      eapply sorted_head_le; [apply over_seg_idx_sorted|exact Hhead|exact Hc]. }
    split_and!.
    + destruct Hcases as [[_ ->]|(e & _ & [_ Hin] & _ & Hleast)]; [done|].
      by apply Hleast.
    + intros Hnone. by apply foldl_merge_label_none.
    + intros Hne. destruct Hcases as [[_ Hsame]|Hrec]; [done|exact Hrec].
Qed.

Lemma counted_nonzero (P : nat * nat → Prop) `{∀ v, Decision (P v)}
    (positive : bool) (vs : list (nat * nat)) :
  counted P positive vs ≠ 0%Z → positive = true ∧ ∃ v, v ∈ vs ∧ P v.
Proof.
  unfold counted. destruct positive; [|done]. intros Hne. split; [done|].
  destruct (filter P vs) as [|v l] eqn:Hfilter; [done|].
  exists v. apply and_comm, (list_elem_of_filter P). rewrite Hfilter. by left.
Qed.

(** An overlap counter that is not zero belongs to a cell id and a nucleus
    id that are not the background and that label a common voxel. *)
Lemma numba_find_overlaps_entry (cell_seg n_seg : vol nat) (s : statistics)
    (c n : nat) :
  numba_find_overlaps cell_seg n_seg = Ok s →
  c < length s.2 → n < length s.1.2 →
  entry s.2 c n ≠ 0%Z →
  0 < c ∧ 0 < n ∧ (c, n) ∈ voxel_pairs cell_seg n_seg.
Proof.
  destruct s as [[cell_counts n_counts] overlap_counts]. intros Hrun.
  destruct (numba_find_overlaps_counted _ _ _ _ _ Hrun)
    as (cmax & nmax & _ & _ & _ & Hcn & Hlen & Hrows & _).
  cbn [fst snd]. unfold entry. intros Hc Hn Hne.
  assert (Hn' : n < S nmax).
  { apply lookup_lt_is_Some in Hn as [x Hx]. rewrite Hcn in Hx.
    by case_decide. }
  rewrite Hrows in Hne by lia.
  rewrite list_lookup_total_alt, list_lookup_fmap in Hne.
  rewrite lookup_seq_lt in Hne by done. cbn in Hne.
  apply counted_nonzero in Hne as (Hpos & [c' n'] & Hin & <- & <-).
  apply bool_decide_eq_true in Hpos. tauto.
Qed.

Lemma elem_of_voxel_pairs_cell (cell_seg n_seg : vol nat) (c n : nat) :
  (c, n) ∈ voxel_pairs cell_seg n_seg → c ∈ ravel cell_seg.
Proof.
  unfold voxel_pairs. intros Hin.
  apply list_elem_of_lookup in Hin as [i Hi].
  apply lookup_zip_with_Some in Hi as (x & y & [= -> ->] & Hx & _).
  by eapply list_elem_of_lookup_2.
Qed.

(** On the statistics of two volumes, the qualifying cell ids of a record
    of the over-segmentation analysis are labels of the cell volume, and
    not the background. *)
Lemma over_seg_qualifying_labels (cell_seg nuclei_seg : vol nat)
    (threshold : Q) (s : statistics) (n c : nat) (r : OverSeg) :
  numba_find_overlaps cell_seg nuclei_seg = Ok s →
  (n, r) ∈ find_potential_over_seg s.1.2 s.2 threshold →
  c ∈ over_seg_idx r →
  0 < c ∧ c ∈ ravel cell_seg.
Proof.
  intros Hrun (Hn & -> & _)%elem_of_find_potential_over_seg Hc.
  unfold over_seg_profile in Hc. cbn [over_seg_idx] in Hc.
  apply qualifying_subset, nonzero1_spec in Hc as (x & Hx & Hne).
  unfold column in Hx. rewrite list_lookup_fmap in Hx.
  destruct (s.2 !! c) as [row|] eqn:Hrow; [|done]. injection Hx as <-.
  destruct (numba_find_overlaps_entry cell_seg nuclei_seg s c n Hrun)
    as (Hpos & _ & Hin); [by eapply lookup_lt_Some|done|..].
  { unfold entry. by rewrite (list_lookup_total_correct _ _ _ Hrow). }
  split; [done|]. by eapply elem_of_voxel_pairs_cell.
Qed.

(** X12. In the correction the merge pass works on the statistics of the
    two volumes, which have the same shape.  It then returns the cell volume relabelled by a map on
    labels that keeps the background apart: label 0 stays 0 and no other
    label becomes 0.  The map introduces no label: a label of the volume
    is sent to a label of the volume. *)
Theorem merge_pass_keeps_background (cell_seg nuclei_seg : vol nat)
    (threshold : Q) (nuclei_idx : option (list nat)) (s : statistics) :
  same_shape cell_seg nuclei_seg →
  numba_find_overlaps cell_seg nuclei_seg = Ok s →
  ∃ relabel : nat → nat,
    fix_over_segmentation cell_seg
      (find_potential_over_seg s.1.2 s.2 threshold) nuclei_idx
    = Ok (vmap relabel cell_seg)
    ∧ (∀ l, relabel l = 0 ↔ l = 0)
    ∧ (∀ l, l ∈ ravel cell_seg → relabel l ∈ ravel cell_seg).
Proof.
  intros _ Hrun.
  set (recs := find_potential_over_seg s.1.2 s.2 threshold).
  pose proof (over_seg_qualifying_labels cell_seg nuclei_seg threshold s)
    as Hqual.
  exists (merged_label recs nuclei_idx). split_and!.
  - apply fix_over_segmentation_merged_label,
      find_potential_over_seg_qualifying.
  - intros l.
    destruct (merged_label_provenance recs nuclei_idx l)
      as [->|([n r] & He & Hin & Hhead)]; [done|].
    apply head_Some_elem_of in Hhead.
    destruct (Hqual n _ r Hrun He Hhead) as [Hpos _].
    destruct (Hqual n _ r Hrun He Hin) as [Hpos' _]. cbn [snd] in *. lia.
  - intros l Hl.
    destruct (merged_label_provenance recs nuclei_idx l)
      as [->|([n r] & He & Hin & Hhead)]; [done|].
    apply head_Some_elem_of in Hhead.
    by destruct (Hqual n _ r Hrun He Hhead) as [_ Hlabel].
Qed.

Lemma merge_pass_keeps_background_witness :
  ∃ s relabel,
    numba_find_overlaps cells_118 nuclei_118 = Ok s
    ∧ fix_over_segmentation cells_118
        (find_potential_over_seg s.1.2 s.2 (1 # 3)%Q) None
      = Ok (vmap relabel cells_118)
    ∧ (∀ l, relabel l = 0 ↔ l = 0)
    ∧ (∀ l, l ∈ ravel cells_118 → relabel l ∈ ravel cells_118).
Proof.
  destruct (numba_find_overlaps cells_118 nuclei_118) as [s|e] eqn:Hrun;
    [|vm_compute in Hrun; discriminate].
  assert (Hshape : same_shape cells_118 nuclei_118) by by_compute.
  destruct (merge_pass_keeps_background cells_118 nuclei_118 (1 # 3)%Q None
              s Hshape Hrun) as (relabel & Hout).
  by exists s, relabel.
Defined.

(** ** The passes and the records they are given *)

Lemma foldM_filter {A B} (sel : B → bool) (f : A → B → result A) (a : A)
    (l : list B) :
  foldM (λ a e, if sel e then f a e else Ok a) a l
  = foldM f a (filter (λ e, sel e = true) l).
Proof.
  revert a. induction l as [|e l IH]; intros a; [done|].
  cbn [foldM]. destruct (sel e) eqn:Hsel.
  - rewrite filter_cons_True by done. cbn [foldM].
    destruct (f a e); cbn [bind]; [apply IH|done].
  - rewrite filter_cons_False by (by rewrite Hsel). cbn [bind]. apply IH.
Qed.

Lemma foldM_ext {A B} (f g : A → B → result A) (a : A) (l : list B) :
  (∀ a e, f a e = g a e) → foldM f a l = foldM g a l.
Proof.
  intros Hfg. revert a. induction l as [|e l IH]; intros a; [done|].
  cbn [foldM]. rewrite Hfg. destruct (g a e); cbn [bind]; [apply IH|done].
Qed.

Section Selection.
Context (bits : nat).
Context {PVal : Type}.
Context (pval_max : list PVal → PVal) (pval_div : PVal → PVal → PVal).
Context (gaussian : vol PVal → vol PVal).
Context (watershed : vol PVal → vol nat → vol nat).

(** X13. The optional list of ids of a pass only drops records: the merge
    pass restricted to [nuclei_idx] is the unrestricted pass on the records
    whose nucleus id is in the list, and the split pass restricted to
    [cell_idx] is the unrestricted pass on the records whose cell id is in
    the list.  Ids of the list that have no record are ignored. *)
Theorem passes_restrict_to_selected (segmentation nuclei_segmentation : vol nat)
    (boundary_pmap : vol PVal) (nuclei_assignments : list (nat * OverSeg))
    (cell_assignments : list (nat * UnderSeg)) (ids : list nat) :
  fix_over_segmentation segmentation nuclei_assignments (Some ids)
  = fix_over_segmentation segmentation
      (filter (λ e, e.1 ∈ ids) nuclei_assignments) None
  ∧ fix_under_segmentation bits pval_max pval_div gaussian watershed segmentation
      nuclei_segmentation boundary_pmap cell_assignments (Some ids)
    = fix_under_segmentation bits pval_max pval_div gaussian watershed segmentation
        nuclei_segmentation boundary_pmap
        (filter (λ e, e.1 ∈ ids) cell_assignments) None.
Proof.
  assert (Hfilter : ∀ R (l : list (nat * R)),
            filter (λ e, selected (Some ids) e.1 = true) l
            = filter (λ e, e.1 ∈ ids) l).
  { intros R l. apply list_filter_iff. intros e. cbn [selected].
    apply bool_decide_eq_true. }
  split.
  - unfold fix_over_segmentation.
    rewrite (foldM_filter (λ e, selected (Some ids) e.1)
               (λ _segmentation e,
                  new_value <- first_item (over_seg_idx e.2);;
                  foldM (λ _segmentation c_idx,
                           setitem_mask _segmentation
                             (np_eq segmentation c_idx) new_value)
                        _segmentation (over_seg_idx e.2))).
    rewrite Hfilter. by apply foldM_ext.
  - unfold fix_under_segmentation.
    rewrite (foldM_filter (λ e, selected (Some ids) e.1)
               (λ _segmentation e,
                  _nuclei_seeds <- nuclei_seeds _segmentation
                                     nuclei_segmentation (under_seg_idx e.2);;
                  split_from_seeds bits pval_max pval_div gaussian watershed
                    _segmentation boundary_pmap _nuclei_seeds [e.1])).
    rewrite Hfilter. by apply foldM_ext.
Qed.

End Selection.

(** X14. The merge pass reads [value['over_seg_idx'][0]] of every record it
    applies.  It raises [IndexError] when an applied record has no
    qualifying id, after the records before it have been applied, and it
    returns when every applied record has one. *)
Theorem fix_over_segmentation_raises (segmentation : vol nat)
    (nuclei_assignments : list (nat * OverSeg))
    (nuclei_idx : option (list nat)) :
  (Exists (λ e, selected nuclei_idx e.1 = true ∧ over_seg_idx e.2 = [])
     nuclei_assignments →
   fix_over_segmentation segmentation nuclei_assignments nuclei_idx
   = Raise IndexError_list)
  ∧ (Forall (λ e, selected nuclei_idx e.1 = true → over_seg_idx e.2 ≠ [])
       nuclei_assignments →
     ∃ out, fix_over_segmentation segmentation nuclei_assignments nuclei_idx
            = Ok out
            ∧ same_shape out segmentation).
Proof.
  split.
  - intros Hbad.
    apply Exists_exists in Hbad as (e & He & Hsel & Hnil).
    apply list_elem_of_split in He as (before & after & ->).
    assert (Hgood : ∃ before' bad after',
              before ++ e :: after = before' ++ bad :: after'
              ∧ Forall (λ e, selected nuclei_idx e.1 = true
                             → over_seg_idx e.2 ≠ []) before'
              ∧ selected nuclei_idx bad.1 = true ∧ over_seg_idx bad.2 = []).
    { clear segmentation. induction before as [|x before IH].
      - exists [], e, after. by repeat split.
      - destruct IH as (before' & bad & after' & Heq & Hfor & Hbad).
        destruct (decide (selected nuclei_idx x.1 = true
                          ∧ over_seg_idx x.2 = [])) as [Hx|Hx].
        + exists [], x, (before ++ e :: after). destruct Hx.
          by repeat split.
        + exists (x :: before'), bad, after'. cbn [app]. rewrite Heq.
          split; [done|]. split; [|done].
          constructor; [|done]. intros Hs Hn. by apply Hx. }
    destruct Hgood as (before' & bad & after' & -> & Hfor & Hbsel & Hbnil).
    pose proof (fix_over_segmentation_merged_label segmentation before'
                  nuclei_idx Hfor) as Hprefix.
    unfold fix_over_segmentation in *.
    revert Hprefix.
    generalize (vmap (merged_label before' nuclei_idx) segmentation).
    generalize segmentation at 2 4.
    induction before' as [|x before' IH]; intros start out Hprefix.
    + cbn [app foldM]. rewrite Hbsel, Hbnil. done.
    + cbn [app foldM] in *.
      destruct (if selected nuclei_idx x.1 then _ else _) as [next|];
        cbn [bind] in *; [|done].
      apply (IH (Forall_inv_tail Hfor) next out Hprefix).
  - intros Hgood.
    rewrite fix_over_segmentation_merged_label by done.
    eexists. split; [done|]. apply same_shape_vmap_l, same_shape_refl.
Qed.

Lemma fix_over_segmentation_raises_witness :
  fix_over_segmentation cells_118
    [(1, {| c_idx := [1; 2]; over_seg_idx := [1; 2]; is_over_seg := true;
            r_intersection_o := [] |});
     (2, {| c_idx := []; over_seg_idx := []; is_over_seg := true;
            r_intersection_o := [] |})] None
  = Raise IndexError_list
  ∧ ∃ out,
      fix_over_segmentation cells_118
        [(1, {| c_idx := [1; 2]; over_seg_idx := [1; 2]; is_over_seg := true;
                r_intersection_o := [] |});
         (2, {| c_idx := []; over_seg_idx := []; is_over_seg := true;
                r_intersection_o := [] |})] (Some [1])
      = Ok out
      ∧ same_shape out cells_118.
Proof.
  split.
  - apply fix_over_segmentation_raises. apply Exists_cons_tl, Exists_cons_hd.
    done.
  - apply fix_over_segmentation_raises.
    repeat constructor; cbn; [done|by_compute].
Defined.

(** ** [split_from_seeds]: the box of the cell *)

Lemma vget_foldl_or_hit (ms : list (vol bool)) (m : vol bool) (p : index3)
    (b : bool) :
  vget m p = Some b →
  Forall (λ m', is_Some (vget m' p)) ms →
  ∃ b', vget (foldl (vzip_with orb) m ms) p = Some b'
        ∧ (b = true → b' = true)
        ∧ (Exists (λ m', vget m' p = Some true) ms → b' = true).
Proof.
  revert m b. induction ms as [|m1 ms IH]; intros m b Hm Hall.
  - exists b. split; [done|]. split; [done|]. by intros ?%Exists_nil.
  - apply Forall_cons in Hall as [[b1 Hm1] Hall]. cbn [foldl].
    destruct (IH (vzip_with orb m m1) (b || b1)) as (b' & Hb' & Hleft & Hright).
    { by rewrite vget_vzip_with, Hm, Hm1. }
    { done. }
    exists b'. split; [done|]. split.
    + intros ->. by apply Hleft.
    + intros [Hhit|Hhit]%Exists_cons; [|by apply Hright].
      apply Hleft. rewrite Hm1 in Hhit. injection Hhit as ->.
      apply orb_true_r.
Qed.

(** A voxel whose label is in [all_idx] is true in the mask of these
    labels. *)
Lemma label_mask_hit (a : vol nat) (all_idx : list nat) (p : index3) (l : nat) :
  vget a p = Some l → l ∈ all_idx →
  vget (logical_or_reduce (np_eq a <$> all_idx)) p = Some true.
Proof.
  intros Hl Hin.
  assert (Hget : ∀ idx, vget (np_eq a idx) p = Some (bool_decide (l = idx))).
  { intros idx. unfold np_eq. by rewrite vget_vmap, Hl. }
  destruct all_idx as [|idx ids]; [by apply not_elem_of_nil in Hin|].
  cbn [fmap list_fmap logical_or_reduce].
  destruct (vget_foldl_or_hit (np_eq a <$> ids) (np_eq a idx) p _ (Hget idx))
    as (b' & -> & Hleft & Hright).
  { apply Forall_fmap, Forall_forall. intros idx' _. cbn.
    rewrite Hget. by eexists. }
  f_equal. apply elem_of_cons in Hin as [->|Hin].
  - apply Hleft. by apply bool_decide_eq_true_2.
  - apply Hright. apply Exists_fmap, Exists_exists. exists l.
    split; [done|]. cbn. rewrite Hget. by rewrite bool_decide_eq_true_2.
Qed.

Lemma apply_slice_empty {A} (s : slice) (l : list A) :
  (0 ≤ stop s ≤ start s)%Z → apply_slice s l = [].
Proof.
  intros Hs. unfold apply_slice, slice_hi, slice_lo, norm_bound.
  rewrite (decide_False (P := (start s < 0)%Z)) by lia.
  rewrite (decide_False (P := (stop s < 0)%Z)) by lia.
  replace (_ - _) with 0 by lia. done.
Qed.

Lemma ravel_crop_empty {A} (sz sx sy : slice) (v : vol A) :
  (0 ≤ stop sz ≤ start sz)%Z ∨ (0 ≤ stop sx ≤ start sx)%Z
  ∨ (0 ≤ stop sy ≤ start sy)%Z →
  ravel (crop (sz, sx, sy) v) = [].
Proof.
  intros Hs. unfold ravel, crop. apply join_nil_2, Forall_join.
  apply Forall_fmap, Forall_fmap, Forall_forall. intros plane Hplane. cbn.
  destruct Hs as [Hs|[Hs|Hs]].
  - rewrite (apply_slice_empty sz) in Hplane by done.
    by apply not_elem_of_nil in Hplane.
  - rewrite (apply_slice_empty sx) by done. constructor.
  - apply Forall_fmap, Forall_forall. intros row _. cbn.
    by apply apply_slice_empty.
Qed.

Section SplitBox.
Context (bits : nat).
Context {PVal : Type}.
Context (pval_max : list PVal → PVal) (pval_div : PVal → PVal → PVal).
Context (gaussian : vol PVal → vol PVal).
Context (watershed : vol PVal → vol nat → vol nat).

(** X16. The box of [split_from_seeds] is computed with tolerance 0, so it
    is empty along an axis on which the voxels of the labels [all_idx] all
    have the same coordinate (along axis 0: the same coordinate, not 0).
    The piece of the boundary map it cuts out is then empty and [max()]
    raises [ValueError]: a cell that lies in a single row, a single column
    or a single plane other than plane 0 cannot be split. *)
Theorem split_from_seeds_flat_cell (segmentation : vol nat)
    (boundary_pmap : vol PVal) (seeds : vol nat) (all_idx : list nat)
    (p0 : index3) (l0 : nat) :
  vget segmentation p0 = Some l0 → l0 ∈ all_idx →
  (∀ p l, vget segmentation p = Some l → l ∈ all_idx → axis1 p = axis1 p0)
  ∨ (∀ p l, vget segmentation p = Some l → l ∈ all_idx → axis2 p = axis2 p0)
  ∨ ((∀ p l, vget segmentation p = Some l → l ∈ all_idx
             → axis0 p = axis0 p0)
     ∧ (1 ≤ axis0 p0)%Z) →
  split_from_seeds bits pval_max pval_div gaussian watershed
    segmentation boundary_pmap seeds all_idx
  = Raise ValueError_empty_max.
Proof.
  intros Hp0 Hl0 Hflat.
  set (mask := logical_or_reduce (np_eq segmentation <$> all_idx)).
  assert (Hmask0 : vget mask p0 = Some true) by by eapply label_mask_hit.
  assert (Hne : nonzero mask ≠ []).
  { intros Hnil. by apply (proj1 (nonzero_nil mask) Hnil p0). }
  assert (Hlabel : ∀ p, p ∈ nonzero mask →
            ∃ l, vget segmentation p = Some l ∧ l ∈ all_idx).
  { intros p Hp. by apply elem_of_nonzero, label_mask_true in Hp. }
  destruct (get_bbox_returns mask 0 Hne)
    as (zlo & zhi & xlo & xhi & ylo & yhi & Hz & Hx & Hy & Hbox).
  unfold split_from_seeds. fold mask. rewrite Hbox. cbn [bind fst snd].
  rewrite ravel_crop_empty; [done|]. cbn [start stop].
  destruct Hz as (_ & (pz & Hpz & Hzlo) & (pz' & Hpz' & Hzhi)).
  destruct Hx as (_ & (px & Hpx & Hxlo) & (px' & Hpx' & Hxhi)).
  destruct Hy as (_ & (py & Hpy & Hylo) & (py' & Hpy' & Hyhi)).
  destruct Hflat as [Hflat|[Hflat|[Hflat Hpos]]].
  - right. left.
    destruct (Hlabel _ Hpx) as (l & Hl & Hin).
    destruct (Hlabel _ Hpx') as (l' & Hl' & Hin').
    pose proof (Hflat _ _ Hl Hin). pose proof (Hflat _ _ Hl' Hin').
    unfold axis1 in *. lia.
  - right. right.
    destruct (Hlabel _ Hpy) as (l & Hl & Hin).
    destruct (Hlabel _ Hpy') as (l' & Hl' & Hin').
    pose proof (Hflat _ _ Hl Hin). pose proof (Hflat _ _ Hl' Hin').
    unfold axis2 in *. lia.
  - left.
    destruct (Hlabel _ Hpz) as (l & Hl & Hin).
    destruct (Hlabel _ Hpz') as (l' & Hl' & Hin').
    pose proof (Hflat _ _ Hl Hin). pose proof (Hflat _ _ Hl' Hin').
    unfold axis0 in *. case_decide; lia.
Qed.

(** X17. When [split_from_seeds] returns, the voxels of the labels
    [all_idx] that lie at the greatest coordinate of these labels along
    axis 1 or axis 2 (or along axis 0, when that coordinate is not 0) keep
    their label: the box, computed with tolerance 0, leaves them out, and
    the flood is written back inside the box only. *)
Theorem split_from_seeds_leaves_last (segmentation : vol nat)
    (boundary_pmap : vol PVal) (seeds : vol nat) (all_idx : list nat)
    (result : vol nat) (p : index3) (l : nat) :
  split_from_seeds bits pval_max pval_div gaussian watershed
    segmentation boundary_pmap seeds all_idx = Ok result →
  vget segmentation p = Some l → l ∈ all_idx →
  (∀ q l', vget segmentation q = Some l' → l' ∈ all_idx
           → axis1 q ≤ axis1 p)%Z
  ∨ (∀ q l', vget segmentation q = Some l' → l' ∈ all_idx
             → axis2 q ≤ axis2 p)%Z
  ∨ ((∀ q l', vget segmentation q = Some l' → l' ∈ all_idx
              → axis0 q ≤ axis0 p)%Z
     ∧ (1 ≤ axis0 p)%Z) →
  vget result p = Some l.
Proof.
  intros Hrun Hp Hl Hlast.
  set (mask := logical_or_reduce (np_eq segmentation <$> all_idx)).
  assert (Hmask : vget mask p = Some true) by by eapply label_mask_hit.
  assert (Hlabel : ∀ q, vget mask q = Some true →
            ∃ l', vget segmentation q = Some l' ∧ l' ∈ all_idx).
  { intros q Hq. by apply label_mask_true in Hq. }
  unfold split_from_seeds in Hrun. fold mask in Hrun.
  destruct (get_bbox mask 0) as [[[[b z_min] x_min] y_min]|e] eqn:Hbox;
    cbn [bind fst snd] in Hrun; [|done].
  destruct (boundary_max _ _) as [m|e]; cbn [bind] in Hrun; [|done].
  destruct (label_max (ravel segmentation)) as [max_id|e];
    cbn [bind] in Hrun; [|done].
  rewrite (vget_setitem_bbox_mask _ _ _ _ _ p Hrun), Hp. cbn.
  rewrite (bbox_excludes_last mask segmentation b z_min x_min y_min p Hbox
             Hmask); [done|].
  destruct Hlast as [Hlast|[Hlast|[Hlast Hpos]]].
  - left. intros q (l' & Hq & Hin)%Hlabel. by eapply Hlast.
  - right. left. intros q (l' & Hq & Hin)%Hlabel. by eapply Hlast.
  - right. right. split; [|done].
    intros q (l' & Hq & Hin)%Hlabel. by eapply Hlast.
Qed.

End SplitBox.

Lemma split_from_seeds_returns_witness :
  ∃ result, toy_split_from_seeds cells_134 ones_134 seeds_134 [5] = Ok result.
Proof.
  apply (split_from_seeds_returns 16 max_list Nat.div toy_gaussian toy_watershed
           cells_134 ones_134 seeds_134 [5]
           ((Slice 0 1, Slice 0 2, Slice 0 2), 0, 0, 0)%Z).
  - intros cost markers. unfold toy_watershed.
    apply same_shape_vmap_l, same_shape_refl.
  - by_compute.
  - vm_compute. reflexivity.
  - vm_compute. discriminate.
Defined.

Lemma split_from_seeds_flat_cell_witness :
  toy_split_from_seeds row_cell_134 ones_134 seeds_134 [5]
  = Raise ValueError_empty_max.
Proof.
  apply (split_from_seeds_flat_cell 16 max_list Nat.div toy_gaussian
           toy_watershed row_cell_134 ones_134 seeds_134 [5] (0, 0, 0) 5).
  - reflexivity.
  - by left.
  - left. intros [[i j] k] l Hl Hin.
    apply list_elem_of_singleton in Hin as ->.
    destruct i as [|i]; [|by destruct i].
    destruct j as [|[|[|j]]]; [done|..].
    + by destruct k as [|[|[|[|k]]]].
    + by destruct k as [|[|[|[|k]]]].
    + done.
Defined.

Lemma split_from_seeds_leaves_last_witness :
  toy_split_from_seeds cells_134 ones_134 seeds_full_134 [5]
  = Ok [ [ [9; 9; 5; 7]; [9; 9; 5; 7]; [5; 5; 5; 7] ] ]
  ∧ vget [ [ [9; 9; 5; 7]; [9; 9; 5; 7]; [5; 5; 5; 7] ] ] (0, 2, 1) = Some 5.
Proof.
  assert (Hrun : toy_split_from_seeds cells_134 ones_134 seeds_full_134 [5]
                 = Ok [ [ [9; 9; 5; 7]; [9; 9; 5; 7]; [5; 5; 5; 7] ] ])
    by (vm_compute; reflexivity).
  split; [exact Hrun|].
  apply (split_from_seeds_leaves_last 16 max_list Nat.div toy_gaussian
           toy_watershed cells_134 ones_134 seeds_full_134 [5] _ (0, 2, 1) 5
           Hrun); [reflexivity|by left|].
  left. intros [[i j] k] l Hl Hin.
  apply list_elem_of_singleton in Hin as ->.
  destruct i as [|i]; [|by destruct i].
  unfold axis1. cbn [fst snd].
  destruct j as [|[|[|j]]]; [lia..|done].
Defined.

(** ** [nuclei_seeds]: the markers of the flood *)








(** ** The background through the correction *)

(** On the statistics of two volumes, the cell id of a record of the
    under-segmentation analysis is not the background. *)
Lemma under_seg_records_positive (cell_seg nuclei_seg : vol nat)
    (threshold : Q) (quantiles_clip : Q * Q) (s : statistics)
    (records : list (nat * UnderSeg)) :
  numba_find_overlaps cell_seg nuclei_seg = Ok s →
  find_potential_under_seg s.1.2 s.1.1 s.2 threshold quantiles_clip
    = Ok records →
  Forall (λ e, 0 < e.1) records.
Proof.
  destruct s as [[cell_counts n_counts] overlap_counts]. cbn [fst snd].
  intros Hrun Hrecords. apply Forall_forall. intros [i r] Hin. cbn [fst].
  assert (Hmask : ∃ mask, get_quantile_mask n_counts quantiles_clip = Ok mask).
  { unfold find_potential_under_seg in Hrecords.
    destruct (get_quantile_mask n_counts quantiles_clip); [by eexists|done]. }
  destruct Hmask as [mask Hmask].
  destruct (proj1 (elem_of_find_potential_under_seg _ _ _ _ _ _ _ i r
                     Hmask Hrecords) Hin) as (Hi & Hr & Hunder).
  subst r.
  destruct (numba_find_overlaps_counted _ _ _ _ _ Hrun)
    as (cmax & nmax & _ & _ & Hcc & _ & _ & Hrows & _).
  assert (Hi' : i < S cmax).
  { apply lookup_lt_is_Some in Hi as [x Hx]. rewrite Hcc in Hx.
    by case_decide. }
  assert (Hlen : 1 < length (under_seg_idx
                              (under_seg_profile n_counts overlap_counts
                                 threshold mask i))).
  { revert Hunder. unfold under_seg_profile.
    cbn [is_under_seg under_seg_idx]. apply bool_decide_eq_true_1. }
  assert (Hn : ∃ n, n ∈ under_seg_idx
                          (under_seg_profile n_counts overlap_counts
                             threshold mask i)).
  { destruct (under_seg_idx _) as [|n ns]; [cbn in Hlen; lia|].
    exists n. by left. }
  destruct Hn as [n Hn]. unfold under_seg_profile in Hn.
  cbn [under_seg_idx] in Hn.
  apply qualifying_subset, nonzero1_spec in Hn as (x & Hx & Hne).
  rewrite Hrows, list_lookup_fmap in Hx by done.
  destruct (seq 0 (S nmax) !! n) as [j|]; [|done]. injection Hx as <-.
  apply counted_nonzero in Hne as [Hpos _].
  apply bool_decide_eq_true in Hpos. lia.
Qed.

Section Background.
Context (bits : nat).
Context {PVal : Type}.
Context (pval_one : PVal).
Context (pval_max : list PVal → PVal) (pval_div : PVal → PVal → PVal).
Context (gaussian : vol PVal → vol PVal).
Context (watershed : vol PVal → vol nat → vol nat).

(** A split of labels other than the background leaves the background as
    it is. *)
Lemma split_from_seeds_background (segmentation : vol nat)
    (boundary_pmap : vol PVal) (seeds : vol nat) (all_idx : list nat)
    (result : vol nat) (p : index3) :
  split_from_seeds bits pval_max pval_div gaussian watershed
    segmentation boundary_pmap seeds all_idx = Ok result →
  0 ∉ all_idx →
  (vget segmentation p = Some 0 → vget result p = Some 0)
  ∧ (vget result p = None ↔ vget segmentation p = None).
Proof.
  unfold split_from_seeds.
  destruct (get_bbox _ 0) as [[[[b z_min] x_min] y_min]|e];
    cbn [bind fst snd]; [|done].
  destruct (boundary_max _ _) as [m|e]; cbn [bind]; [|done].
  destruct (label_max (ravel segmentation)) as [max_id|e]; cbn [bind];
    [|done].
  intros Hset Hzero. rewrite (vget_setitem_bbox_mask _ _ _ _ _ p Hset).
  destruct (vget segmentation p) as [old|] eqn:Hold; cbn; [|done].
  split; [|done]. intros [= ->].
  destruct (in_bbox b segmentation p) as [q|] eqn:Hq; [|done].
  destruct (vget (logical_or_reduce _) q) as [[]|] eqn:Hmask; [|done..].
  apply label_mask_true in Hmask as (l & Hl & Hin).
  rewrite (vget_crop _ _ _ _ Hq), Hold in Hl. by injection Hl as <-.
Qed.

Lemma fix_under_segmentation_background (segmentation nuclei_segmentation : vol nat)
    (boundary_pmap : vol PVal) (cell_assignments : list (nat * UnderSeg))
    (cell_idx : option (list nat)) (result : vol nat) (p : index3) :
  Forall (λ e, 0 < e.1) cell_assignments →
  fix_under_segmentation bits pval_max pval_div gaussian watershed segmentation
    nuclei_segmentation boundary_pmap cell_assignments cell_idx = Ok result →
  (vget segmentation p = Some 0 → vget result p = Some 0)
  ∧ (vget result p = None ↔ vget segmentation p = None).
Proof.
  unfold fix_under_segmentation. intros Hpos. revert segmentation.
  induction Hpos as [|e recs He _ IH]; intros segmentation; cbn [foldM].
  - by intros [= <-].
  - destruct (selected cell_idx e.1); cbn [bind]; [|apply IH].
    destruct (nuclei_seeds _ _ _) as [seeds|err]; cbn [bind]; [|done].
    destruct (split_from_seeds _ _ _ _ _ _ _ _ _) as [next|err] eqn:Hsplit;
      cbn [bind]; [|done].
    intros Hrest. destruct (IH next Hrest) as [Hzero Hnone].
    destruct (split_from_seeds_background _ _ _ _ _ p Hsplit)
      as [Hzero' Hnone'].
    { intros Hin. apply list_elem_of_singleton in Hin. lia. }
    split; [by auto|]. etrans; eauto.
Qed.

(** X19. On a cell volume and a nuclei volume of the same shape, the
    correction keeps the background and the extent of the cell volume: a
    voxel that carries label 0 in the cell volume it was given carries
    label 0 in the volume it returns, and the returned volume has the
    voxels of the cell volume.  This holds whatever the smoothing and the
    flood return, and whatever the integer type of the segmentation. *)
Theorem correction_keeps_background (cell_seg nuclei_seg : vol nat)
    (threshold_merge threshold_split : Q) (quantiles_nuclei : Q * Q)
    (boundary : option (vol PVal)) (result : vol nat) (p : index3) :
  same_shape cell_seg nuclei_seg →
  fix_over_under_segmentation_from_nuclei bits pval_one pval_max pval_div gaussian
    watershed cell_seg nuclei_seg threshold_merge threshold_split
    quantiles_nuclei boundary = Ok result →
  (vget cell_seg p = Some 0 → vget result p = Some 0)
  ∧ (vget result p = None ↔ vget cell_seg p = None).
Proof.
  intros _. unfold fix_over_under_segmentation_from_nuclei.
  destruct (numba_find_overlaps cell_seg nuclei_seg) as [s|e] eqn:Hstat;
    cbn [bind]; [|done].
  set (recs := find_potential_over_seg s.1.2 s.2 threshold_merge).
  rewrite (fix_over_segmentation_merged_label cell_seg recs None)
    by apply find_potential_over_seg_qualifying.
  cbn [bind].
  set (merged := vmap (merged_label recs None) cell_seg).
  destruct (numba_find_overlaps merged nuclei_seg) as [s1|e] eqn:Hstat1;
    cbn [bind]; [|done].
  destruct (find_potential_under_seg _ _ _ _ _) as [cell_assignments|e]
    eqn:Hunder; cbn [bind]; [|done].
  intros Hsplit.
  destruct (fix_under_segmentation_background _ _ _ _ _ _ p
              (under_seg_records_positive _ _ _ _ _ _ Hstat1 Hunder) Hsplit)
    as [Hzero Hnone].
  assert (Hrelabel : merged_label recs None 0 = 0).
  { destruct (merged_label_provenance recs None 0)
      as [->|([n r] & He & Hin & Hhead)]; [done|].
    destruct (over_seg_qualifying_labels _ _ _ _ n _ r Hstat He Hin)
      as [Hpos' _].
    cbn [snd] in *. lia. }
  unfold merged in Hzero, Hnone. rewrite vget_vmap in Hzero, Hnone.
  split.
  - intros Hp. apply Hzero. rewrite Hp. cbn. by rewrite Hrelabel.
  - rewrite Hnone. by destruct (vget cell_seg p).
Qed.

End Background.

Lemma correction_keeps_background_witness :
  toy_pipeline cells_bg_118 nuclei_bg_118 (1 # 3)%Q (2 # 3)%Q (0, 1)%Q None
    = Ok [ [ [0; 1; 1; 1; 1; 0; 0; 3] ] ]
  ∧ (vget cells_bg_118 (0, 0, 5) = Some 0
     → vget [ [ [0; 1; 1; 1; 1; 0; 0; 3] ] ] (0, 0, 5) = Some 0)
  ∧ (vget [ [ [0; 1; 1; 1; 1; 0; 0; 3] ] ] (0, 0, 5) = None
     ↔ vget cells_bg_118 (0, 0, 5) = None).
Proof.
  assert (Hrun : toy_pipeline cells_bg_118 nuclei_bg_118 (1 # 3)%Q (2 # 3)%Q
                   (0, 1)%Q None
                 = Ok [ [ [0; 1; 1; 1; 1; 0; 0; 3] ] ])
    by (vm_compute; reflexivity).
  split; [exact Hrun|].
  assert (Hshape : same_shape cells_bg_118 nuclei_bg_118) by by_compute.
  exact (correction_keeps_background 16 1 max_list Nat.div toy_gaussian
           toy_watershed cells_bg_118 nuclei_bg_118 (1 # 3)%Q (2 # 3)%Q
           (0, 1)%Q None _ (0, 0, 5) Hshape Hrun).
Defined.

(** The converse does not hold in the integer type of the segmentation:
    with the greatest label at 65534, the flood label 1 is stored as
    [1 + 65535] reduced modulo [2^16], which is the background. *)
Lemma split_from_seeds_wraps_to_background :
  toy_split_from_seeds cells_below_max_123 ones_123 seeds_wrap_123
    [Z.to_nat 65534]
  = Ok [ [ [0; Z.to_nat 65534; 1]; [Z.to_nat 65534; Z.to_nat 65534; 1] ] ].
Proof.
  vm_cast_no_check
    (eq_refl (Ok [ [ [0; Z.to_nat 65534; 1];
                     [Z.to_nat 65534; Z.to_nat 65534; 1] ] ])).
Qed.

(** ** The errors of the correction *)

Lemma ravel_vmap_nonempty {A B} (f : A → B) (v : vol A) :
  ravel v ≠ [] → ravel (vmap f v) ≠ [].
Proof.
  intros Hne Hnil. destruct (ravel v) as [|x xs] eqn:Hravel; [done|].
  assert (Hin : f x ∈ ravel (vmap f v)).
  { apply elem_of_ravel_vmap. exists x. rewrite Hravel. split; [by left|done]. }
  rewrite Hnil in Hin. by apply not_elem_of_nil in Hin.
Qed.

Lemma numba_find_overlaps_nuclei_counts (cell_seg n_seg : vol nat)
    (s : statistics) :
  numba_find_overlaps cell_seg n_seg = Ok s → s.1.2 ≠ [].
Proof.
  unfold numba_find_overlaps.
  destruct (label_max (ravel cell_seg)) as [cmax|]; cbn [bind]; [|done].
  destruct (label_max (ravel n_seg)) as [nmax|]; cbn [bind]; [|done].
  pose proof (foldl_count_voxel (cmax + 1) (nmax + 1)
                (voxel_pairs cell_seg n_seg)) as Hfold.
  destruct (foldl count_voxel _ _) as [[cc cn] oc].
  destruct Hfold as (_ & Hcn & _). intros [= <-]. cbn [fst snd].
  intros ->. specialize (Hcn 0). rewrite decide_True in Hcn by lia. done.
Qed.

Section Errors.
Context (bits : nat).
Context {PVal : Type}.
Context (pval_one : PVal).
Context (pval_max : list PVal → PVal) (pval_div : PVal → PVal → PVal).
Context (gaussian : vol PVal → vol PVal).
Context (watershed : vol PVal → vol nat → vol nat).

(** X20. On a cell volume or a nuclei volume without a voxel the correction
    raises the [ValueError] of [max()] on an empty array.  On volumes of
    the same shape that have voxels, a quantile fraction outside [0, 1] makes it raise the
    [ValueError] of [np.quantile]; the error comes from the second
    analysis, after the merge pass has run to its end. *)
Theorem correction_raises (cell_seg nuclei_seg : vol nat)
    (threshold_merge threshold_split : Q) (quantiles_nuclei : Q * Q)
    (boundary : option (vol PVal)) :
  (ravel cell_seg = [] ∨ ravel nuclei_seg = [] →
   fix_over_under_segmentation_from_nuclei bits pval_one pval_max pval_div
     gaussian watershed cell_seg nuclei_seg threshold_merge threshold_split
     quantiles_nuclei boundary
   = Raise ValueError_empty_max)
  ∧ (same_shape cell_seg nuclei_seg →
     ravel cell_seg ≠ [] → ravel nuclei_seg ≠ [] →
     ¬ ((0 <= quantiles_nuclei.1 <= 1)%Q ∧ (0 <= quantiles_nuclei.2 <= 1)%Q) →
     fix_over_under_segmentation_from_nuclei bits pval_one pval_max pval_div
       gaussian watershed cell_seg nuclei_seg threshold_merge threshold_split
       quantiles_nuclei boundary
     = Raise ValueError_quantile).
Proof.
  unfold fix_over_under_segmentation_from_nuclei. split.
  - intros Hempty. unfold numba_find_overlaps at 1.
    destruct (ravel cell_seg) as [|c cs]; [done|].
    destruct Hempty as [Hempty|Hempty]; [done|]. by rewrite Hempty.
  - intros _ Hcell Hnuc Hq.
    destruct (numba_find_overlaps_returns _ _ Hcell Hnuc) as [s ->].
    cbn [bind].
    rewrite (fix_over_segmentation_merged_label cell_seg _ None)
      by apply find_potential_over_seg_qualifying.
    cbn [bind].
    destruct (numba_find_overlaps_returns _ nuclei_seg
                (ravel_vmap_nonempty
                   (merged_label
                      (find_potential_over_seg s.1.2 s.2 threshold_merge) None)
                   cell_seg Hcell) Hnuc) as [s1 Hs1].
    rewrite Hs1. cbn [bind]. unfold find_potential_under_seg.
    rewrite get_quantile_mask_invalid; [done| |done].
    by eapply numba_find_overlaps_nuclei_counts.
Qed.

End Errors.

Lemma correction_raises_witness :
  toy_pipeline [] nuclei_118 (1 # 3)%Q (2 # 3)%Q (0, 1)%Q None
    = Raise ValueError_empty_max
  ∧ toy_pipeline cells_118 nuclei_118 (1 # 3)%Q (2 # 3)%Q (0, 3 # 2)%Q None
    = Raise ValueError_quantile.
Proof.
  split.
  - apply (correction_raises 16 1 max_list Nat.div toy_gaussian toy_watershed).
    by left.
  - apply (correction_raises 16 1 max_list Nat.div toy_gaussian toy_watershed);
      [by_compute|done..|].
    intros [_ [_ Hle]]. by apply Qle_bool_iff in Hle.
Defined.

(** ** The thresholds *)

Lemma sum_list_Z_nonneg (a : list Z) :
  Forall (λ x, 0 ≤ x)%Z a → (0 ≤ sum_list_Z a)%Z.
Proof.
  induction 1 as [|x a Hx _ IH]; [done|]. rewrite sum_list_Z_cons. lia.
Qed.

(** The entries of a list of counts at increasing positions add up to no
    more than the whole list. *)
Lemma sum_sorted_indices (col : list Z) (ids : list nat) (k : nat) :
  Forall (λ x, 0 ≤ x)%Z col → StronglySorted lt ids →
  Forall (λ c, k ≤ c < k + length col) ids →
  (sum_list_Z ((λ c, col !!! (c - k)%nat) <$> ids) ≤ sum_list_Z col)%Z.
Proof.
  intros Hcol. revert k ids.
  induction Hcol as [|x col Hx Hcol IH]; intros k ids Hsorted Hrange.
  - destruct ids as [|c ids]; [done|].
    apply Forall_cons in Hrange as [Hc _]. cbn [length] in Hc. lia.
  - rewrite sum_list_Z_cons.
    assert (Hshift : ∀ l : list nat,
              Forall (λ c, S k ≤ c < k + length (x :: col)) l →
              (λ c, (x :: col) !!! (c - k)) <$> l
              = (λ c, col !!! (c - S k)) <$> l).
    { intros l Hl. apply list_fmap_ext. intros i c Hc.
      rewrite Forall_lookup in Hl. specialize (Hl i c Hc). cbn beta in Hl.
      replace (c - k) with (S (c - S k)) by lia. done. }
    destruct ids as [|c ids].
    { cbn. pose proof (sum_list_Z_nonneg col Hcol). unfold sum_list_Z in *.
      cbn. lia. }
    apply StronglySorted_cons in Hsorted as [Hlt Hsorted].
    apply Forall_cons in Hrange as [Hc Hrange].
    assert (Hrest : Forall (λ c', S k ≤ c' < S k + length col) ids).
    { apply Forall_forall. intros c' Hc'.
      rewrite Forall_forall in Hlt, Hrange.
      specialize (Hlt c' Hc'). specialize (Hrange c' Hc').
      cbn [length] in Hrange. lia. }
    destruct (decide (c = k)) as [->|Hne].
    + rewrite fmap_cons, sum_list_Z_cons, Nat.sub_diag.
      change ((x :: col) !!! 0) with x.
      rewrite Hshift.
      * specialize (IH (S k) ids Hsorted Hrest). lia.
      * eapply Forall_impl; [exact Hrest|]. intros c' Hc'.
        cbv beta in Hc' |- *. cbn [length]. lia.
    + rewrite Hshift.
      * assert (Hall : Forall (λ c', S k ≤ c' < S k + length col) (c :: ids)).
        { constructor; [cbn [length] in Hc; lia|done]. }
        specialize (IH (S k) (c :: ids)
                      (proj2 (StronglySorted_cons _ _ _) (conj Hlt Hsorted))
                      Hall).
        lia.
      * constructor.
        -- cbn [length] in *. lia.
        -- eapply Forall_impl; [exact Hrest|]. intros c' Hc'.
           cbv beta in Hc' |- *. cbn [length]. lia.
Qed.

Lemma sum_above (t : Q) (g : nat → Z) (l : list nat) :
  (∀ c, c ∈ l → (t < inject_Z (g c))%Q) →
  (inject_Z (Z.of_nat (length l)) * t <= inject_Z (sum_list_Z (g <$> l)))%Q
  ∧ (l ≠ [] →
     (inject_Z (Z.of_nat (length l)) * t < inject_Z (sum_list_Z (g <$> l)))%Q).
Proof.
  induction l as [|c l IH]; intros Hall.
  - split; [|done]. change (0 * t <= 0)%Q. rewrite Qmult_0_l.
    apply Qle_refl.
  - destruct IH as [IH _]; [intros c' Hc'; apply Hall; by right|].
    specialize (Hall c ltac:(by left)).
    rewrite fmap_cons, sum_list_Z_cons, inject_Z_plus.
    cbn [length]. rewrite Nat2Z.inj_succ, <-Z.add_1_l, inject_Z_plus.
    change (inject_Z 1) with 1%Q.
    generalize dependent (inject_Z (sum_list_Z (g <$> l))).
    generalize dependent (inject_Z (g c)).
    generalize (inject_Z (Z.of_nat (length l))). intros len gc Hgc total IH.
    assert (Heq : ((1 + len) * t == t + len * t)%Q) by ring.
    rewrite Heq. split; [|intros _]; lra.
Qed.

Lemma elem_of_qualifying (ids : list nat) (f : nat → fval)
    (keep : nat * fval → bool) (c : nat) :
  c ∈ (zip ids (f <$> ids) ≫= λ e, if keep e then [e.1] else []) ↔
  c ∈ ids ∧ keep (c, f c) = true.
Proof.
  rewrite list_elem_of_bind. split.
  - intros ([c' r] & Hc & Hin).
    apply list_elem_of_lookup in Hin as [i Hi].
    apply lookup_zip_with_Some in Hi as (x & y & [= -> ->] & Hx & Hy).
    rewrite list_lookup_fmap, Hx in Hy. injection Hy as <-.
    destruct (keep (x, f x)) eqn:Hkeep; [|by apply not_elem_of_nil in Hc].
    apply list_elem_of_singleton in Hc as ->. cbn [fst].
    split; [by eapply list_elem_of_lookup_2|done].
  - intros [Hin Hkeep]. exists (c, f c). rewrite Hkeep.
    split; [by apply list_elem_of_singleton|].
    apply list_elem_of_lookup in Hin as [i Hi].
    apply list_elem_of_lookup. exists i.
    apply lookup_zip_with_Some. exists c, (f c).
    split; [done|]. split; [done|]. by rewrite list_lookup_fmap, Hi.
Qed.

(** X21. Where the statistics respect the overlap invariant at a nucleus of
    positive count, the number of its qualifying cells times the merge
    threshold is below 1: the qualifying overlaps add up to no more than
    the count of the nucleus.  With a threshold of one half or more at most
    one cell qualifies, so the nucleus gets no record and nothing is merged
    for it. *)
Theorem over_seg_qualifying_bound (nuclei_counts : list Z)
    (intersection_counts : list (list Z)) (threshold : Q) (n : nat) :
  nucleus_consistent nuclei_counts intersection_counts n →
  (0 < nuclei_counts !!! n)%Z →
  (inject_Z (Z.of_nat (length
      (over_seg_idx (over_seg_profile nuclei_counts intersection_counts
                       threshold n)))) * threshold < 1)%Q
  ∧ ((1 # 2 <= threshold)%Q →
     is_over_seg (over_seg_profile nuclei_counts intersection_counts
                    threshold n) = false).
Proof.
  intros [Hnonneg Hsum] Hpos.
  pose proof (over_seg_idx_sorted nuclei_counts intersection_counts
                threshold n) as Hsorted.
  set (col := column intersection_counts n) in *.
  set (cnt := nuclei_counts !!! n) in *.
  assert (Hcnt : (0 < inject_Z cnt)%Q) by (by rewrite <-(Zlt_Qlt 0)).
  assert (Hqual : ∀ c,
            c ∈ over_seg_idx (over_seg_profile nuclei_counts
                                intersection_counts threshold n) →
            c < length col
            ∧ (threshold * inject_Z cnt < inject_Z (col !!! c))%Q).
  { intros c Hc. unfold over_seg_profile in Hc. cbn [over_seg_idx] in Hc.
    apply (elem_of_qualifying _
             (λ _c_idx, true_divide (entry intersection_counts _c_idx n)
                          (nuclei_counts !!! n))
             (λ e, fval_gtb e.2 (Fin threshold))) in Hc as [Hin Hkeep].
    apply nonzero1_spec in Hin as (x & Hx & _). fold col in Hx.
    split; [by eapply lookup_lt_Some|].
    rewrite (list_lookup_total_correct _ _ _ Hx).
    assert (Hentry : entry intersection_counts c n = x).
    { unfold col, column in Hx. rewrite list_lookup_fmap in Hx.
      destruct (intersection_counts !! c) as [row|] eqn:Hrow; [|done].
      injection Hx as <-. unfold entry.
      by rewrite (list_lookup_total_correct _ _ _ Hrow). }
    cbn [snd] in Hkeep. rewrite Hentry in Hkeep. fold cnt in Hkeep.
    unfold true_divide in Hkeep. rewrite decide_False in Hkeep by lia.
    unfold fval_gtb, fval_ltb in Hkeep. apply Qltb_lt in Hkeep.
    apply (Qmult_lt_compat_r _ _ (inject_Z cnt)) in Hkeep; [|done].
    eapply Qlt_le_trans; [exact Hkeep|]. apply Qle_lteq. right. field.
    intros Hzero. rewrite Hzero in Hcnt. by apply Qlt_irrefl in Hcnt. }
  set (qualifying := over_seg_idx (over_seg_profile nuclei_counts
                                     intersection_counts threshold n)) in *.
  assert (Hle : (sum_list_Z ((λ c : nat, col !!! c) <$> qualifying)
                 ≤ cnt)%Z).
  { etrans; [|exact Hsum].
    pose proof (sum_sorted_indices col qualifying 0 Hnonneg Hsorted) as Hs.
    rewrite (list_fmap_ext (λ c, col !!! (c - 0)) (λ c, col !!! c)) in Hs.
    - apply Hs. apply Forall_forall. intros c Hc.
      destruct (Hqual c Hc). lia.
    - intros i c _. by rewrite Nat.sub_0_r. }
  destruct (sum_above (threshold * inject_Z cnt) (λ c, col !!! c) qualifying)
    as [_ Hstrict]; [intros c Hc; by apply Hqual|].
  assert (Hbound : (inject_Z (Z.of_nat (length qualifying)) * threshold < 1)%Q).
  { destruct qualifying as [|c0 rest] eqn:Hq;
      [change (0 * threshold < 1)%Q; by rewrite Qmult_0_l|].
    specialize (Hstrict ltac:(done)).
    rewrite Zle_Qle in Hle.
    apply (Qmult_lt_r _ _ (inject_Z cnt)); [done|].
    eapply Qlt_le_trans; [|rewrite Qmult_1_l; exact Hle].
    eapply Qle_lt_trans; [|exact Hstrict].
    apply Qle_lteq. right. ring. }
  split; [done|].
  intros Hhalf. unfold over_seg_profile. cbn [is_over_seg].
  apply bool_decide_eq_false_2. intros Hlen.
  change (1 < length qualifying) in Hlen.
  assert (Htwo : (2 <= inject_Z (Z.of_nat (length qualifying)))%Q).
  { rewrite <-(Zle_Qle 2). lia. }
  assert (Hprod : (2 * (1 # 2) <= inject_Z (Z.of_nat (length qualifying))
                                 * threshold)%Q).
  { apply Qmult_le_compat_nonneg; split; try done. }
  revert Hbound Hprod.
  generalize (inject_Z (Z.of_nat (length qualifying)) * threshold)%Q.
  intros q Hq1 Hq2. lra.
Qed.

Lemma over_seg_qualifying_bound_witness :
  (inject_Z (Z.of_nat (length
      (over_seg_idx (over_seg_profile [0; 4; 4]%Z
                       [ [0; 0; 0]; [0; 2; 0]; [0; 2; 2]; [0; 0; 2] ]%Z
                       (1 # 2) 1)))) * (1 # 2) < 1)%Q
  ∧ ((1 # 2 <= 1 # 2)%Q →
     is_over_seg (over_seg_profile [0; 4; 4]%Z
                    [ [0; 0; 0]; [0; 2; 0]; [0; 2; 2]; [0; 0; 2] ]%Z
                    (1 # 2) 1) = false).
Proof.
  apply over_seg_qualifying_bound; [by_compute|cbn; lia].
Defined.

Lemma StronglySorted_lt_NoDup (l : list nat) : StronglySorted lt l → NoDup l.
Proof.
  induction 1 as [|x l _ IH Hlt]; constructor; [|done].
  intros Hin. rewrite Forall_forall in Hlt. apply Hlt in Hin. lia.
Qed.

Lemma fval_gtb_antitone (r : fval) (t t' : Q) :
  (t <= t')%Q → fval_gtb r (Fin t') = true → fval_gtb r (Fin t) = true.
Proof.
  intros Hle. unfold fval_gtb, fval_ltb. destruct r as [q| | |]; try done.
  rewrite !Qltb_lt. intros Hlt. by eapply Qle_lt_trans.
Qed.

(** X22. Raising a threshold never lets more ids qualify: a cell that
    qualifies for a nucleus at the greater merge threshold qualifies at the
    smaller one, a nucleus that qualifies for a cell at the greater split
    threshold qualifies at the smaller one, and a nucleus that has a record
    of the over-segmentation analysis at the greater threshold has one at
    the smaller. *)
Theorem thresholds_antitone (nuclei_counts : list Z)
    (intersection_counts : list (list Z)) (threshold threshold' : Q)
    (mask : list bool) (idx : nat) :
  (threshold <= threshold')%Q →
  (∀ c, c ∈ over_seg_idx (over_seg_profile nuclei_counts intersection_counts
                            threshold' idx) →
        c ∈ over_seg_idx (over_seg_profile nuclei_counts intersection_counts
                            threshold idx))
  ∧ (∀ n, n ∈ under_seg_idx (under_seg_profile nuclei_counts
                               intersection_counts threshold' mask idx) →
          n ∈ under_seg_idx (under_seg_profile nuclei_counts
                               intersection_counts threshold mask idx))
  ∧ (idx ∈ (find_potential_over_seg nuclei_counts intersection_counts
              threshold').*1 →
     idx ∈ (find_potential_over_seg nuclei_counts intersection_counts
              threshold).*1).
Proof.
  intros Hle.
  assert (Hover : ∀ c,
            c ∈ over_seg_idx (over_seg_profile nuclei_counts
                                intersection_counts threshold' idx) →
            c ∈ over_seg_idx (over_seg_profile nuclei_counts
                                intersection_counts threshold idx)).
  { intros c. unfold over_seg_profile. cbn [over_seg_idx].
    rewrite !(elem_of_qualifying _
                (λ _c_idx, true_divide (entry intersection_counts _c_idx idx)
                             (nuclei_counts !!! idx))
                (λ e, fval_gtb e.2 (Fin _))).
    cbn [snd]. intros [Hin Hkeep]. split; [done|].
    by eapply fval_gtb_antitone. }
  split; [exact Hover|]. split.
  - intros n. unfold under_seg_profile. cbn [under_seg_idx].
    rewrite !(elem_of_qualifying _
                (λ _n_idx, true_divide (entry intersection_counts idx _n_idx)
                             (nuclei_counts !!! _n_idx))
                (λ e, fval_gtb e.2 (Fin _) && (mask !!! e.1))).
    cbn [fst snd]. intros [Hin [Hkeep Hmask]%andb_prop]. split; [done|].
    apply andb_true_intro. split; [|done]. by eapply fval_gtb_antitone.
  - intros Hrec. apply list_elem_of_fmap in Hrec as ([n r] & -> & Hrec).
    apply elem_of_find_potential_over_seg in Hrec as (Hn & -> & Hlen).
    cbn [fst]. apply list_elem_of_fmap.
    exists (n, over_seg_profile nuclei_counts intersection_counts threshold n).
    split; [done|]. apply elem_of_find_potential_over_seg.
    split; [done|]. split; [done|].
    unfold over_seg_profile in Hlen |- *. cbn [is_over_seg] in Hlen |- *.
    apply bool_decide_eq_true in Hlen. apply bool_decide_eq_true.
    eapply Nat.lt_le_trans; [exact Hlen|].
    apply submseteq_length, NoDup_submseteq.
    + apply StronglySorted_lt_NoDup.
      apply (over_seg_idx_sorted nuclei_counts intersection_counts
               threshold' n).
    + apply Hover.
Qed.

Lemma thresholds_antitone_witness :
  (1 # 4 <= 1 # 3)%Q
  ∧ 2 ∈ over_seg_idx (over_seg_profile [0; 4; 4]%Z
                        [ [0; 0; 0]; [0; 2; 0]; [0; 2; 2]; [0; 0; 2] ]%Z
                        (1 # 4) 1).
Proof.
  assert (Hle : (1 # 4 <= 1 # 3)%Q) by by apply Qle_bool_iff.
  split; [exact Hle|].
  apply (thresholds_antitone [0; 4; 4]%Z
           [ [0; 0; 0]; [0; 2; 0]; [0; 2; 2]; [0; 0; 2] ]%Z
           (1 # 4) (1 # 3) [] 1 Hle).
  by_compute.
Defined.

(** ** The store and the arrays *)

Lemma correction_agrees_witness :
  Store.agrees
    (toy_store_pipeline 0 1 (33 # 100)%Q (66 # 100)%Q (3 # 10, 99 # 100)%Q
       None store_115)
    (toy_pipeline cells_115 nuclei_115 (33 # 100)%Q (66 # 100)%Q
       (3 # 10, 99 # 100)%Q None).
Proof.
  apply (correction_agrees 16 1 max_list Nat.div toy_gaussian toy_watershed
           store_115 0 1 cells_115 nuclei_115);
    vm_compute; reflexivity.
Defined.

(** ** The slices of the cropping widget *)

Lemma slice_extent_inside (s : slice) (n : nat) :
  (0 ≤ start s ≤ stop s)%Z → (stop s ≤ Z.of_nat n)%Z →
  Z.of_nat (slice_extent s n) = (stop s - start s)%Z.
Proof.
  intros Hs Hn. unfold slice_extent, slice_hi, slice_lo, norm_bound.
  rewrite (decide_False (P := (start s < 0)%Z)) by lia.
  rewrite (decide_False (P := (stop s < 0)%Z)) by lia. lia.
Qed.

Lemma slice_extent_from_end (s : slice) (n : nat) :
  (- Z.of_nat n ≤ start s < 0)%Z → (0 ≤ stop s ≤ Z.of_nat n)%Z →
  Z.of_nat (slice_extent s n)
  = Z.max 0 (stop s - start s - Z.of_nat n)%Z.
Proof.
  intros Hs Hn. unfold slice_extent, slice_hi, slice_lo, norm_bound.
  rewrite (decide_True (P := (start s < 0)%Z)) by lia.
  rewrite (decide_False (P := (stop s < 0)%Z)) by lia. lia.
Qed.

(** X24. The slice [widget_cropping] builds along axis 0 spans [crop_z]
    indices around the plane of the rectangle: its bounds differ by
    [crop_z], and it selects [crop_z] planes when it lies inside the stack.
    When the rectangle lies so close to plane 0 that the lower bound is
    negative, the bound is read from the end of the axis, and on a stack of
    at least [crop_z] planes the slice selects nothing.  Along the other two
    axes the slice selects nothing when the third vertex of the rectangle
    does not lie beyond the first. *)
Theorem crop_slices_extent (rectangle : list (list Z)) (crop_z : Z)
    (sz sx sy : slice) (depth height : nat) :
  crop_slices rectangle crop_z = Ok (sz, sx, sy) →
  (stop sz - start sz = crop_z)%Z
  ∧ ((0 ≤ crop_z)%Z → (0 ≤ start sz)%Z → (stop sz ≤ Z.of_nat depth)%Z →
     Z.of_nat (slice_extent sz depth) = crop_z)
  ∧ ((- Z.of_nat depth ≤ start sz < 0)%Z → (0 ≤ stop sz)%Z →
     (crop_z ≤ Z.of_nat depth)%Z →
     slice_extent sz depth = 0)
  ∧ ((0 ≤ stop sx ≤ start sx)%Z → slice_extent sx height = 0).
Proof.
  unfold crop_slices.
  destruct (vertex rectangle 0 0) as [z0|]; cbn [bind]; [|done].
  destruct (vertex rectangle 0 1) as [x0|]; cbn [bind]; [|done].
  destruct (vertex rectangle 2 1) as [x1|]; cbn [bind]; [|done].
  destruct (vertex rectangle 0 2) as [y0|]; cbn [bind]; [|done].
  destruct (vertex rectangle 2 2) as [y1|]; cbn [bind]; [|done].
  intros [= <- <- <-]. cbn [start stop].
  assert (Hhalves : (floor_half crop_z + ceil_half crop_z = crop_z)%Z).
  { unfold floor_half, ceil_half.
    pose proof (Z.div_mod crop_z 2 ltac:(lia)).
    pose proof (Z.mod_pos_bound crop_z 2 ltac:(lia)).
    pose proof (Z.div_mod (- crop_z) 2 ltac:(lia)).
    pose proof (Z.mod_pos_bound (- crop_z) 2 ltac:(lia)). lia. }
  split_and!.
  - lia.
  - intros Hz Hlo Hhi.
    rewrite slice_extent_inside; cbn [start stop]; lia.
  - intros Hlo Hhi Hdepth.
    apply Nat2Z.inj. rewrite slice_extent_from_end; cbn [start stop]; lia.
  - intros Hx.
    unfold slice_extent, slice_hi, slice_lo, norm_bound. cbn [start stop].
    rewrite (decide_False (P := (x0 < 0)%Z)) by lia.
    rewrite (decide_False (P := (x1 < 0)%Z)) by lia. lia.
Qed.

Lemma crop_slices_extent_witness :
  crop_slices rectangle_top 4 = Ok (Slice (-2) 2, Slice 10 30, Slice 20 60)
  ∧ slice_extent (Slice (-2) 2) 50 = 0.
Proof.
  assert (Hrun : crop_slices rectangle_top 4
                 = Ok (Slice (-2) 2, Slice 10 30, Slice 20 60))
    by (vm_compute; reflexivity).
  split; [exact Hrun|].
  destruct (crop_slices_extent rectangle_top 4 _ _ _ 50 0 Hrun)
    as (_ & _ & Hnegative & _).
  apply Hnegative; cbn [start stop]; lia.
Defined.

(** ** The correction and the runs of the loop *)

Lemma run_bind_raise {A B} (m : runs A) (k : A → runs B) (e : exn) :
  m (Raise e) → run_bind m k (Raise e).
Proof. intros Hm. right. by exists e. Qed.

Section CorrectionRuns.
Context (bits : nat).
Context {PVal : Type}.
Context (pval_one : PVal).
Context (pval_max : list PVal → PVal) (pval_div : PVal → PVal → PVal).
Context (gaussian : vol PVal → vol PVal).
Context (watershed : vol PVal → vol nat → vol nat).


(** X27. The correction with the loop of [numba_find_overlaps] taken
    without its threads is one of the runs of the correction under
    [prange], on volumes of the same shape. *)
Theorem correction_sequential_run (cell_seg nuclei_seg : vol nat)
    (threshold_merge threshold_split : Q) (quantiles_nuclei : Q * Q)
    (boundary : option (vol PVal)) :
  same_shape cell_seg nuclei_seg →
  fix_over_under_segmentation_from_nuclei_run bits pval_one pval_max pval_div
    gaussian watershed cell_seg nuclei_seg threshold_merge threshold_split
    quantiles_nuclei boundary
    (fix_over_under_segmentation_from_nuclei bits pval_one pval_max pval_div
       gaussian watershed cell_seg nuclei_seg threshold_merge threshold_split
       quantiles_nuclei boundary).
Proof.
  intros Hshape.
  unfold fix_over_under_segmentation_from_nuclei_run,
    fix_over_under_segmentation_from_nuclei.
  pose proof (numba_find_overlaps_sequential_run _ _ Hshape) as Hrun.
  destruct (numba_find_overlaps cell_seg nuclei_seg) as [s|e]; cbn [bind];
    [|by apply run_bind_raise].
  apply (run_bind_ok _ _ s); [done|]. cbv zeta.
  set (recs := find_potential_over_seg s.1.2 s.2 threshold_merge).
  rewrite (fix_over_segmentation_merged_label cell_seg recs None)
    by apply find_potential_over_seg_qualifying.
  cbn [bind]. eapply run_bind_ok; [reflexivity|].
  set (merged := vmap (merged_label recs None) cell_seg).
  assert (Hshape' : same_shape merged nuclei_seg)
    by by apply same_shape_vmap_l.
  pose proof (numba_find_overlaps_sequential_run _ _ Hshape') as Hrun'.
  destruct (numba_find_overlaps merged nuclei_seg) as [s1|e]; cbn [bind];
    [|by apply run_bind_raise].
  apply (run_bind_ok _ _ s1); [done|].
  destruct (find_potential_under_seg _ _ _ _ _) as [cell_assignments|e];
    cbn [bind]; [|by apply run_bind_raise].
  by eapply run_bind_ok.
Qed.

End CorrectionRuns.


Lemma correction_sequential_run_witness :
  same_shape cells_race nuclei_race
  ∧ toy_pipeline cells_race nuclei_race (33 # 100) (66 # 100)
      (3 # 10, 99 # 100)%Q None
    = Ok cells_race
  ∧ toy_pipeline_run cells_race nuclei_race (33 # 100) (66 # 100)
      (3 # 10, 99 # 100)%Q None (Ok cells_race).
Proof.
  assert (Hshape : same_shape cells_race nuclei_race) by by_compute.
  assert (Hseq : toy_pipeline cells_race nuclei_race (33 # 100) (66 # 100)
                   (3 # 10, 99 # 100)%Q None
                 = Ok cells_race) by (vm_compute; reflexivity).
  split_and!; [exact Hshape|exact Hseq|].
  rewrite <-Hseq.
  exact (correction_sequential_run 16 1 max_list Nat.div toy_gaussian
           toy_watershed cells_race nuclei_race (33 # 100) (66 # 100)
           (3 # 10, 99 # 100)%Q None Hshape).
Defined.
